(** * cpp_ulid: a shallow embedding of [ulid.hpp] and its properties

    The development follows the header [ulid.hpp] (class [ulid::ulid_t]):
    the 16-byte value, the Crockford Base32 codec ([encode_base32],
    [extract_digit], [decode_crockford], [from_string]), the monotonic
    generator ([generate_monotonic], [increment_big_endian]) and the
    readable 35-character form ([to_readable_string],
    [from_readable_string]).

    Conventions.
    - [std::uint8_t] and [std::uint64_t] are integers of [Z]; the
      wrap-around of a 64-bit left shift is written out ([shl64]).
    - [std::string] and [std::string_view] are lists of [ascii].
    - [std::optional<T>] is [option T].
    - the [static thread_local] variables of the generators are an explicit
      state record threaded through the calls; the clock reading
      [now_ms()] is an input of each call. *)

From Stdlib Require Import ZArith Ascii String List Lia Bool Arith.
Import ListNotations.
Open Scope Z_scope.

Set Implicit Arguments.

(** ** Machine integers *)

Abbreviation byte := Z (only parsing).
Abbreviation str := (list ascii) (only parsing).

Definition lit (s : string) : str := list_ascii_of_string s.

Definition two64 : Z := 2 ^ 64.

(** [a << k] on a [std::uint64_t]: the bits shifted past bit 63 are lost. *)
Definition shl64 (a k : Z) : Z := Z.shiftl a k mod two64.

(** [a >> k] on a [std::uint64_t]. *)
Definition shr64 (a k : Z) : Z := Z.shiftr a k.

Definition is_byte (b : Z) : Prop := 0 <= b < 256.
Definition is_u64 (x : Z) : Prop := 0 <= x < two64.

Definition byteb (b : Z) : bool := (0 <=? b) && (b <? 256).

(** ** The value type *)

(** [class ulid_t] has the single data member
    [std::array<byte, 16> data{}]. *)
Record ulid_t : Type := mk_ulid { data : list byte }.

(** Every [std::array<byte, 16>] has sixteen elements, each a byte. *)
Definition ulid_okb (u : ulid_t) : bool :=
  (length (data u) =? 16)%nat && forallb byteb (data u).

Definition ulid_ok (u : ulid_t) : Prop := ulid_okb u = true.

(** [ulid_t ulid{}]: all bytes zero. *)
Definition ulid_zero : ulid_t := mk_ulid (repeat 0 16).

(** The spans over [data]. *)
Definition timestamp_bytes (u : ulid_t) : list byte := firstn 6 (data u).
Definition random_bytes (u : ulid_t) : list byte := skipn 6 (data u).
Definition high_bytes (u : ulid_t) : list byte := firstn 8 (data u).
Definition low_bytes (u : ulid_t) : list byte := skipn 8 (data u).

(** Writing through a span replaces that part of [data]. *)
Definition set_timestamp_bytes (u : ulid_t) (bs : list byte) : ulid_t :=
  mk_ulid (bs ++ skipn 6 (data u)).
Definition set_random_bytes (u : ulid_t) (bs : list byte) : ulid_t :=
  mk_ulid (firstn 6 (data u) ++ bs).
Definition set_high_bytes (u : ulid_t) (bs : list byte) : ulid_t :=
  mk_ulid (bs ++ skipn 8 (data u)).
Definition set_low_bytes (u : ulid_t) (bs : list byte) : ulid_t :=
  mk_ulid (firstn 8 (data u) ++ bs).

(** [from_bytes]: an element-wise copy of the sixteen bytes. *)
Definition from_bytes (bytes : list byte) : ulid_t :=
  mk_ulid (map (fun i => nth i bytes 0) (seq 0 16)).

Definition to_bytes (u : ulid_t) : list byte := data u.

(** [write_big_endian<N>(value, out)]:
    [out[i] = (value >> ((N - 1 - i) * 8)) & 0xFF]. *)
Definition write_big_endian (N : nat) (value : Z) : list byte :=
  map (fun i => Z.land (shr64 value (Z.of_nat (N - 1 - i) * 8)) 255) (seq 0 N).

(** [timestamp_ms]: [ts = (ts << 8) | b] over the six timestamp bytes. *)
Definition timestamp_ms (u : ulid_t) : Z :=
  fold_left (fun ts b => Z.lor (shl64 ts 8) b) (timestamp_bytes u) 0.

(** Lexicographic comparison of two sequences, a proper prefix being
    smaller: what [std::array]'s defaulted comparison and
    [std::string]'s [operator<] both compute. *)
Fixpoint lex_compare {A : Type} (cmp : A -> A -> comparison)
    (a b : list A) : comparison :=
  match a, b with
  | [], [] => Eq
  | [], _ :: _ => Lt
  | _ :: _, [] => Gt
  | x :: a', y :: b' =>
      match cmp x y with
      | Eq => lex_compare cmp a' b'
      | c => c
      end
  end.

(** [operator<=>] is defaulted: the lexicographic comparison of the two
    byte arrays, element by element. *)
Definition ulid_compare (a b : ulid_t) : comparison :=
  lex_compare Z.compare (data a) (data b).

Definition ulid_lt (a b : ulid_t) : Prop := ulid_compare a b = Lt.

(** ** Strings *)

Definition char_code (c : ascii) : Z := Z.of_nat (nat_of_ascii c).

(** Characters compare as [unsigned char]. *)
Definition char_compare (x y : ascii) : comparison :=
  char_code x ?= char_code y.

(** [std::string::operator<]. *)
Definition str_compare (a b : str) : comparison :=
  lex_compare char_compare a b.

Definition str_lt (a b : str) : Prop := str_compare a b = Lt.

(** ** Crockford Base32 *)

Definition ENCODING : list ascii :=
  [ "0"; "1"; "2"; "3"; "4"; "5"; "6"; "7"; "8"; "9";
    "A"; "B"; "C"; "D"; "E"; "F"; "G"; "H"; "J"; "K";
    "M"; "N"; "P"; "Q"; "R"; "S"; "T"; "V"; "W"; "X";
    "Y"; "Z" ]%char.

Definition encoding_char (digit : Z) : ascii :=
  nth (Z.to_nat digit) ENCODING "0"%char.

(** [extract_digit(hi, lo, index)]. *)
Definition extract_digit (hi lo : Z) (index : Z) : Z :=
  let shift := 125 - 5 * index in
  if shift =? 0 then Z.land lo 31
  else if shift <? 64 then
    let part := Z.lor (shl64 hi (64 - shift)) (shr64 lo shift) in
    Z.land part 31
  else Z.land (shr64 hi (shift - 64)) 31.

(** The two accumulation loops of [encode_base32]. *)
Definition load_be (bytes : list byte) (from count : nat) : Z :=
  fold_left (fun acc i => Z.lor (shl64 acc 8) (nth i bytes 0)) (seq from count) 0.

Definition encode_base32 (bytes : list byte) : str :=
  let hi := load_be bytes 0 8 in
  let lo := load_be bytes 8 8 in
  map (fun i => encoding_char (extract_digit hi lo (Z.of_nat i))) (seq 0 26).

Definition to_string (u : ulid_t) : str := encode_base32 (data u).

(** [decode_crockford]: the [switch] over the accepted characters;
    [u{v}] is a present [std::uint8_t]. *)
Definition decode_crockford (c : ascii) : option Z :=
  let u := fun v : Z => Some v in
  match c with
  | "0" | "O" | "o" => u 0
  | "1" | "I" | "i" | "L" | "l" => u 1
  | "2" => u 2
  | "3" => u 3
  | "4" => u 4
  | "5" => u 5
  | "6" => u 6
  | "7" => u 7
  | "8" => u 8
  | "9" => u 9
  | "A" | "a" => u 10
  | "B" | "b" => u 11
  | "C" | "c" => u 12
  | "D" | "d" => u 13
  | "E" | "e" => u 14
  | "F" | "f" => u 15
  | "G" | "g" => u 16
  | "H" | "h" => u 17
  | "J" | "j" => u 18
  | "K" | "k" => u 19
  | "M" | "m" => u 20
  | "N" | "n" => u 21
  | "P" | "p" => u 22
  | "Q" | "q" => u 23
  | "R" | "r" => u 24
  | "S" | "s" => u 25
  | "T" | "t" => u 26
  | "V" | "v" => u 27
  | "W" | "w" => u 28
  | "X" | "x" => u 29
  | "Y" | "y" => u 30
  | "Z" | "z" => u 31
  | _ => None
  end%char.

(** The 192-bit accumulator [std::array<std::uint64_t, 3> acc], [acc0]
    being the least significant word. *)
Record acc_t : Type := mk_acc { acc0 : Z; acc1 : Z; acc2 : Z }.

(** The inner loop of [from_string]: shift the three words left by five
    bits, the carry of each word entering the next. *)
Definition acc_push (acc : acc_t) (v : Z) : acc_t :=
  let carry := v in
  let new_carry0 := shr64 (acc0 acc) (64 - 5) in
  let a0 := Z.lor (shl64 (acc0 acc) 5) carry in
  let new_carry1 := shr64 (acc1 acc) (64 - 5) in
  let a1 := Z.lor (shl64 (acc1 acc) 5) new_carry0 in
  let a2 := Z.lor (shl64 (acc2 acc) 5) new_carry1 in
  mk_acc a0 a1 a2.

(** The outer loop of [from_string]: it stops at the first character that
    [decode_crockford] refuses. *)
Fixpoint accumulate (s : str) (acc : acc_t) : option acc_t :=
  match s with
  | [] => Some acc
  | ch :: rest =>
      match decode_crockford ch with
      | None => None
      | Some v => accumulate rest (acc_push acc v)
      end
  end.

Definition from_string (s : str) : option ulid_t :=
  if negb (length s =? 26)%nat then None
  else
    match accumulate s (mk_acc 0 0 0) with
    | None => None
    | Some acc =>
        if negb (Z.land (acc2 acc) 3 =? 0) then None
        else
          let ulid := ulid_zero in
          let ulid := set_high_bytes ulid (write_big_endian 8 (acc1 acc)) in
          let ulid := set_low_bytes ulid (write_big_endian 8 (acc0 acc)) in
          Some ulid
    end.

(** ** The random source ([random.hpp], [romuduojr.hpp]) *)

(** The engine concept that [rnd::Random<E>] wraps: construction from a
    seed and [next()], which returns 64 bits and advances the engine. *)
Class RandomBitEngine (E : Type) : Type := {
  engine_seed : Z -> E;
  engine_next : E -> Z * E
}.

(** [Random::bits<N, T>()] for [N < BITS = 64]: the top [N] bits of
    [next()]; [bits_as<byte>()] is [bits<8, byte>()]. *)
Definition bits_as_byte {E} `{RandomBitEngine E} (e : E) : byte * E :=
  let (x, e') := engine_next e in
  let mask := Z.shiftl 1 8 - 1 in
  (Z.land (shr64 x (64 - 8)) mask, e').

(** [class RomuDuoJr]. *)
Record RomuDuoJr : Type := mk_romu { romu_x : Z; romu_y : Z }.

Definition mul64 (a b : Z) : Z := (a * b) mod two64.
Definition sub64 (a b : Z) : Z := (a - b) mod two64.
Definition rotl (x r : Z) : Z := Z.lor (shl64 x r) (shr64 x (64 - r)).
Definition mix (y : Z) : Z := Z.lxor (Z.lxor y (shr64 y 23)) (shr64 y 51).

Definition romu_seed (seed : Z) : RomuDuoJr :=
  let x := 0x9E6C63D0676A9A99 in
  let y := sub64 (if seed =? 0 then 1 else 0) seed in
  let y := mul64 y x in
  let y := mix y in
  let y := mul64 y x in
  let x := mul64 x (rotl y 27) in
  let y := mix y in
  mk_romu x y.

Definition romu_next (e : RomuDuoJr) : Z * RomuDuoJr :=
  let old_x := romu_x e in
  let x := mul64 (romu_y e) 0xD3833E804F4C574B in
  let y := rotl (sub64 (romu_y e) old_x) 27 in
  (old_x, mk_romu x y).

#[export] Instance RomuDuoJr_engine : RandomBitEngine RomuDuoJr :=
  {| engine_seed := romu_seed; engine_next := romu_next |}.

(** A degenerate engine for the worst case of a draw: every output word
    has all its 64 bits set. *)
Inductive AllOnes : Type := all_ones.

#[export] Instance AllOnes_engine : RandomBitEngine AllOnes :=
  {| engine_seed := fun _ => all_ones;
     engine_next := fun e => (two64 - 1, e) |}.

(** ** Generation *)

(** [increment_big_endian]: walk the span from its last byte to its first;
    a byte other than 0xFF is incremented and the walk stops, a byte 0xFF
    becomes 0 and the walk goes on. [inc_from_back] takes the bytes in the
    order of the walk. *)
Fixpoint inc_from_back (r : list byte) : list byte :=
  match r with
  | [] => []
  | b :: rest => if negb (b =? 255) then (b + 1) :: rest else 0 :: inc_from_back rest
  end.

Definition increment_big_endian (rand : list byte) : list byte :=
  rev (inc_from_back (rev rand)).

Section Generation.
Context {E : Type} `{RandomBitEngine E}.

(** The address of the [thread_local] variable [dummy], as an integer. *)
Variable salt : Z.

Definition salted_seed (timestamp : Z) : Z := Z.lxor timestamp salt.

(** [static thread_local auto rng = PRNG{salted_seed(ts)}]: built at the
    first call in the thread, kept afterwards. *)
Definition the_rng (rng : option E) (ts : Z) : E :=
  match rng with
  | Some g => g
  | None => engine_seed (salted_seed ts)
  end.

(** [for(auto& b : random_bytes()) b = rng.bits_as<byte>()]. *)
Fixpoint fill_random (n : nat) (g : E) : list byte * E :=
  match n with
  | O => ([], g)
  | S n' =>
      let (b, g1) := bits_as_byte g in
      let (bs, g2) := fill_random n' g1 in
      (b :: bs, g2)
  end.

(** [generate]: the only state kept between calls is the engine. *)
Definition generate (rng : option E) (ts : Z) : ulid_t * option E :=
  let g := the_rng rng ts in
  let ulid := ulid_zero in
  let ulid := set_timestamp_bytes ulid (write_big_endian 6 ts) in
  let (bs, g') := fill_random 10 g in
  (set_random_bytes ulid bs, Some g').

(** The [static thread_local] variables of [generate_monotonic]. *)
Record mono_state : Type := mk_mono {
  rng : option E;
  last : ulid_t;
  last_ts : Z;
  have_last : bool
}.

Definition mono_init : mono_state := mk_mono None ulid_zero 0 false.

Definition generate_monotonic (st : mono_state) (ts : Z)
  : ulid_t * mono_state :=
  let g := the_rng (rng st) ts in
  if negb (have_last st) || (ts >? last_ts st) then
    let l := set_timestamp_bytes (last st) (write_big_endian 6 ts) in
    let (bs, g') := fill_random 10 g in
    let l := set_random_bytes l bs in
    (l, mk_mono (Some g') l ts true)
  else
    let l := set_random_bytes (last st)
               (increment_big_endian (random_bytes (last st))) in
    (l, mk_mono (Some g) l (last_ts st) (have_last st)).

(** Consecutive calls, one clock reading per call. *)
Fixpoint run_monotonic (st : mono_state) (clock : list Z)
  : list ulid_t * mono_state :=
  match clock with
  | [] => ([], st)
  | ts :: rest =>
      let (u, st1) := generate_monotonic st ts in
      let (us, st2) := run_monotonic st1 rest in
      (u :: us, st2)
  end.
End Generation.

(** A sequence of values is strictly increasing when each one is smaller
    than its successor under [operator<]. *)
Fixpoint strictly_increasing (us : list ulid_t) : Prop :=
  match us with
  | [] => True
  | u :: rest =>
      match rest with
      | [] => True
      | v :: _ => ulid_lt u v /\ strictly_increasing rest
      end
  end.

(** ** The calendar of [std::chrono]

    [std::chrono] is the C++ standard library, not part of this repository.
    What [to_readable_string] and [from_readable_string] use of it is
    modelled here from the C++ standard: [sys_days] counts days from
    1970-01-01 in the proleptic Gregorian calendar, and the conversions
    between a day count and a [year_month_day] are computed by the usual
    400-year era algorithm. *)

Definition is_leap (y : Z) : bool :=
  (y mod 4 =? 0) && (negb (y mod 100 =? 0) || (y mod 400 =? 0)).

Definition last_day_of_month (y m : Z) : Z :=
  if m =? 2 then (if is_leap y then 29 else 28)
  else if (m =? 4) || (m =? 6) || (m =? 9) || (m =? 11) then 30
  else 31.

(** [year_month_day::ok()]. *)
Definition ymd_ok (y m d : Z) : bool :=
  (-32767 <=? y) && (y <=? 32767) && (1 <=? m) && (m <=? 12)
  && (1 <=? d) && (d <=? last_day_of_month y m).

(** The part of the algorithm that lives inside one era of 146097 days. *)
Definition doe_of (yoe m d : Z) : Z :=
  let doy := (153 * (if 2 <? m then m - 3 else m + 9) + 2) / 5 + d - 1 in
  yoe * 365 + yoe / 4 - yoe / 100 + doy.

(** [sys_days{year_month_day}]. *)
Definition days_from_civil (y m d : Z) : Z :=
  let y := if m <=? 2 then y - 1 else y in
  let era := y / 400 in
  let yoe := y - era * 400 in
  era * 146097 + doe_of yoe m d - 719468.

(** The day of an era taken apart: year of the era, month, day. *)
Definition civil_of_doe (doe : Z) : Z * Z * Z :=
  let yoe := (doe - doe / 1460 + doe / 36524 - doe / 146096) / 365 in
  let doy := doe - (365 * yoe + yoe / 4 - yoe / 100) in
  let mp := (5 * doy + 2) / 153 in
  let d := doy - (153 * mp + 2) / 5 + 1 in
  let m := if mp <? 10 then mp + 3 else mp - 9 in
  (yoe, m, d).

(** [year_month_day{sys_days}]. *)
Definition civil_from_days (z : Z) : Z * Z * Z :=
  let z := z + 719468 in
  let era := z / 146097 in
  let doe := z - era * 146097 in
  let '(yoe, m, d) := civil_of_doe doe in
  let y := yoe + era * 400 in
  (if m <=? 2 then y + 1 else y, m, d).

(** ** Formatting and parsing numbers *)

Definition digit_char (d : Z) : ascii := ascii_of_nat (48 + Z.to_nat d).

(** The decimal digits of a non-negative number, most significant first
    (a 64-bit number has at most twenty). *)
Fixpoint decimal_loop (fuel : nat) (n : Z) (acc : str) : str :=
  match fuel with
  | O => acc
  | S f =>
      let acc' := digit_char (n mod 10) :: acc in
      if n <? 10 then acc' else decimal_loop f (n / 10) acc'
  end.

Definition to_decimal (n : Z) : str := decimal_loop 20 n [].

(** Zero padding on the left up to a minimal width, as [{:03}], [%m], [%d],
    [%H], [%M] and [%S] do. *)
Definition pad_zero (w : nat) (s : str) : str :=
  repeat "0"%char (w - length s) ++ s.

Definition fmt2 (n : Z) : str := pad_zero 2 (to_decimal n).
Definition fmt3 (n : Z) : str := pad_zero 3 (to_decimal n).

(** [%Y]: the year in decimal, padded with zeros to four digits when it
    has fewer; a year above 9999 takes as many digits as it needs. *)
Definition fmt_year (y : Z) : str :=
  if y <? 0 then "-"%char :: pad_zero 4 (to_decimal (- y))
  else pad_zero 4 (to_decimal y).

Definition digit_value (c : ascii) : option Z :=
  let n := char_code c in
  if (48 <=? n) && (n <=? 57) then Some (n - 48) else None.

(** The digits at the front of a string. *)
Fixpoint leading_digits (s : str) : list Z :=
  match s with
  | [] => []
  | c :: rest =>
      match digit_value c with
      | Some d => d :: leading_digits rest
      | None => []
      end
  end.

Inductive errc : Type := errc_ok | invalid_argument | result_out_of_range.

Record from_chars_result : Type := mk_fcr {
  fcr_ptr : nat;      (* characters consumed *)
  fcr_ec : errc;
  fcr_value : Z
}.

(** [std::from_chars] into an [unsigned], base ten: it reads the longest
    run of digits; no sign and no white space is accepted. *)
Definition from_chars (s : str) : from_chars_result :=
  let ds := leading_digits s in
  match ds with
  | [] => mk_fcr 0 invalid_argument 0
  | _ =>
      let v := fold_left (fun a d => a * 10 + d) ds 0 in
      if v >? 4294967295 then mk_fcr (length ds) result_out_of_range 0
      else mk_fcr (length ds) errc_ok v
  end.

(** The lambda [parse_u32] of [from_readable_string]. *)
Definition parse_u32 (s : str) (pos len : nat) : option Z :=
  let rc := from_chars (firstn len (skipn pos s)) in
  match fcr_ec rc with
  | errc_ok => if (fcr_ptr rc =? len)%nat then Some (fcr_value rc) else None
  | _ => None
  end.

(** ** The readable form *)

Definition char_eqb (a b : ascii) : bool := Ascii.eqb a b.

Definition to_readable_string (u : ulid_t) : str :=
  let ms := timestamp_ms u in
  let secs := ms / 1000 in                     (* floor<seconds>(tp) *)
  let days := secs / 86400 in
  let sod := secs mod 86400 in
  let '(y, m, d) := civil_from_days days in
  let out :=
    fmt_year y ++ fmt2 m ++ fmt2 d ++ lit "T"
    ++ fmt2 (sod / 3600) ++ fmt2 (sod mod 3600 / 60) ++ fmt2 (sod mod 60)
    ++ fmt3 (Z.rem ms 1000) ++ lit "Z" in
  let full := to_string u in
  out ++ skipn 10 full.

Definition from_readable_string (s : str) : option ulid_t :=
  if negb (length s =? 35)%nat
     || negb (char_eqb (nth 8 s "000"%char) "T")
     || negb (char_eqb (nth 18 s "000"%char) "Z")
  then None
  else
    match parse_u32 s 0 4, parse_u32 s 4 2, parse_u32 s 6 2,
          parse_u32 s 9 2, parse_u32 s 11 2, parse_u32 s 13 2,
          parse_u32 s 15 3 with
    | Some year_num, Some month_num, Some day_num,
      Some hour_num, Some minute_num, Some second_num, Some millis_num =>
        if (month_num =? 0) || (month_num >? 12) || (day_num =? 0)
           || (day_num >? 31) || (hour_num >? 23) || (minute_num >? 59)
           || (second_num >? 59) || (millis_num >? 999)
        then None
        else if negb (ymd_ok year_num month_num day_num) then None
        else
          let day_tp := days_from_civil year_num month_num day_num in
          let dur := day_tp * 86400000 + hour_num * 3600000
                     + minute_num * 60000 + second_num * 1000 + millis_num in
          if dur <? 0 then None
          else
            let timestamp_ms := dur in
            let tmp := set_timestamp_bytes ulid_zero
                         (write_big_endian 6 timestamp_ms) in
            let canonical := to_string tmp in
            let canonical := firstn 10 canonical
                             ++ firstn 16 (skipn 19 s)
                             ++ skipn (10 + 16) canonical in
            from_string canonical
    | _, _, _, _, _, _, _ => None
    end.

(** ** Positional notation *)

Section Radix.
Variable B : Z.

(** The value of a digit sequence, most significant digit first,
    continuing from [a]. *)
Definition horner (ds : list Z) (a : Z) : Z :=
  fold_left (fun v d => v * B + d) ds a.

(** The [k] least significant digits of [n], most significant first. *)
Fixpoint digits (k : nat) (n : Z) : list Z :=
  match k with
  | O => []
  | S k' => digits k' (n / B) ++ [n mod B]
  end.

Definition digitb (d : Z) : bool := (0 <=? d) && (d <? B).
End Radix.

(** The 128-bit number that sixteen bytes stand for, big-endian. *)
Definition value128 (u : ulid_t) : Z := horner 256 (data u) 0.

(** The 192-bit number held by the accumulator of [from_string]. *)
Definition acc_val (acc : acc_t) : Z :=
  acc0 acc + two64 * acc1 acc + two64 * two64 * acc2 acc.

Definition acc_ok (acc : acc_t) : Prop :=
  is_u64 (acc0 acc) /\ is_u64 (acc1 acc) /\ is_u64 (acc2 acc).

(** ** The words of the specification *)

(** The values of all the characters of a string, when every character is
    accepted. *)
Fixpoint decode_all (s : str) : option (list Z) :=
  match s with
  | [] => Some []
  | c :: rest =>
      match decode_crockford c, decode_all rest with
      | Some v, Some vs => Some (v :: vs)
      | _, _ => None
      end
  end.

(** The Crockford symbol set: [0-9], [A-H], [J], [K], [M], [N], [P-T],
    [V-Z]. *)
Definition crockford_symbols : str := lit "0123456789ABCDEFGHJKMNPQRSTVWXYZ".

Definition is_lower (c : ascii) : bool :=
  (97 <=? char_code c) && (char_code c <=? 122).

Definition to_upper (c : ascii) : ascii :=
  if is_lower c then ascii_of_nat (nat_of_ascii c - 32) else c.

Definition mem_char (c : ascii) (s : str) : bool := existsb (char_eqb c) s.

(** The accepted characters: the symbol set, taken case-insensitively,
    and the aliases [O o] (for 0) and [I i L l] (for 1). *)
Definition accepted (c : ascii) : bool :=
  mem_char (to_upper c) crockford_symbols || mem_char c (lit "OoIiLl").

(** The canonical form of a character: lower case letters become upper
    case, [O o] become [0], [I i L l] become [1]. *)
Definition canonical_char (c : ascii) : ascii :=
  if mem_char c (lit "Oo") then "0"%char
  else if mem_char c (lit "IiLl") then "1"%char
  else to_upper c.

(** The 80-bit counter held by the randomness field. *)
Definition random_value (u : ulid_t) : Z := horner 256 (random_bytes u) 0.

(** The date and time fields of a timestamp, for statements about the
    readable form. *)
Definition year_of_ms (ms : Z) : Z :=
  let '(y, _, _) := civil_from_days (ms / 1000 / 86400) in y.

(** The value of a byte sequence read from its last byte to its first
    (the order in which [increment_big_endian] walks it). *)
Fixpoint le_value (r : list Z) : Z :=
  match r with
  | [] => 0
  | b :: rest => b + 256 * le_value rest
  end.

(** The generator is primed once it holds a previous value. *)
Definition primedb {E : Type} (st : mono_state (E := E)) : bool :=
  have_last st
  && match rng st with Some _ => true | None => false end
  && ulid_okb (last st).

Definition primed {E : Type} (st : mono_state (E := E)) : Prop :=
  primedb st = true.

(** ** Checks over a range of integers *)

(** [check_from n z p]: [p] holds of the [n] integers from [z] on. *)
Fixpoint check_from (n : nat) (z : Z) (p : Z -> bool) : bool :=
  match n with
  | O => true
  | S k => p z && check_from k (z + 1) p
  end.

Fixpoint str_eqb (a b : str) : bool :=
  match a, b with
  | [], [] => true
  | x :: a', y :: b' => char_eqb x y && str_eqb a' b'
  | _, _ => false
  end.

(** A date packed into one number that orders as dates do (a month is
    below 16 and a day below 32). *)
Definition date_key (y m d : Z) : Z := (y * 16 + m) * 32 + d.

(** One day of an era, taken apart and put together again: the year of
    the era, the month and the day are in range, the day exists in that
    month, and the three give the day of the era back. *)
Definition era_ok (doe yoe m d : Z) : bool :=
  let y := if m <=? 2 then yoe + 1 else yoe in
  (0 <=? yoe) && (yoe <=? 399) && (1 <=? m) && (m <=? 12)
  && (1 <=? d) && (d <=? last_day_of_month y m)
  && (doe_of yoe m d =? doe).

Definition era_check (doe : Z) : bool :=
  let '(yoe, m, d) := civil_of_doe doe in era_ok doe yoe m d.

(** The date of a day of the first era, packed. *)
Definition era_key (doe : Z) : Z :=
  let '(yoe, m, d) := civil_of_doe doe in
  date_key (if m <=? 2 then yoe + 1 else yoe) m d.

(** [era_scan n doe prev]: the [n] days from [doe] on pass [era_ok], and
    their packed dates increase, starting above [prev]. *)
Fixpoint era_scan (n : nat) (doe prev : Z) : bool :=
  match n with
  | O => true
  | S k =>
      let '(yoe, m, d) := civil_of_doe doe in
      let key := date_key (if m <=? 2 then yoe + 1 else yoe) m d in
      era_ok doe yoe m d && (prev <? key) && era_scan k (doe + 1) key
  end.

(** The date of a day count, packed. *)
Definition day_key (z : Z) : Z :=
  let '(y, m, d) := civil_from_days z in date_key y m d.

(** A number of [w] digits, as the formatting directives print it. *)
Definition fixed_width (w : nat) (n : Z) : str :=
  map digit_char (digits 10 w n).

Definition fmt_check (w : nat) (n : Z) : bool :=
  str_eqb (pad_zero w (to_decimal n)) (fixed_width w n).

Definition fmt_year_check (y : Z) : bool :=
  if y <? 10000 then str_eqb (fmt_year y) (fixed_width 4 y)
  else str_eqb (fmt_year y) (fixed_width 5 y).

(** The number written in [len] characters of [s] from position [pos]. *)
Definition number_at (s : str) (pos len : nat) : Z :=
  horner 10 (map (fun c => char_code c - 48) (firstn len (skipn pos s))) 0.

Definition is_digit (c : ascii) : bool :=
  match digit_value c with Some _ => true | None => false end.

(** The positions of the date and time digits in the readable form. *)
Definition field_positions : list nat :=
  seq 0 8 ++ seq 9 9.

(** The date and time of the readable form with every field at its full
    width: [YYYYMMDDThhmmssmmmZ]. *)
Definition datetime_fixed (y m d sod msr : Z) : str :=
  fixed_width 4 y ++ fixed_width 2 m ++ fixed_width 2 d ++ lit "T"
  ++ fixed_width 2 (sod / 3600) ++ fixed_width 2 (sod mod 3600 / 60)
  ++ fixed_width 2 (sod mod 60) ++ fixed_width 3 msr ++ lit "Z".

(** The value that [from_readable_string] builds before splicing:
    the timestamp and no randomness. *)
Definition timestamp_only (ms : Z) : ulid_t :=
  set_timestamp_bytes ulid_zero (write_big_endian 6 ms).

(** The conditions under which a readable text is refused, as the
    specification lists them. *)
Definition readable_rejected (s : str) : Prop :=
  let year := number_at s 0 4 in
  let month := number_at s 4 2 in
  let day := number_at s 6 2 in
  let hour := number_at s 9 2 in
  let minute := number_at s 11 2 in
  let second := number_at s 13 2 in
  let millis := number_at s 15 3 in
  length s <> 35%nat
  \/ nth 8 s "000"%char <> "T"%char
  \/ nth 18 s "000"%char <> "Z"%char
  \/ (exists i, In i field_positions /\ is_digit (nth i s "000"%char) = false)
  \/ month < 1 \/ month > 12
  \/ day < 1 \/ day > last_day_of_month year month
  \/ hour > 23 \/ minute > 59 \/ second > 59 \/ millis > 999
  \/ days_from_civil year month day * 86400000 + hour * 3600000
     + minute * 60000 + second * 1000 + millis < 0.

(** Two neighbouring timestamps: the last millisecond of the year 9999
    and the first millisecond of the year 10000. *)
Definition last_ms_of_9999 : Z := 253402300799999.
Definition first_ms_of_10000 : Z := 253402300800000.

(** The stored timestamp is the timestamp of the stored value. *)
Definition stamped {E : Type} (st : mono_state (E := E)) : Prop :=
  timestamp_ms (last st) = last_ts st.

(** A run in which no call increments a counter that is already full. *)
Fixpoint no_wrap {E : Type} `{RandomBitEngine E} (salt : Z)
    (st : mono_state (E := E)) (clock : list Z) : Prop :=
  match clock with
  | [] => True
  | ts :: rest =>
      (have_last st = true -> ts <= last_ts st ->
       random_value (last st) < 2 ^ 80 - 1)
      /\ no_wrap salt (snd (generate_monotonic salt st ts)) rest
  end.

(** ** Definitions for the further properties *)

(** The example of the ULID specification, [01ARZ3NDEKTSV4RRFFQ69G5FAV]. *)
Definition spec_example : ulid_t :=
  mk_ulid [1; 86; 62; 58; 181; 211; 214; 118; 76; 97; 239; 185; 147; 2; 189; 91].

(** Its neighbour: the same timestamp and the next randomness. *)
Definition spec_example_next : ulid_t :=
  mk_ulid [1; 86; 62; 58; 181; 211; 214; 118; 76; 97; 239; 185; 147; 2; 189; 92].

(** The largest clock reading of a run, starting from [t0]. *)
Definition latest (t0 : Z) (clock : list Z) : Z := fold_left Z.max clock t0.

(** A date of an era put together and taken apart again: the day of
    the era lies in the era, and [civil_of_doe] gives the date back. *)
Definition date_back (yoe m d : Z) : bool :=
  let doe := doe_of yoe m d in
  let '(yoe', m', d') := civil_of_doe doe in
  (0 <=? doe) && (doe <? 146097) && (yoe' =? yoe) && (m' =? m) && (d' =? d).

(** The dates of one month, of one year of an era. The year of the era
    starts in March, so January and February belong to the year after. *)
Definition month_back (yoe m : Z) : bool :=
  check_from 31 1 (fun d =>
    implb (d <=? last_day_of_month (if m <=? 2 then yoe + 1 else yoe) m)
          (date_back yoe m d)).

Definition year_back (yoe : Z) : bool := check_from 12 1 (month_back yoe).

(** The millisecond count that the seven numeric fields of a readable
    text stand for. *)
Definition readable_time (s : str) : Z :=
  days_from_civil (number_at s 0 4) (number_at s 4 2) (number_at s 6 2) * 86400000
  + number_at s 9 2 * 3600000 + number_at s 11 2 * 60000
  + number_at s 13 2 * 1000 + number_at s 15 3.

(** The conditions on the nineteen characters of date and time: 35
    characters in all, [T] and [Z] in their places, digits in the seven
    numeric fields, a date that exists and a time of the day. *)
Definition readable_fields (s : str) : Prop :=
  length s = 35%nat
  /\ nth 8 s "000"%char = "T"%char /\ nth 18 s "000"%char = "Z"%char
  /\ (forall i, In i field_positions -> is_digit (nth i s "000"%char) = true)
  /\ 1 <= number_at s 4 2 <= 12
  /\ 1 <= number_at s 6 2 <= last_day_of_month (number_at s 0 4) (number_at s 4 2)
  /\ number_at s 9 2 <= 23 /\ number_at s 11 2 <= 59 /\ number_at s 13 2 <= 59.

(** A readable text that [from_readable_string] reads: its date and
    time are well formed, the year is 1970 or later, and the sixteen
    characters after the [Z] are accepted characters. *)
Definition readable_well_formed (s : str) : Prop :=
  readable_fields s
  /\ 1970 <= number_at s 0 4
  /\ Forall (fun c => accepted c = true) (skipn 19 s).

(** ** More of [class RomuDuoJr] *)

(** The two state words are [std::uint64_t]. *)
Definition romu_ok (e : RomuDuoJr) : Prop :=
  is_u64 (romu_x e) /\ is_u64 (romu_y e).

(** [from_state]: the state is taken as given, without seeding. *)
Definition romu_from_state (xstate ystate : Z) : RomuDuoJr := mk_romu xstate ystate.

(** [discard(n)]: [while(n--) next();]. *)
Fixpoint romu_discard (n : nat) (e : RomuDuoJr) : RomuDuoJr :=
  match n with
  | O => e
  | S k => romu_discard k (snd (romu_next e))
  end.

(** [split()]: a new engine seeded with [next()]. *)
Definition romu_split (e : RomuDuoJr) : RomuDuoJr * RomuDuoJr :=
  let (v, e') := romu_next e in (romu_seed v, e').

(** The first [n] romu_outputs of an engine. *)
Fixpoint romu_outputs (n : nat) (e : RomuDuoJr) : list Z :=
  match n with
  | O => []
  | S k => let (v, e') := romu_next e in v :: romu_outputs k e'
  end.

(** ** More of [rnd::Random<E>]

    The wrapper is modelled for an engine whose [result_type] is
    [std::uint64_t], as [RomuDuoJr]'s is: [BITS] is 64. *)

Definition BITS : Z := 64.

(** [mul_shift_high64<BITS>]: the 128-bit product, shifted right by
    [BITS] and cut to 64 bits. *)
Definition mul_shift_high64 (x bound : Z) : Z :=
  Z.shiftr ((x * bound) mod 2 ^ 128) BITS mod two64.

Section RandomValues.
Context {E : Type} `{RandomBitEngine E}.

(** [next(bound)], the branch for [32 < BITS <= 64]. *)
Definition next_bound (bound : Z) (e : E) : Z * E :=
  let (raw_value, e') := engine_next e in
  (mul_shift_high64 raw_value bound, e').

(** [between<I>(lo, hi)] for the unsigned 64-bit [I]: an empty or
    inverted range returns [lo] and leaves the engine alone. *)
Definition between (lo hi : Z) (e : E) : Z * E :=
  if negb (lo <? hi) then (lo, e)
  else
    let bound := sub64 hi lo in
    let (r, e') := next_bound bound e in
    ((lo + r) mod two64, e').

(** [bits<N, T>()] with [T = std::uint64_t]. *)
Definition bits (N : Z) (e : E) : Z * E :=
  let (x, e') := engine_next e in
  if N =? BITS then (x, e')
  else
    let mask := sub64 (shl64 1 N) 1 in
    (Z.land (shr64 x (BITS - N)) mask, e').

(** [rgb8()] and [rgba8()]: the cast to [std::uint32_t] keeps the low
    32 bits. *)
Definition rgb8 (e : E) : Z * E :=
  let (v, e') := bits 24 e in (v mod 2 ^ 32, e').

Definition rgba8 (e : E) : Z * E :=
  let (v, e') := bits 32 e in (v mod 2 ^ 32, e').

(** [index(collection)], with [std::size_t] of 64 bits. *)
Definition index {A : Type} (collection : list A) (e : E) : Z * E :=
  between 0 (Z.of_nat (length collection)) e.


(** The loop of [bits(unsigned n)]: [while(filled < n)]. Each turn
    fills at least one bit, so [n] turns are enough. *)
Fixpoint bits_fill (fuel : nat) (n filled value : Z) (e : E) : Z * E :=
  match fuel with
  | O => (value, e)
  | S k =>
      if filled <? n then
        let (r, e') := engine_next e in
        let avail := Z.min BITS (n - filled) in
        let value :=
          Z.lor value (shl64 (Z.land r (sub64 (shl64 1 avail) 1)) filled) in
        bits_fill k n (filled + avail) value e'
      else (value, e)
  end.

(** [bits(unsigned n)]. *)
Definition bits_n (n : Z) (e : E) : Z * E :=
  if n =? 8 then bits 8 e
  else if n =? 16 then bits 16 e
  else if n =? 24 then bits 24 e
  else if n =? 32 then bits 32 e
  else if n =? 64 then bits 64 e
  else bits_fill (Z.to_nat n) n 0 0 e.
End RandomValues.

(** * Properties *)

Example spec_fixture :
  option_map to_string (from_string (lit "01ARZ3NDEKTSV4RRFFQ69G5FAV"))
  = Some (lit "01ARZ3NDEKTSV4RRFFQ69G5FAV").
Proof. vm_compute. reflexivity. Qed.

Example lower_fixture :
  option_map to_string (from_string (lit "o1arz3ndeKtSv4rrffq69g5fav"))
  = Some (lit "01ARZ3NDEKTSV4RRFFQ69G5FAV").
Proof. vm_compute. reflexivity. Qed.

Example monotonic_fixture :
  str_lt (lit "01BX5ZZKBKACTAV9WEVGEMMVRZ") (lit "01BX5ZZKBKACTAV9WEVGEMMVS0")
  /\ match from_string (lit "01BX5ZZKBKACTAV9WEVGEMMVRZ"),
            from_string (lit "01BX5ZZKBKACTAV9WEVGEMMVS0") with
     | Some u1, Some u2 => ulid_lt u1 u2
     | _, _ => False
     end.
Proof. split; vm_compute; reflexivity. Qed.

Example non_canonical_fixture :
  from_string (lit "80000000000000000000000000") = None.
Proof. vm_compute. reflexivity. Qed.

(** ** Lists *)

Lemma map_nth_seq {A : Type} (d : A) (l : list A) (from count : nat) :
  (from + count <= length l)%nat ->
  map (fun i => nth i l d) (seq from count) = firstn count (skipn from l).
Proof.
  revert l from. induction count as [|c IH]; intros l from Hlen.
  - reflexivity.
  - cbn [seq map]. rewrite (IH l (S from)) by lia.
    clear IH. revert l Hlen. induction from as [|f IHf]; intros l Hlen.
    + destruct l as [|x l]; [cbn in Hlen; lia|]. reflexivity.
    + destruct l as [|x l]; [cbn in Hlen; lia|].
      cbn [nth skipn]. cbn in Hlen. apply IHf. lia.
Qed.

Lemma fold_left_map_seq {A S : Type} (f : S -> A -> S) (g : nat -> A)
    (l : list nat) (a : S) :
  fold_left (fun acc i => f acc (g i)) l a = fold_left f (map g l) a.
Proof.
  revert a. induction l as [|i l IH]; intro a; cbn; [reflexivity|apply IH].
Qed.

Lemma Forall_firstn {A : Type} (P : A -> Prop) (n : nat) (l : list A) :
  Forall P l -> Forall P (firstn n l).
Proof.
  intro H. rewrite <- (firstn_skipn n l) in H.
  apply Forall_app in H. apply H.
Qed.

Lemma Forall_skipn {A : Type} (P : A -> Prop) (n : nat) (l : list A) :
  Forall P l -> Forall P (skipn n l).
Proof.
  intro H. rewrite <- (firstn_skipn n l) in H.
  apply Forall_app in H. apply H.
Qed.

Lemma forallb_Forall {A : Type} (p : A -> bool) (l : list A) :
  forallb p l = true <-> Forall (fun x => p x = true) l.
Proof.
  rewrite forallb_forall, Forall_forall. reflexivity.
Qed.

Lemma byteb_iff (b : Z) : byteb b = true <-> is_byte b.
Proof. unfold byteb, is_byte. lia. Qed.

Lemma ulid_ok_iff (u : ulid_t) :
  ulid_ok u <-> length (data u) = 16%nat /\ Forall is_byte (data u).
Proof.
  unfold ulid_ok, ulid_okb. rewrite andb_true_iff, Nat.eqb_eq, forallb_Forall.
  split; intros [H1 H2]; split; trivial;
    eapply Forall_impl; try exact H2; intros b; apply byteb_iff.
Qed.

(** ** Positional notation: facts *)

Section RadixFacts.
Variable B : Z.
Hypothesis HB : 1 < B.

Let digit (d : Z) : Prop := 0 <= d < B.

Lemma digitb_iff (d : Z) : digitb B d = true <-> 0 <= d < B.
Proof. unfold digitb. lia. Qed.

Lemma horner_app (xs ys : list Z) (a : Z) :
  horner B (xs ++ ys) a = horner B ys (horner B xs a).
Proof. apply fold_left_app. Qed.

Lemma horner_shift (ds : list Z) (a : Z) :
  horner B ds a = a * B ^ Z.of_nat (length ds) + horner B ds 0.
Proof.
  revert a. induction ds as [|d ds IH]; intro a.
  - cbn. lia.
  - cbn [horner fold_left length]. fold (horner B ds (a * B + d)).
    fold (horner B ds (0 * B + d)).
    rewrite (IH (a * B + d)), (IH (0 * B + d)).
    rewrite Nat2Z.inj_succ, Z.pow_succ_r by lia. ring.
Qed.

Lemma horner_bounds (ds : list Z) :
  Forall digit ds -> 0 <= horner B ds 0 < B ^ Z.of_nat (length ds).
Proof.
  induction ds as [|d ds IH] using rev_ind; intro Hds.
  - cbn. lia.
  - apply Forall_app in Hds. destruct Hds as [Hds Hd].
    inversion Hd as [|? ? Hd' _]; subst. specialize (IH Hds).
    rewrite horner_app. cbn [horner fold_left]. fold (horner B ds 0).
    rewrite length_app. cbn [length].
    replace (Z.of_nat (length ds + 1)) with (Z.succ (Z.of_nat (length ds))) by lia.
    rewrite Z.pow_succ_r by lia. unfold digit in Hd'. nia.
Qed.

Lemma digits_length (k : nat) (n : Z) : length (digits B k n) = k.
Proof.
  revert n. induction k as [|k IH]; intro n; cbn [digits].
  - reflexivity.
  - rewrite length_app, IH. cbn. lia.
Qed.

Lemma digits_range (k : nat) (n : Z) : Forall digit (digits B k n).
Proof.
  revert n. induction k as [|k IH]; intro n; cbn [digits].
  - constructor.
  - apply Forall_app. split; [apply IH|].
    constructor; [|constructor]. unfold digit. apply Z.mod_pos_bound. lia.
Qed.

Lemma horner_digits (k : nat) (n : Z) :
  horner B (digits B k n) 0 = n mod B ^ Z.of_nat k.
Proof.
  revert n. induction k as [|k IH]; intro n.
  - cbn. rewrite Z.mod_1_r. reflexivity.
  - cbn [digits]. rewrite horner_app, IH. cbn [horner fold_left].
    rewrite Nat2Z.inj_succ, Z.pow_succ_r by lia.
    assert (0 < B ^ Z.of_nat k) by (apply Z.pow_pos_nonneg; lia).
    rewrite Z.rem_mul_r by lia. lia.
Qed.

Lemma digits_horner (ds : list Z) (a : Z) :
  Forall digit ds -> digits B (length ds) (horner B ds a) = ds.
Proof.
  revert a. induction ds as [|d ds IH] using rev_ind; intros a Hds.
  - reflexivity.
  - apply Forall_app in Hds. destruct Hds as [Hds Hd].
    inversion Hd as [|? ? Hd' _]; subst. unfold digit in Hd'.
    rewrite length_app. cbn [length]. rewrite Nat.add_1_r. cbn [digits].
    rewrite horner_app. cbn [horner fold_left]. fold (horner B ds a).
    replace ((horner B ds a * B + d) / B) with (horner B ds a)
      by (rewrite Z.div_add_l, (Z.div_small d) by lia; lia).
    replace ((horner B ds a * B + d) mod B) with d
      by (rewrite Z.add_comm, Z.mod_add, Z.mod_small by lia; lia).
    rewrite IH by assumption. reflexivity.
Qed.

(** The digit at position [i] is a quotient by a power of the base. *)
Lemma digits_by_index (k : nat) (n : Z) :
  map (fun i => (n / B ^ Z.of_nat (k - 1 - i)) mod B) (seq 0 k) = digits B k n.
Proof.
  revert n. induction k as [|k IH]; intro n.
  - reflexivity.
  - rewrite seq_S, map_app. cbn [digits map Nat.add]. f_equal.
    + rewrite <- IH. apply map_ext_in. intros i Hi. apply in_seq in Hi.
      replace (S k - 1 - i)%nat with (S (k - 1 - i)) by lia.
      rewrite Nat2Z.inj_succ, Z.pow_succ_r by lia.
      rewrite Z.div_div by lia. reflexivity.
    + replace (S k - 1 - k)%nat with 0%nat by lia. cbn [Z.of_nat].
      rewrite Z.pow_0_r, Z.div_1_r. reflexivity.
Qed.

(** Sequences of digits of one length compare as their values do. *)
Lemma lex_compare_horner (xs ys : list Z) :
  length xs = length ys -> Forall digit xs -> Forall digit ys ->
  lex_compare Z.compare xs ys = (horner B xs 0 ?= horner B ys 0).
Proof.
  revert ys. induction xs as [|x xs IH]; intros [|y ys] Hlen Hx Hy;
    try discriminate Hlen.
  - reflexivity.
  - inversion Hx as [|? ? Hx0 Hxs]; inversion Hy as [|? ? Hy0 Hys]; subst.
    cbn [lex_compare horner fold_left]. fold (horner B xs (0 * B + x)).
    fold (horner B ys (0 * B + y)).
    rewrite (horner_shift xs), (horner_shift ys).
    injection Hlen as Hlen. rewrite <- Hlen.
    pose proof (horner_bounds Hxs) as Bx.
    pose proof (horner_bounds Hys) as By. rewrite <- Hlen in By.
    unfold digit in Hx0, Hy0.
    set (P := B ^ Z.of_nat (length xs)) in *.
    destruct (Z.compare_spec x y) as [E|L|G].
    + subst y. rewrite IH by assumption.
      destruct (Z.compare_spec (horner B xs 0) (horner B ys 0));
        symmetry; [apply Z.compare_eq_iff|apply Z.compare_lt_iff|apply Z.compare_gt_iff]; lia.
    + symmetry. apply Z.compare_lt_iff. nia.
    + symmetry. apply Z.compare_gt_iff. nia.
Qed.
End RadixFacts.

(** ** Machine words: the bit operations as arithmetic *)

Lemma shl64_mul (a k : Z) : 0 <= k -> shl64 a k = (a * 2 ^ k) mod two64.
Proof. intro Hk. unfold shl64. rewrite Z.shiftl_mul_pow2 by assumption. reflexivity. Qed.

Lemma shr64_div (a k : Z) : 0 <= k -> shr64 a k = a / 2 ^ k.
Proof. intro Hk. unfold shr64. apply Z.shiftr_div_pow2. assumption. Qed.

Lemma land_31 (x : Z) : Z.land x 31 = x mod 32.
Proof. change 31 with (Z.ones 5). rewrite Z.land_ones by lia. reflexivity. Qed.

Lemma land_255 (x : Z) : Z.land x 255 = x mod 256.
Proof. change 255 with (Z.ones 8). rewrite Z.land_ones by lia. reflexivity. Qed.

Lemma land_3 (x : Z) : Z.land x 3 = x mod 4.
Proof. change 3 with (Z.ones 2). rewrite Z.land_ones by lia. reflexivity. Qed.

Lemma land_multiple_small (m c k : Z) :
  0 <= k -> 0 <= c < 2 ^ k -> Z.land (m * 2 ^ k) c = 0.
Proof.
  intros Hk Hc. apply Z.bits_inj'. intros n Hn.
  rewrite Z.land_spec, Z.bits_0.
  destruct (Z.lt_ge_cases n k) as [L|G].
  - rewrite Z.mul_pow2_bits_low by assumption. reflexivity.
  - rewrite <- (Z.mod_small c (2 ^ k)) by assumption.
    rewrite Z.mod_pow2_bits_high by lia. apply andb_false_r.
Qed.

Lemma lor_multiple_small (m c k : Z) :
  0 <= k -> 0 <= c < 2 ^ k -> Z.lor (m * 2 ^ k) c = m * 2 ^ k + c.
Proof.
  intros Hk Hc. rewrite <- Z.add_lor_land.
  rewrite land_multiple_small by assumption. lia.
Qed.

(** [(a << k) | c] when [c] fits in the [k] bits that the shift frees. *)
Lemma lor_shl64 (a c k : Z) :
  0 <= k <= 64 -> 0 <= c < 2 ^ k ->
  Z.lor (shl64 a k) c = (a mod 2 ^ (64 - k)) * 2 ^ k + c.
Proof.
  intros Hk Hc. rewrite shl64_mul by lia. unfold two64.
  replace (2 ^ 64) with (2 ^ (64 - k) * 2 ^ k)
    by (rewrite <- Z.pow_add_r by lia; f_equal; lia).
  assert (0 < 2 ^ k) by (apply Z.pow_pos_nonneg; lia).
  assert (0 < 2 ^ (64 - k)) by (apply Z.pow_pos_nonneg; lia).
  rewrite Z.mul_mod_distr_r by lia.
  apply lor_multiple_small; lia.
Qed.

Lemma lor_shl64_byte (a b : Z) :
  0 <= a < 2 ^ 56 -> is_byte b -> Z.lor (shl64 a 8) b = a * 256 + b.
Proof.
  intros Ha Hb. rewrite lor_shl64 by (unfold is_byte in Hb; lia).
  change (64 - 8) with 56. rewrite Z.mod_small by assumption. reflexivity.
Qed.

(** The byte-loading loops compute the big-endian value. *)
Lemma load_loop_horner (bs : list Z) (a : Z) (j : nat) :
  Forall is_byte bs -> 0 <= a < 256 ^ Z.of_nat j -> (j + length bs <= 8)%nat ->
  fold_left (fun ts b => Z.lor (shl64 ts 8) b) bs a = horner 256 bs a.
Proof.
  revert a j. induction bs as [|b bs IH]; intros a j Hbs Ha Hj.
  - reflexivity.
  - inversion Hbs as [|? ? Hb Hbs']; subst. cbn [length] in Hj.
    cbn [fold_left horner].
    assert (256 ^ Z.of_nat j <= 2 ^ 56) as Hp.
    { change 256 with (2 ^ 8). rewrite <- Z.pow_mul_r by lia.
      apply Z.pow_le_mono_r; lia. }
    rewrite lor_shl64_byte by (trivial; lia).
    fold (horner 256 bs (a * 256 + b)).
    apply IH with (j := S j); trivial; [|lia].
    rewrite Nat2Z.inj_succ, Z.pow_succ_r by lia.
    unfold is_byte in Hb. lia.
Qed.

Lemma load_be_horner (bytes : list Z) (from : nat) :
  Forall is_byte bytes -> (from + 8 <= length bytes)%nat ->
  load_be bytes from 8 = horner 256 (firstn 8 (skipn from bytes)) 0.
Proof.
  intros Hb Hlen. unfold load_be.
  rewrite (fold_left_map_seq (fun acc b => Z.lor (shl64 acc 8) b)
             (fun i => nth i bytes 0)).
  rewrite map_nth_seq by assumption.
  apply load_loop_horner with (j := 0%nat).
  - apply Forall_firstn, Forall_skipn, Hb.
  - cbn. lia.
  - rewrite length_firstn. lia.
Qed.

Lemma timestamp_ms_horner (u : ulid_t) :
  ulid_ok u -> timestamp_ms u = horner 256 (timestamp_bytes u) 0.
Proof.
  intro Hu. apply ulid_ok_iff in Hu. destruct Hu as [Hlen Hb].
  unfold timestamp_ms, timestamp_bytes. apply load_loop_horner with (j := 0%nat).
  - apply Forall_firstn, Hb.
  - cbn. lia.
  - rewrite length_firstn. lia.
Qed.

(** ** [extract_digit] reads five bits of the 128-bit number *)

Lemma window_low (hi lo s : Z) :
  is_u64 hi -> is_u64 lo -> 0 < s < 64 ->
  (Z.lor (shl64 hi (64 - s)) (shr64 lo s)) mod 32
  = ((hi * two64 + lo) / 2 ^ s) mod 32.
Proof.
  intros Hhi Hlo Hs. unfold is_u64, two64 in *.
  assert (0 < 2 ^ s) as P1 by (apply Z.pow_pos_nonneg; lia).
  assert (0 < 2 ^ (64 - s)) as P2 by (apply Z.pow_pos_nonneg; lia).
  assert (2 ^ 64 = 2 ^ (64 - s) * 2 ^ s) as P3
      by (rewrite <- Z.pow_add_r by lia; f_equal; lia).
  rewrite shr64_div by lia.
  assert (0 <= lo / 2 ^ s < 2 ^ (64 - s)) as Hq.
  { split; [apply Z.div_pos; lia|apply Z.div_lt_upper_bound; lia]. }
  rewrite lor_shl64 by lia.
  replace (64 - (64 - s)) with s by lia.
  replace ((hi * 2 ^ 64 + lo) / 2 ^ s) with (hi * 2 ^ (64 - s) + lo / 2 ^ s)
    by (rewrite P3, Z.mul_assoc, Z.div_add_l by lia; reflexivity).
  pose proof (Z.div_mod hi (2 ^ s) ltac:(lia)) as Ehi.
  set (q := hi / 2 ^ s) in *. set (r := hi mod 2 ^ s) in *.
  replace (hi * 2 ^ (64 - s) + lo / 2 ^ s)
    with (r * 2 ^ (64 - s) + lo / 2 ^ s + q * 2 ^ 59 * 32).
  - rewrite Z.mod_add by lia. reflexivity.
  - replace (q * 2 ^ 59 * 32) with (q * 2 ^ 64) by lia.
    rewrite P3, Ehi at 1. ring.
Qed.

Lemma window_high (hi lo s : Z) :
  is_u64 hi -> is_u64 lo -> 64 <= s ->
  shr64 hi (s - 64) = (hi * two64 + lo) / 2 ^ s.
Proof.
  intros Hhi Hlo Hs. unfold is_u64, two64 in *.
  rewrite shr64_div by lia.
  replace (2 ^ s) with (2 ^ 64 * 2 ^ (s - 64))
    by (rewrite <- Z.pow_add_r by lia; f_equal; lia).
  assert (0 < 2 ^ (s - 64)) by (apply Z.pow_pos_nonneg; lia).
  rewrite <- Z.div_div by lia.
  rewrite Z.div_add_l, (Z.div_small lo) by lia.
  rewrite Z.add_0_r. reflexivity.
Qed.

Lemma extract_digit_spec (hi lo i : Z) :
  is_u64 hi -> is_u64 lo -> 0 <= i <= 25 ->
  extract_digit hi lo i = ((hi * two64 + lo) / 2 ^ (125 - 5 * i)) mod 32.
Proof.
  intros Hhi Hlo Hi. unfold extract_digit. cbv zeta.
  destruct (Z.eqb_spec (125 - 5 * i) 0) as [E0|N0].
  - rewrite E0, land_31, Z.pow_0_r, Z.div_1_r. unfold two64.
    replace (hi * 2 ^ 64) with (hi * 2 ^ 59 * 32) by lia.
    rewrite Z.add_comm, Z.mod_add by lia. reflexivity.
  - destruct (Z.ltb_spec (125 - 5 * i) 64) as [L|G].
    + rewrite land_31. apply window_low; trivial. lia.
    + rewrite land_31. f_equal. apply window_high; trivial.
Qed.

Lemma pow32 (k : Z) : 0 <= k -> 32 ^ k = 2 ^ (5 * k).
Proof. intro Hk. change 32 with (2 ^ 5). rewrite <- Z.pow_mul_r by lia. reflexivity. Qed.

Lemma halves_value (bytes : list Z) :
  length bytes = 16%nat -> Forall is_byte bytes ->
  let hi := horner 256 (firstn 8 bytes) 0 in
  let lo := horner 256 (skipn 8 bytes) 0 in
  is_u64 hi /\ is_u64 lo /\ horner 256 bytes 0 = hi * two64 + lo.
Proof.
  intros Hlen Hb hi lo.
  assert (length (firstn 8 bytes) = 8%nat) as L1 by (rewrite length_firstn; lia).
  assert (length (skipn 8 bytes) = 8%nat) as L2 by (rewrite length_skipn; lia).
  pose proof (horner_bounds (B := 256) ltac:(lia) (Forall_firstn 8 Hb)) as B1.
  pose proof (horner_bounds (B := 256) ltac:(lia) (Forall_skipn 8 Hb)) as B2.
  rewrite L1 in B1. rewrite L2 in B2.
  change (256 ^ Z.of_nat 8) with two64 in B1, B2.
  split; [exact B1|]. split; [exact B2|].
  rewrite <- (firstn_skipn 8 bytes) at 1.
  rewrite horner_app, horner_shift, L2. reflexivity.
Qed.

(** The canonical text lists the 26 base-32 digits of the 128-bit number. *)
Lemma encode_base32_digits (bytes : list Z) :
  length bytes = 16%nat -> Forall is_byte bytes ->
  encode_base32 bytes = map encoding_char (digits 32 26 (horner 256 bytes 0)).
Proof.
  intros Hlen Hb. unfold encode_base32. cbv zeta.
  rewrite !load_be_horner by (trivial; lia).
  rewrite skipn_0.
  rewrite (firstn_all2 (n := 8) (skipn 8 bytes)) by (rewrite length_skipn; lia).
  destruct (halves_value Hlen Hb) as (Hhi & Hlo & EN).
  rewrite <- (digits_by_index (B := 32) ltac:(lia)), map_map.
  apply map_ext_in. intros i Hi. apply in_seq in Hi. f_equal.
  rewrite extract_digit_spec by (trivial; lia).
  rewrite EN, pow32 by lia. do 3 f_equal. lia.
Qed.

Lemma to_string_digits (u : ulid_t) :
  ulid_ok u -> to_string u = map encoding_char (digits 32 26 (value128 u)).
Proof.
  intro Hu. apply ulid_ok_iff in Hu. destruct Hu as [Hlen Hb].
  apply encode_base32_digits; assumption.
Qed.

Lemma value128_bounds (u : ulid_t) : ulid_ok u -> 0 <= value128 u < 2 ^ 128.
Proof.
  intro Hu. apply ulid_ok_iff in Hu. destruct Hu as [Hlen Hb].
  pose proof (horner_bounds (B := 256) ltac:(lia) Hb) as Hh.
  rewrite Hlen in Hh. exact Hh.
Qed.

(** ** Characters: facts checked over all 256 of them *)

Lemma ascii_forall (P : ascii -> bool) :
  forallb (fun n => P (ascii_of_nat n)) (seq 0 256) = true ->
  forall c, P c = true.
Proof.
  intros H c. rewrite forallb_forall in H.
  rewrite <- (ascii_nat_embedding c). apply H. apply in_seq.
  pose proof (nat_ascii_bounded c). lia.
Qed.

Lemma decode_crockford_range (c : ascii) (v : Z) :
  decode_crockford c = Some v -> 0 <= v < 32.
Proof.
  pose proof (ascii_forall
    (fun c => match decode_crockford c with
              | Some v => (0 <=? v) && (v <? 32)
              | None => true
              end) ltac:(vm_compute; reflexivity) c) as H.
  cbv beta in H. intro E. rewrite E in H. lia.
Qed.

Lemma decode_encoding_char (d : Z) :
  0 <= d < 32 -> decode_crockford (encoding_char d) = Some d.
Proof.
  intro Hd.
  assert (forallb (fun n => match decode_crockford (encoding_char (Z.of_nat n)) with
                            | Some v => v =? Z.of_nat n
                            | None => false
                            end) (seq 0 32) = true) as H
      by (vm_compute; reflexivity).
  rewrite forallb_forall in H. specialize (H (Z.to_nat d)).
  rewrite Z2Nat.id in H by lia.
  destruct (decode_crockford (encoding_char d)) as [v|].
  - f_equal. apply Z.eqb_eq. apply H. apply in_seq. lia.
  - discriminate H. apply in_seq. lia.
Qed.

Lemma accepted_iff (c : ascii) :
  accepted c = true <-> decode_crockford c <> None.
Proof.
  pose proof (ascii_forall
    (fun c => Bool.eqb (accepted c)
                (match decode_crockford c with Some _ => true | None => false end))
    ltac:(vm_compute; reflexivity) c) as H.
  cbv beta in H. apply Bool.eqb_prop in H. rewrite H.
  destruct (decode_crockford c); split; congruence.
Qed.

Lemma encoding_canonical (c : ascii) (v : Z) :
  decode_crockford c = Some v -> encoding_char v = canonical_char c.
Proof.
  pose proof (ascii_forall
    (fun c => match decode_crockford c with
              | Some v => char_eqb (encoding_char v) (canonical_char c)
              | None => true
              end) ltac:(vm_compute; reflexivity) c) as H.
  cbv beta in H. intro E. rewrite E in H. apply Ascii.eqb_eq. exact H.
Qed.

Lemma encoding_char_monotone (x y : Z) :
  0 <= x < 32 -> 0 <= y < 32 ->
  char_compare (encoding_char x) (encoding_char y) = (x ?= y).
Proof.
  intros Hx Hy.
  assert (forallb (fun i => forallb (fun j =>
            match char_compare (encoding_char (Z.of_nat i)) (encoding_char (Z.of_nat j)),
                  Z.of_nat i ?= Z.of_nat j with
            | Eq, Eq | Lt, Lt | Gt, Gt => true
            | _, _ => false
            end) (seq 0 32)) (seq 0 32) = true) as H
      by (vm_compute; reflexivity).
  rewrite forallb_forall in H. specialize (H (Z.to_nat x) ltac:(apply in_seq; lia)).
  rewrite forallb_forall in H. specialize (H (Z.to_nat y) ltac:(apply in_seq; lia)).
  rewrite !Z2Nat.id in H by lia.
  destruct (char_compare (encoding_char x) (encoding_char y)), (x ?= y);
    try reflexivity; discriminate H.
Qed.

(** ** [write_big_endian] lists base-256 digits *)

Lemma pow256 (k : Z) : 0 <= k -> 256 ^ k = 2 ^ (k * 8).
Proof.
  intro Hk. change 256 with (2 ^ 8). rewrite <- Z.pow_mul_r by lia.
  f_equal. lia.
Qed.

Lemma write_big_endian_digits (N : nat) (value : Z) :
  write_big_endian N value = digits 256 N value.
Proof.
  unfold write_big_endian.
  rewrite <- (digits_by_index (B := 256) ltac:(lia)).
  apply map_ext. intro i.
  rewrite land_255, shr64_div, pow256 by lia. reflexivity.
Qed.

Lemma digits_split (B : Z) (j k : nat) (n : Z) :
  1 < B ->
  digits B (j + k) n = digits B j (n / B ^ Z.of_nat k) ++ digits B k n.
Proof.
  intro HB. revert n. induction k as [|k IH]; intro n.
  - rewrite Nat.add_0_r. cbn [digits Z.of_nat].
    rewrite Z.pow_0_r, Z.div_1_r, app_nil_r. reflexivity.
  - rewrite Nat.add_succ_r. cbn [digits]. rewrite IH, app_assoc.
    rewrite Z.div_div by (try apply Z.pow_pos_nonneg; lia).
    rewrite Nat2Z.inj_succ, Z.pow_succ_r by lia. reflexivity.
Qed.

Lemma digits_mod (B : Z) (k : nat) (n : Z) :
  1 < B -> digits B k (n mod B ^ Z.of_nat k) = digits B k n.
Proof.
  intro HB. revert n. induction k as [|k IH]; intro n.
  - reflexivity.
  - cbn [digits]. rewrite Nat2Z.inj_succ, Z.pow_succ_r by lia.
    assert (0 < B ^ Z.of_nat k) by (apply Z.pow_pos_nonneg; lia).
    rewrite Z.rem_mul_r by lia.
    replace ((n mod B + B * ((n / B) mod B ^ Z.of_nat k)) / B)
      with ((n / B) mod B ^ Z.of_nat k).
    + rewrite IH. f_equal. f_equal.
      rewrite Z.mul_comm, Z.mod_add by lia.
      apply Z.mod_mod. lia.
    + rewrite Z.add_comm, Z.mul_comm, Z.div_add_l by lia.
      rewrite (Z.div_small (n mod B)) by (apply Z.mod_pos_bound; lia). lia.
Qed.

(** ** The accumulator of [from_string] *)

Lemma acc_push_spec (acc : acc_t) (v : Z) :
  acc_ok acc -> 0 <= v < 32 -> acc_val acc < 2 ^ 187 ->
  acc_ok (acc_push acc v) /\ acc_val (acc_push acc v) = acc_val acc * 32 + v.
Proof.
  intros (H0 & H1 & H2) Hv Hval. destruct acc as [a0 a1 a2].
  unfold acc_val, acc_ok, acc_push, is_u64, two64 in *. cbn [acc0 acc1 acc2] in *.
  change (64 - 5) with 59. rewrite !shr64_div by lia.
  assert (0 <= a0 / 2 ^ 59 < 32) as C0
      by (split; [apply Z.div_pos|apply Z.div_lt_upper_bound]; lia).
  assert (0 <= a1 / 2 ^ 59 < 32) as C1
      by (split; [apply Z.div_pos|apply Z.div_lt_upper_bound]; lia).
  rewrite !lor_shl64 by (change (2 ^ 5) with 32; lia).
  change (64 - 5) with 59. change (2 ^ 5) with 32.
  pose proof (Z.div_mod a0 (2 ^ 59) ltac:(lia)) as E0.
  pose proof (Z.div_mod a1 (2 ^ 59) ltac:(lia)) as E1.
  pose proof (Z.mod_pos_bound a0 (2 ^ 59) ltac:(lia)) as M0.
  pose proof (Z.mod_pos_bound a1 (2 ^ 59) ltac:(lia)) as M1.
  rewrite (Z.mod_small a2) by lia.
  set (q0 := a0 / 2 ^ 59) in *. set (r0 := a0 mod 2 ^ 59) in *.
  set (q1 := a1 / 2 ^ 59) in *. set (r1 := a1 mod 2 ^ 59) in *.
  lia.
Qed.

Lemma accumulate_none (s : str) (acc : acc_t) :
  decode_all s = None -> accumulate s acc = None.
Proof.
  revert acc. induction s as [|c s IH]; intros acc H; cbn in *.
  - discriminate H.
  - destruct (decode_crockford c) as [v|]; [|reflexivity].
    apply IH. destruct (decode_all s); [discriminate H|reflexivity].
Qed.

Lemma decode_all_range (s : str) (ds : list Z) :
  decode_all s = Some ds ->
  length ds = length s /\ Forall (fun d => 0 <= d < 32) ds.
Proof.
  revert ds. induction s as [|c s IH]; intros ds H; cbn in H.
  - injection H as <-. split; [reflexivity|constructor].
  - destruct (decode_crockford c) as [v|] eqn:Ec; [|discriminate H].
    destruct (decode_all s) as [vs|]; [|discriminate H].
    injection H as <-. destruct (IH vs eq_refl) as [L R].
    split; [cbn; congruence|].
    constructor; [eapply decode_crockford_range; eassumption|assumption].
Qed.

Lemma accumulate_some (s : str) :
  forall (acc : acc_t) (ds : list Z) (k : nat),
  decode_all s = Some ds -> acc_ok acc ->
  0 <= acc_val acc < 32 ^ Z.of_nat k -> (k + length s <= 37)%nat ->
  exists acc', accumulate s acc = Some acc' /\ acc_ok acc'
               /\ acc_val acc' = horner 32 ds (acc_val acc).
Proof.
  induction s as [|c s IH]; intros acc ds k Hd Hok Hval Hk; cbn in Hd.
  - injection Hd as <-. exists acc. split; [reflexivity|]. split; [exact Hok|reflexivity].
  - destruct (decode_crockford c) as [v|] eqn:Ec; [|discriminate Hd].
    destruct (decode_all s) as [vs|] eqn:Es; [|discriminate Hd].
    injection Hd as <-. cbn [length] in Hk.
    pose proof (decode_crockford_range _ Ec) as Hv.
    assert (32 ^ Z.of_nat k <= 2 ^ 187) as Hp.
    { rewrite pow32 by lia. apply Z.pow_le_mono_r; lia. }
    destruct (acc_push_spec Hok Hv ltac:(lia)) as [Hok' Hval'].
    destruct (IH (acc_push acc v) vs (S k) eq_refl Hok') as (acc' & E & Hok2 & Hv2).
    + rewrite Hval', Nat2Z.inj_succ, Z.pow_succ_r by lia. lia.
    + lia.
    + exists acc'. cbn [accumulate]. rewrite Ec.
      split; [exact E|]. split; [exact Hok2|].
      rewrite Hv2, Hval'. reflexivity.
Qed.

(** What [from_string] computes, in numbers: the 26 characters are base-32
    digits, their value must fit in 128 bits, and the value is laid out in
    sixteen big-endian bytes. *)
Lemma from_string_spec (s : str) :
  from_string s =
    if negb (length s =? 26)%nat then None
    else match decode_all s with
         | None => None
         | Some ds =>
             let V := horner 32 ds 0 in
             if V <? 2 ^ 128 then Some (mk_ulid (digits 256 16 V)) else None
         end.
Proof.
  unfold from_string. destruct (Nat.eqb_spec (length s) 26) as [L|L]; [|reflexivity].
  cbn [negb]. destruct (decode_all s) as [ds|] eqn:Ed.
  - destruct (@accumulate_some s (mk_acc 0 0 0) ds 0 Ed) as (acc & E & Hok & Hv).
    + unfold acc_ok, is_u64, two64. cbn. lia.
    + cbn. lia.
    + lia.
    + rewrite E. cbv zeta.
      destruct (decode_all_range _ Ed) as [Ll Hr].
      pose proof (horner_bounds (B := 32) ltac:(lia) Hr) as Hb.
      rewrite Ll, L in Hb. change (acc_val (mk_acc 0 0 0)) with 0 in Hv.
      rewrite <- Hv in *. clear Hv Ed E.
      destruct acc as [a0 a1 a2]. destruct Hok as (H0 & H1 & H2).
      unfold acc_val, is_u64, two64 in *. cbn [acc0 acc1 acc2] in *.
      rewrite land_3.
      change (32 ^ Z.of_nat 26) with (2 ^ 128 * 4) in Hb.
      assert (0 <= a2 < 4) as Ha2 by lia.
      rewrite (Z.mod_small a2) by lia.
      destruct (Z.eqb_spec a2 0) as [Z2|NZ2]; cbn [negb].
      * subst a2. destruct (Z.ltb_spec (a0 + 2 ^ 64 * a1 + 2 ^ 64 * 2 ^ 64 * 0) (2 ^ 128)) as [_|G]; [|lia].
        f_equal. unfold set_low_bytes, set_high_bytes. cbn [data]. f_equal.
        rewrite !write_big_endian_digits.
        rewrite firstn_app, digits_length, Nat.sub_diag, firstn_0, app_nil_r.
        rewrite firstn_all2 by (rewrite digits_length; lia).
        change 16%nat with (8 + 8)%nat. rewrite digits_split by lia.
        change (256 ^ Z.of_nat 8) with (2 ^ 64).
        f_equal.
        -- f_equal. rewrite Z.mul_0_r, Z.add_0_r, Z.add_comm, Z.mul_comm.
           rewrite Z.div_add_l, (Z.div_small a0) by lia. lia.
        -- symmetry. rewrite <- digits_mod by lia.
           change (256 ^ Z.of_nat 8) with (2 ^ 64). f_equal.
           rewrite Z.mul_0_r, Z.add_0_r, Z.mul_comm, Z.mod_add, Z.mod_small by lia.
           reflexivity.
      * destruct (Z.ltb_spec (a0 + 2 ^ 64 * a1 + 2 ^ 64 * 2 ^ 64 * a2) (2 ^ 128)) as [G|_]; [lia|].
        reflexivity.
  - rewrite accumulate_none by assumption. reflexivity.
Qed.

(** ** Decoding what was encoded, and encoding what was decoded *)

Lemma from_bytes_id (b : list Z) : length b = 16%nat -> from_bytes b = mk_ulid b.
Proof.
  intro Hlen. unfold from_bytes. f_equal.
  rewrite map_nth_seq by lia. rewrite skipn_0.
  apply firstn_all2. lia.
Qed.

Lemma decode_all_encoding (ds : list Z) :
  Forall (fun d => 0 <= d < 32) ds -> decode_all (map encoding_char ds) = Some ds.
Proof.
  induction 1 as [|d ds Hd _ IH]; cbn [map decode_all].
  - reflexivity.
  - rewrite decode_encoding_char by assumption. rewrite IH. reflexivity.
Qed.

Lemma decode_all_canonical (s : str) (ds : list Z) :
  decode_all s = Some ds -> map encoding_char ds = map canonical_char s.
Proof.
  revert ds. induction s as [|c s IH]; intros ds H; cbn in H.
  - injection H as <-. reflexivity.
  - destruct (decode_crockford c) as [v|] eqn:Ec; [|discriminate H].
    destruct (decode_all s) as [vs|]; [|discriminate H].
    injection H as <-. cbn [map]. f_equal.
    + apply encoding_canonical. assumption.
    + apply IH. reflexivity.
Qed.

Lemma decode_all_none_iff (s : str) :
  decode_all s = None <-> exists c, In c s /\ accepted c = false.
Proof.
  induction s as [|c s IH]; cbn [decode_all In].
  - split; [discriminate|]. intros (c & [] & _).
  - destruct (decode_crockford c) as [v|] eqn:Ec.
    + destruct (decode_all s) as [vs|].
      * split; [discriminate|]. intros (c' & [<-|Hin] & Hc').
        -- apply not_true_iff_false in Hc'. rewrite accepted_iff in Hc'.
           exfalso. apply Hc'. congruence.
        -- destruct IH as [_ IH]. discriminate IH. eauto.
      * split; [|reflexivity]. intros _.
        destruct IH as [IH _]. destruct (IH eq_refl) as (c' & Hin & Hc').
        eauto.
    + split; [|reflexivity]. intros _. exists c. split; [left; reflexivity|].
      apply not_true_iff_false. rewrite accepted_iff. tauto.
Qed.

Lemma digits16_ok (V : Z) : ulid_ok (mk_ulid (digits 256 16 V)).
Proof.
  apply ulid_ok_iff. cbn [data]. split; [apply digits_length|].
  apply digits_range. lia.
Qed.

Lemma value128_digits16 (V : Z) :
  0 <= V < 2 ^ 128 -> value128 (mk_ulid (digits 256 16 V)) = V.
Proof.
  intro HV. unfold value128. cbn [data]. rewrite horner_digits by lia.
  apply Z.mod_small. exact HV.
Qed.

Lemma digits16_value128 (u : ulid_t) :
  ulid_ok u -> mk_ulid (digits 256 16 (value128 u)) = u.
Proof.
  intro Hu. apply ulid_ok_iff in Hu. destruct Hu as [Hlen Hb].
  destruct u as [bs]. cbn [data] in *. f_equal. unfold value128. cbn [data].
  rewrite <- Hlen. apply digits_horner; [lia|assumption].
Qed.

Lemma to_string_length (u : ulid_t) : length (to_string u) = 26%nat.
Proof. unfold to_string, encode_base32. rewrite length_map, length_seq. reflexivity. Qed.

(** Decoding the canonical text of a value gives the value back. *)
Lemma from_string_to_string (u : ulid_t) :
  ulid_ok u -> from_string (to_string u) = Some u.
Proof.
  intro Hu. rewrite from_string_spec, to_string_length. cbn [Nat.eqb negb].
  rewrite to_string_digits by assumption.
  rewrite decode_all_encoding by (apply digits_range; lia).
  cbv zeta. rewrite horner_digits by lia.
  pose proof (value128_bounds Hu) as HV.
  rewrite Z.mod_small by (change (32 ^ Z.of_nat 26) with (2 ^ 128 * 4); lia).
  destruct (Z.ltb_spec (value128 u) (2 ^ 128)) as [_|G]; [|lia].
  f_equal. apply digits16_value128. assumption.
Qed.

(** Encoding a decoded value lists the digits that were read. *)
Lemma to_string_from_string (s : str) (v : ulid_t) :
  from_string s = Some v ->
  length s = 26%nat /\ ulid_ok v /\
  exists ds, decode_all s = Some ds /\ to_string v = map encoding_char ds
             /\ value128 v = horner 32 ds 0.
Proof.
  rewrite from_string_spec.
  destruct (Nat.eqb_spec (length s) 26) as [L|L]; [|discriminate].
  cbn [negb]. destruct (decode_all s) as [ds|] eqn:Ed; [|discriminate].
  cbv zeta. destruct (Z.ltb_spec (horner 32 ds 0) (2 ^ 128)) as [Lt|]; [|discriminate].
  intro E.
  assert (v = mk_ulid (digits 256 16 (horner 32 ds 0))) as -> by congruence.
  clear E. destruct (decode_all_range _ Ed) as [Ll Hr].
  pose proof (horner_bounds (B := 32) ltac:(lia) Hr) as Hb.
  split; [exact L|]. split; [apply digits16_ok|].
  exists ds. split; [reflexivity|].
  rewrite to_string_digits by apply digits16_ok.
  rewrite value128_digits16 by lia. split; [|reflexivity].
  f_equal. replace 26%nat with (length ds) by congruence.
  apply digits_horner; [lia|assumption].
Qed.

(** ** The order of values and the order of their canonical texts *)

Lemma lex_compare_map {A C : Type} (cmpA : A -> A -> comparison)
    (cmpC : C -> C -> comparison) (f : A -> C) (P : A -> Prop) :
  (forall x y, P x -> P y -> cmpC (f x) (f y) = cmpA x y) ->
  forall xs ys, Forall P xs -> Forall P ys ->
  lex_compare cmpC (map f xs) (map f ys) = lex_compare cmpA xs ys.
Proof.
  intros Hf. induction xs as [|x xs IH]; intros [|y ys] Hx Hy; cbn; trivial.
  inversion Hx; inversion Hy; subst.
  rewrite Hf by assumption. rewrite IH by assumption. reflexivity.
Qed.

Lemma ulid_compare_value (a b : ulid_t) :
  ulid_ok a -> ulid_ok b -> ulid_compare a b = (value128 a ?= value128 b).
Proof.
  intros Ha Hb. apply ulid_ok_iff in Ha, Hb.
  destruct Ha as [La Ra], Hb as [Lb Rb].
  unfold ulid_compare, value128.
  apply lex_compare_horner; [lia|congruence|assumption|assumption].
Qed.

Lemma to_string_compare (a b : ulid_t) :
  ulid_ok a -> ulid_ok b ->
  str_compare (to_string a) (to_string b) = ulid_compare a b.
Proof.
  intros Ha Hb. rewrite ulid_compare_value by assumption.
  rewrite !to_string_digits by assumption. unfold str_compare.
  rewrite (@lex_compare_map Z ascii Z.compare char_compare encoding_char
             (fun d => 0 <= d < 32) encoding_char_monotone)
    by (apply digits_range; lia).
  rewrite (lex_compare_horner (B := 32)) by
    (try apply digits_range; try lia; rewrite !digits_length; reflexivity).
  rewrite !horner_digits by lia.
  pose proof (value128_bounds Ha). pose proof (value128_bounds Hb).
  rewrite !Z.mod_small by (change (32 ^ Z.of_nat 26) with (2 ^ 128 * 4); lia).
  reflexivity.
Qed.

(** The canonical text orders values as [operator<] does. *)
Lemma to_string_order (a b : ulid_t) :
  ulid_ok a -> ulid_ok b ->
  (ulid_lt a b <-> str_lt (to_string a) (to_string b)).
Proof.
  intros Ha Hb. unfold ulid_lt, str_lt.
  rewrite to_string_compare by assumption. reflexivity.
Qed.

(** ** The counter of the monotonic generator *)

Lemma horner_rev (l : list Z) : horner 256 (rev l) 0 = le_value l.
Proof.
  induction l as [|b l IH]; cbn [rev le_value].
  - reflexivity.
  - rewrite horner_app, IH. unfold horner. cbn [fold_left]. lia.
Qed.

Lemma le_value_bounds (r : list Z) :
  Forall is_byte r -> 0 <= le_value r < 256 ^ Z.of_nat (length r).
Proof.
  induction 1 as [|b r Hb _ IH]; cbn [le_value length].
  - cbn. lia.
  - rewrite Nat2Z.inj_succ, Z.pow_succ_r by lia. unfold is_byte in Hb. lia.
Qed.

Lemma inc_from_back_spec (r : list Z) :
  Forall is_byte r ->
  length (inc_from_back r) = length r
  /\ Forall is_byte (inc_from_back r)
  /\ le_value (inc_from_back r) = (le_value r + 1) mod 256 ^ Z.of_nat (length r).
Proof.
  induction 1 as [|b r Hb Hr IH]; cbn [inc_from_back le_value length].
  - repeat split; constructor.
  - destruct IH as (IL & IF & IV). pose proof (le_value_bounds Hr) as Br.
    rewrite Nat2Z.inj_succ, Z.pow_succ_r by lia. unfold is_byte in Hb.
    destruct (Z.eqb_spec b 255) as [E|N]; cbn [negb le_value length].
    + subst b. split; [congruence|]. split.
      * constructor; [unfold is_byte; lia|assumption].
      * rewrite IV.
        replace (255 + 256 * le_value r + 1) with (256 * (le_value r + 1)) by lia.
        rewrite Z.mul_mod_distr_l by lia. lia.
    + split; [reflexivity|]. split.
      * constructor; [unfold is_byte; lia|assumption].
      * rewrite Z.mod_small by lia. lia.
Qed.

Lemma increment_big_endian_spec (rand : list Z) :
  Forall is_byte rand ->
  length (increment_big_endian rand) = length rand
  /\ Forall is_byte (increment_big_endian rand)
  /\ horner 256 (increment_big_endian rand) 0
     = (horner 256 rand 0 + 1) mod 256 ^ Z.of_nat (length rand).
Proof.
  intro Hr. unfold increment_big_endian.
  assert (Forall is_byte (rev rand)) as Hrev by (apply Forall_rev; assumption).
  destruct (inc_from_back_spec Hrev) as (IL & IF & IV).
  rewrite length_rev in *. split; [congruence|]. split.
  - apply Forall_rev. assumption.
  - rewrite horner_rev, IV. rewrite <- horner_rev, rev_involutive. reflexivity.
Qed.

(** A counter with every bit set wraps to zero. *)
Lemma increment_big_endian_wrap (n : nat) :
  increment_big_endian (repeat 255 n) = repeat 0 n.
Proof.
  unfold increment_big_endian. rewrite rev_repeat.
  assert (inc_from_back (repeat 255 n) = repeat 0 n) as ->.
  { induction n as [|n IH]; cbn; [reflexivity|]. rewrite IH. reflexivity. }
  apply rev_repeat.
Qed.

(** ** Well-formed values out of the generators *)

Lemma write_big_endian_ok (N : nat) (value : Z) :
  length (write_big_endian N value) = N
  /\ Forall is_byte (write_big_endian N value).
Proof.
  rewrite write_big_endian_digits. split; [apply digits_length|].
  apply digits_range. lia.
Qed.

Section GenerationFacts.
Context {E : Type} `{RandomBitEngine E}.
Variable salt : Z.

Lemma bits_as_byte_range (g : E) : is_byte (fst (bits_as_byte g)).
Proof.
  unfold bits_as_byte. destruct (engine_next g) as [x g']. cbn [fst].
  change (Z.shiftl 1 8 - 1) with 255. rewrite land_255.
  unfold is_byte. apply Z.mod_pos_bound. lia.
Qed.

Lemma fill_random_ok (n : nat) (g : E) :
  length (fst (fill_random n g)) = n
  /\ Forall is_byte (fst (fill_random n g)).
Proof.
  revert g. induction n as [|n IH]; intro g; cbn [fill_random].
  - split; [reflexivity|constructor].
  - pose proof (bits_as_byte_range g) as Hb.
    destruct (bits_as_byte g) as [b g1]. cbn [fst] in Hb.
    specialize (IH g1). destruct (fill_random n g1) as [bs g2].
    cbn [fst] in *. destruct IH as [IL IF].
    split; [cbn; congruence|constructor; assumption].
Qed.

(** A value assembled from six timestamp bytes and ten drawn bytes. *)
Lemma fresh_ok (u : ulid_t) (ts : Z) (g : E) :
  ulid_ok (set_random_bytes (set_timestamp_bytes u (write_big_endian 6 ts))
             (fst (fill_random 10 g))).
Proof.
  destruct (write_big_endian_ok 6 ts) as [WL WF].
  destruct (fill_random_ok 10 g) as [FL FF].
  apply ulid_ok_iff. unfold set_random_bytes, set_timestamp_bytes. cbn [data].
  rewrite firstn_app, WL, Nat.sub_diag, firstn_0, app_nil_r.
  rewrite firstn_all2 by lia.
  split; [rewrite length_app; lia|apply Forall_app; split; assumption].
Qed.

Lemma generate_ok (r : option E) (ts : Z) : ulid_ok (fst (generate salt r ts)).
Proof.
  unfold generate. cbv zeta.
  pose proof (fresh_ok ulid_zero ts (the_rng salt r ts)) as Hf.
  destruct (fill_random 10 (the_rng salt r ts)) as [bs g']. exact Hf.
Qed.

Lemma bumped_ok (u : ulid_t) :
  ulid_ok u ->
  ulid_ok (set_random_bytes u (increment_big_endian (random_bytes u))).
Proof.
  intro Hu. apply ulid_ok_iff in Hu. destruct Hu as [Hlen Hb].
  destruct (increment_big_endian_spec (Forall_skipn 6 Hb)) as (IL & IF & _).
  apply ulid_ok_iff. unfold set_random_bytes, random_bytes. cbn [data].
  split.
  - rewrite length_app, IL, length_firstn, length_skipn. lia.
  - apply Forall_app. split; [apply Forall_firstn|]; assumption.
Qed.

(** Every call leaves the generator primed. *)
Lemma generate_monotonic_primed (st : mono_state) (ts : Z) :
  (have_last st = true -> ulid_ok (last st)) ->
  primed (snd (generate_monotonic salt st ts))
  /\ last (snd (generate_monotonic salt st ts)) = fst (generate_monotonic salt st ts).
Proof.
  intro Hst. unfold generate_monotonic. cbv zeta.
  destruct (negb (have_last st) || (ts >? last_ts st)) eqn:Ec.
  - pose proof (fresh_ok (last st) ts (the_rng salt (rng st) ts)) as Hf.
    destruct (fill_random 10 (the_rng salt (rng st) ts)) as [bs g'].
    cbn [fst snd] in *. unfold primed, primedb. cbn [have_last rng last].
    split; [|reflexivity]. cbn [andb]. exact Hf.
  - apply orb_false_iff in Ec. destruct Ec as [Eh _].
    apply negb_false_iff in Eh. cbn [fst snd]. unfold primed, primedb.
    cbn [have_last rng last]. split; [|reflexivity].
    rewrite Eh. cbn [andb]. apply bumped_ok. apply Hst. assumption.
Qed.
End GenerationFacts.

(** ** Timestamp and randomness as the two parts of the number *)

Lemma value128_split (u : ulid_t) :
  ulid_ok u -> value128 u = timestamp_ms u * 2 ^ 80 + random_value u.
Proof.
  intro Hu. rewrite timestamp_ms_horner by assumption.
  apply ulid_ok_iff in Hu. destruct Hu as [Hlen Hb].
  unfold value128, random_value, timestamp_bytes, random_bytes.
  rewrite <- (firstn_skipn 6 (data u)) at 1.
  rewrite horner_app, horner_shift, length_skipn, Hlen. reflexivity.
Qed.

Lemma random_value_bounds (u : ulid_t) :
  ulid_ok u -> 0 <= random_value u < 2 ^ 80.
Proof.
  intro Hu. apply ulid_ok_iff in Hu. destruct Hu as [Hlen Hb].
  pose proof (horner_bounds (B := 256) ltac:(lia) (Forall_skipn 6 Hb)) as Hh.
  rewrite length_skipn, Hlen in Hh. exact Hh.
Qed.

Lemma timestamp_ms_bounds (u : ulid_t) :
  ulid_ok u -> 0 <= timestamp_ms u < 2 ^ 48.
Proof.
  intro Hu. rewrite timestamp_ms_horner by assumption.
  apply ulid_ok_iff in Hu. destruct Hu as [Hlen Hb].
  pose proof (horner_bounds (B := 256) ltac:(lia) (Forall_firstn 6 Hb)) as Hh.
  rewrite length_firstn, Hlen in Hh. exact Hh.
Qed.

Lemma bumped_parts (u : ulid_t) :
  ulid_ok u ->
  let u' := set_random_bytes u (increment_big_endian (random_bytes u)) in
  timestamp_bytes u' = timestamp_bytes u
  /\ random_bytes u' = increment_big_endian (random_bytes u)
  /\ random_value u' = (random_value u + 1) mod 2 ^ 80.
Proof.
  intros Hu u'. apply ulid_ok_iff in Hu. destruct Hu as [Hlen Hb].
  destruct (increment_big_endian_spec (Forall_skipn 6 Hb)) as (IL & IF & IV).
  assert (length (firstn 6 (data u)) = 6%nat) as L6
      by (rewrite length_firstn; lia).
  unfold u', random_value, timestamp_bytes, random_bytes, set_random_bytes in *.
  cbn [data].
  split; [|split].
  - rewrite firstn_app, L6, Nat.sub_diag, firstn_0, app_nil_r.
    apply firstn_all2. lia.
  - rewrite skipn_app, L6, Nat.sub_diag, skipn_0.
    rewrite skipn_all2 by lia. reflexivity.
  - rewrite skipn_app, L6, Nat.sub_diag, skipn_0.
    rewrite skipn_all2 by lia. cbn [app].
    rewrite IV, length_skipn, Hlen. reflexivity.
Qed.

Lemma timestamp_ms_bumped (u : ulid_t) :
  ulid_ok u ->
  timestamp_ms (set_random_bytes u (increment_big_endian (random_bytes u)))
  = timestamp_ms u.
Proof.
  intro Hu. destruct (bumped_parts Hu) as (Et & _).
  unfold timestamp_ms. rewrite Et. reflexivity.
Qed.

(** While the counter has room, the bumped value is the larger one. *)
Lemma bumped_increases (u : ulid_t) :
  ulid_ok u -> random_value u < 2 ^ 80 - 1 ->
  ulid_lt u (set_random_bytes u (increment_big_endian (random_bytes u))).
Proof.
  intros Hu Hroom. unfold ulid_lt.
  rewrite ulid_compare_value by (trivial; apply bumped_ok; trivial).
  rewrite (value128_split Hu), (value128_split (bumped_ok Hu)).
  rewrite timestamp_ms_bumped by assumption.
  destruct (bumped_parts Hu) as (_ & _ & Ev). cbv zeta in Ev. rewrite Ev.
  pose proof (random_value_bounds Hu).
  rewrite Z.mod_small by lia. apply Z.compare_lt_iff. lia.
Qed.

(** When the counter is full, the bumped value is the smaller one. *)
Lemma bumped_wraps (u : ulid_t) :
  ulid_ok u -> random_value u = 2 ^ 80 - 1 ->
  ulid_lt (set_random_bytes u (increment_big_endian (random_bytes u))) u.
Proof.
  intros Hu Hfull. unfold ulid_lt.
  rewrite ulid_compare_value by (trivial; apply bumped_ok; trivial).
  rewrite (value128_split Hu), (value128_split (bumped_ok Hu)).
  rewrite timestamp_ms_bumped by assumption.
  destruct (bumped_parts Hu) as (_ & _ & Ev). cbv zeta in Ev. rewrite Ev.
  rewrite Hfull. change ((2 ^ 80 - 1 + 1) mod 2 ^ 80) with 0.
  apply Z.compare_lt_iff. lia.
Qed.

(** ** Checks over ranges *)

Lemma check_from_spec (n : nat) (z : Z) (p : Z -> bool) :
  check_from n z p = true ->
  forall i, z <= i < z + Z.of_nat n -> p i = true.
Proof.
  revert z. induction n as [|n IH]; intros z H i Hi.
  - lia.
  - cbn [check_from] in H. apply andb_true_iff in H. destruct H as [H0 H1].
    destruct (Z.eq_dec i z) as [->|Ne]; [exact H0|].
    apply (IH (z + 1) H1). lia.
Qed.

Lemma str_eqb_eq (a b : list ascii) : str_eqb a b = true -> a = b.
Proof.
  revert b. induction a as [|x a IH]; intros [|y b] H; cbn in H;
    try discriminate; trivial.
  apply andb_true_iff in H. destruct H as [H0 H1].
  apply Ascii.eqb_eq in H0. subst y. f_equal. apply IH. exact H1.
Qed.

(** ** The calendar *)

Lemma era_scan_spec (n : nat) :
  forall doe prev, era_scan n doe prev = true ->
  forall i, doe <= i < doe + Z.of_nat n ->
  era_check i = true
  /\ (if i =? doe then prev else era_key (i - 1)) < era_key i.
Proof.
  induction n as [|n IH]; intros doe prev Hs i Hi; [lia|].
  cbn [era_scan] in Hs.
  destruct (civil_of_doe doe) as [[yoe m] d] eqn:Ec.
  cbv zeta in Hs.
  apply andb_true_iff in Hs. destruct Hs as [Hs Hrest].
  apply andb_true_iff in Hs. destruct Hs as [Hok Hprev].
  destruct (Z.eqb_spec i doe) as [->|Ne].
  - unfold era_check, era_key. rewrite Ec. split; [exact Hok|lia].
  - destruct (IH (doe + 1) _ Hrest i ltac:(lia)) as [Hc Hk]. split; [exact Hc|].
    destruct (Z.eqb_spec i (doe + 1)) as [->|Ne']; [|exact Hk].
    replace (doe + 1 - 1) with doe by lia.
    unfold era_key at 1. rewrite Ec. exact Hk.
Qed.

Lemma era_days : era_scan (Z.to_nat 146097) 0 0 = true.
Proof. vm_cast_no_check (eq_refl true). Qed.

Lemma era_check_all (doe : Z) : 0 <= doe < 146097 -> era_check doe = true.
Proof.
  intro H. apply (@era_scan_spec (Z.to_nat 146097) 0 0 era_days doe).
  rewrite Z2Nat.id by lia. lia.
Qed.

Lemma era_key_succ (doe : Z) :
  0 <= doe < 146096 -> era_key doe < era_key (doe + 1).
Proof.
  intro H.
  destruct (@era_scan_spec (Z.to_nat 146097) 0 0 era_days (doe + 1)) as [_ Hk].
  - rewrite Z2Nat.id by lia. lia.
  - destruct (Z.eqb_spec (doe + 1) 0) as [E|_]; [lia|].
    replace (doe + 1 - 1) with doe in Hk by lia. exact Hk.
Qed.

Lemma is_leap_period (y k : Z) : is_leap (y + 400 * k) = is_leap y.
Proof.
  unfold is_leap.
  replace (y + 400 * k) with (y + (100 * k) * 4) at 1 by lia.
  replace (y + 400 * k) with (y + (4 * k) * 100) at 1 by lia.
  replace (y + 400 * k) with (y + k * 400) by lia.
  rewrite !Z.mod_add by lia. reflexivity.
Qed.

Lemma last_day_period (y k m : Z) :
  last_day_of_month (y + 400 * k) m = last_day_of_month y m.
Proof. unfold last_day_of_month. rewrite is_leap_period. reflexivity. Qed.

(** A day count taken apart into a date and put together again. *)
Lemma civil_from_days_spec (z : Z) :
  -719468 <= z ->
  let '(y, m, d) := civil_from_days z in
  days_from_civil y m d = z
  /\ 1 <= m <= 12 /\ 1 <= d <= last_day_of_month y m
  /\ 400 * ((z + 719468) / 146097) <= y <= 400 * ((z + 719468) / 146097) + 400.
Proof.
  intro Hz. unfold civil_from_days. cbv zeta.
  set (z' := z + 719468). set (era := z' / 146097).
  assert (0 <= era) as Hera by (apply Z.div_pos; lia).
  assert (z' - era * 146097 = z' mod 146097) as Edoe
      by (unfold era; rewrite Z.mod_eq by lia; lia).
  rewrite Edoe. set (doe := z' mod 146097).
  assert (0 <= doe < 146097) as Hdoe by (apply Z.mod_pos_bound; lia).
  pose proof (era_check_all Hdoe) as Hc. unfold era_check in Hc.
  destruct (civil_of_doe doe) as [[yoe m] d].
  unfold era_ok in Hc. cbv zeta in Hc.
  repeat (apply andb_true_iff in Hc; destruct Hc as [Hc ?]).
  assert (doe_of yoe m d = doe) as Eback by lia.
  assert ((if m <=? 2 then yoe + era * 400 + 1 else yoe + era * 400)
          = (if m <=? 2 then yoe + 1 else yoe) + 400 * era) as Ey
      by (destruct (m <=? 2); lia).
  rewrite Ey, last_day_period.
  split; [|split; [lia|split; [lia|destruct (m <=? 2); lia]]].
  unfold days_from_civil. cbv zeta.
  replace (if m <=? 2
           then (if m <=? 2 then yoe + 1 else yoe) + 400 * era - 1
           else (if m <=? 2 then yoe + 1 else yoe) + 400 * era)
    with (yoe + era * 400) by (destruct (m <=? 2); lia).
  assert ((yoe + era * 400) / 400 = era) as Eera.
  { rewrite Z.div_add by lia. rewrite Z.div_small by lia. lia. }
  rewrite Eera.
  replace (yoe + era * 400 - era * 400) with yoe by lia.
  rewrite Eback. unfold doe, z'. rewrite Z.mod_eq by lia. fold z' era. lia.
Qed.

(** ** Numbers as text *)

Lemma fmt2_fixed (n : Z) : 0 <= n < 100 -> fmt2 n = fixed_width 2 n.
Proof.
  intro Hn. apply str_eqb_eq.
  assert (check_from 100 0 (fmt_check 2) = true) as Hc by (vm_compute; reflexivity).
  apply (@check_from_spec 100 0 (fmt_check 2) Hc). lia.
Qed.

Lemma fmt3_fixed (n : Z) : 0 <= n < 1000 -> fmt3 n = fixed_width 3 n.
Proof.
  intro Hn. apply str_eqb_eq.
  assert (check_from 1000 0 (fmt_check 3) = true) as Hc by (vm_compute; reflexivity).
  apply (@check_from_spec 1000 0 (fmt_check 3) Hc). lia.
Qed.

Lemma fmt_year_checked :
  check_from (Z.to_nat 12000) 0 fmt_year_check = true.
Proof. vm_cast_no_check (eq_refl true). Qed.

Lemma fmt_year_four (y : Z) : 0 <= y < 10000 -> fmt_year y = fixed_width 4 y.
Proof.
  intro Hy. apply str_eqb_eq.
  pose proof (@check_from_spec _ 0 fmt_year_check fmt_year_checked y) as Hc.
  rewrite Z2Nat.id in Hc by lia. specialize (Hc ltac:(lia)).
  unfold fmt_year_check in Hc.
  destruct (Z.ltb_spec y 10000); [exact Hc|lia].
Qed.

Lemma fmt_year_five (y : Z) : 10000 <= y < 12000 -> fmt_year y = fixed_width 5 y.
Proof.
  intro Hy. apply str_eqb_eq.
  pose proof (@check_from_spec _ 0 fmt_year_check fmt_year_checked y) as Hc.
  rewrite Z2Nat.id in Hc by lia. specialize (Hc ltac:(lia)).
  unfold fmt_year_check in Hc.
  destruct (Z.ltb_spec y 10000); [lia|exact Hc].
Qed.

Lemma fixed_width_length (w : nat) (n : Z) : length (fixed_width w n) = w.
Proof. unfold fixed_width. rewrite length_map. apply digits_length. Qed.

Lemma digit_value_char (d : Z) : 0 <= d < 10 -> digit_value (digit_char d) = Some d.
Proof.
  intro Hd.
  assert (check_from 10 0 (fun d => match digit_value (digit_char d) with
                                    | Some v => v =? d
                                    | None => false
                                    end) = true) as Hc by (vm_compute; reflexivity).
  pose proof (@check_from_spec 10 0 _ Hc d ltac:(lia)) as H. cbv beta in H.
  destruct (digit_value (digit_char d)) as [v|]; [|discriminate H].
  f_equal. lia.
Qed.

Lemma digit_value_code (c : ascii) (d : Z) :
  digit_value c = Some d -> d = char_code c - 48 /\ 0 <= d < 10.
Proof.
  unfold digit_value. cbv zeta.
  destruct ((48 <=? char_code c) && (char_code c <=? 57)) eqn:E; [|discriminate].
  intro H. injection H as <-. lia.
Qed.

Lemma leading_digits_fixed (ds : list Z) :
  Forall (fun d => 0 <= d < 10) ds -> leading_digits (map digit_char ds) = ds.
Proof.
  induction 1 as [|d ds Hd _ IH]; cbn [map leading_digits].
  - reflexivity.
  - rewrite digit_value_char by assumption. rewrite IH. reflexivity.
Qed.

(** A field that holds a number printed at its full width parses to it. *)
Lemma parse_u32_fixed (s : list ascii) (pos len : nat) (n : Z) :
  firstn len (skipn pos s) = fixed_width len n ->
  (0 < len)%nat -> 0 <= n < 10 ^ Z.of_nat len -> n <= 4294967295 ->
  parse_u32 s pos len = Some n.
Proof.
  intros Hf Hlen Hn Hmax. unfold parse_u32, from_chars. rewrite Hf.
  unfold fixed_width.
  rewrite leading_digits_fixed by (apply digits_range; lia).
  destruct (digits 10 len n) as [|d ds] eqn:Ed.
  - pose proof (digits_length 10 len n) as L. rewrite Ed in L. cbn in L. lia.
  - rewrite <- Ed. fold (horner 10 (digits 10 len n) 0).
    rewrite horner_digits, Z.mod_small by lia.
    destruct (Z.gtb_spec n 4294967295) as [G|_]; [lia|].
    cbn [fcr_ec fcr_ptr fcr_value]. rewrite digits_length, Nat.eqb_refl.
    reflexivity.
Qed.

Lemma leading_digits_length (f : list ascii) :
  (length (leading_digits f) <= length f)%nat.
Proof.
  induction f as [|c f IH]; cbn [leading_digits length]; [lia|].
  destruct (digit_value c); cbn [length]; lia.
Qed.

Lemma leading_digits_all (f : list ascii) :
  length (leading_digits f) = length f ->
  Forall (fun c => is_digit c = true) f
  /\ leading_digits f = map (fun c => char_code c - 48) f.
Proof.
  induction f as [|c f IH]; cbn [leading_digits length map]; intro H.
  - split; [constructor|reflexivity].
  - destruct (digit_value c) as [d|] eqn:Ec.
    + cbn [length] in H. destruct (IH ltac:(lia)) as [IF IE].
      destruct (digit_value_code _ Ec) as [Ed _].
      split; [constructor; [unfold is_digit; rewrite Ec; reflexivity|assumption]|congruence].
    + cbn in H. lia.
Qed.

(** What a successful [parse_u32] tells about the field. *)
Lemma parse_u32_some (s : list ascii) (pos len : nat) (v : Z) :
  parse_u32 s pos len = Some v ->
  v = number_at s pos len
  /\ forall i, (i < len)%nat -> is_digit (nth (pos + i) s "000"%char) = true.
Proof.
  unfold parse_u32, from_chars, number_at.
  set (f := firstn len (skipn pos s)).
  destruct (leading_digits f) as [|d ds] eqn:El; cbn [fcr_ec]; [discriminate|].
  rewrite <- El.
  destruct (fold_left (fun a d0 => a * 10 + d0) (leading_digits f) 0 >? 4294967295);
    cbn [fcr_ec fcr_ptr fcr_value]; [discriminate|].
  destruct (Nat.eqb_spec (length (leading_digits f)) len) as [L|]; [|discriminate].
  intro H. injection H as <-.
  assert (length f <= len)%nat as Lf by (unfold f; apply firstn_le_length).
  pose proof (leading_digits_length f) as Ll.
  destruct (leading_digits_all f ltac:(lia)) as [Hall Eall].
  split; [rewrite Eall; reflexivity|].
  intros i Hi. rewrite Forall_forall in Hall.
  replace (nth (pos + i) s "000"%char) with (nth i f "000"%char).
  - apply Hall. apply nth_In. lia.
  - unfold f. rewrite nth_firstn.
    destruct (Nat.ltb_spec i len); [|lia]. apply nth_skipn.
Qed.

(** ** The two parts of the canonical text *)

Lemma to_string_parts (u : ulid_t) :
  ulid_ok u ->
  firstn 10 (to_string u) = map encoding_char (digits 32 10 (timestamp_ms u))
  /\ skipn 10 (to_string u) = map encoding_char (digits 32 16 (random_value u)).
Proof.
  intro Hu. rewrite to_string_digits by assumption.
  change 26%nat with (10 + 16)%nat. rewrite digits_split by lia.
  rewrite map_app.
  assert (length (map encoding_char (digits 32 10 (value128 u / 32 ^ Z.of_nat 16)))
          = 10%nat) as L by (rewrite length_map; apply digits_length).
  pose proof (random_value_bounds Hu) as Br.
  assert (value128 u / 32 ^ Z.of_nat 16 = timestamp_ms u) as Et.
  { rewrite (value128_split Hu). change (32 ^ Z.of_nat 16) with (2 ^ 80).
    rewrite Z.div_add_l, (Z.div_small (random_value u)) by lia. lia. }
  assert (digits 32 16 (value128 u) = digits 32 16 (random_value u)) as Er.
  { rewrite <- (digits_mod (B := 32) 16 (value128 u)) by lia.
    f_equal. rewrite (value128_split Hu). change (32 ^ Z.of_nat 16) with (2 ^ 80).
    rewrite Z.add_comm, Z.mod_add by lia. apply Z.mod_small. exact Br. }
  rewrite Et in L. rewrite Et, Er. split.
  - rewrite firstn_app, L, Nat.sub_diag, firstn_0, app_nil_r.
    apply firstn_all2. lia.
  - rewrite skipn_app, L, Nat.sub_diag, skipn_0.
    rewrite skipn_all2 by lia. reflexivity.
Qed.

Lemma timestamp_only_ok (ms : Z) : ulid_ok (timestamp_only ms).
Proof.
  destruct (write_big_endian_ok 6 ms) as [WL WF].
  apply ulid_ok_iff. unfold timestamp_only, set_timestamp_bytes, ulid_zero.
  cbn [data]. split.
  - rewrite length_app, WL. reflexivity.
  - apply Forall_app. split; [assumption|].
    cbn. repeat constructor; unfold is_byte; lia.
Qed.

Lemma timestamp_only_ms (ms : Z) :
  0 <= ms < 2 ^ 48 -> timestamp_ms (timestamp_only ms) = ms.
Proof.
  intro Hms. rewrite timestamp_ms_horner by apply timestamp_only_ok.
  unfold timestamp_only, set_timestamp_bytes, timestamp_bytes. cbn [data].
  rewrite write_big_endian_digits.
  rewrite firstn_app, digits_length, Nat.sub_diag, firstn_0, app_nil_r.
  rewrite firstn_all2 by (rewrite digits_length; lia).
  rewrite horner_digits by lia. apply Z.mod_small. exact Hms.
Qed.

(** Splicing the randomness characters of [u] behind the timestamp
    characters rebuilds the canonical text of [u]. *)
Lemma splice_canonical (u : ulid_t) :
  ulid_ok u ->
  firstn 10 (to_string (timestamp_only (timestamp_ms u)))
  ++ skipn 10 (to_string u) = to_string u.
Proof.
  intro Hu. pose proof (timestamp_ms_bounds Hu) as Bt.
  destruct (to_string_parts (timestamp_only_ok (timestamp_ms u))) as [E1 _].
  destruct (to_string_parts Hu) as [E2 _].
  rewrite E1, timestamp_only_ms, <- E2 by assumption.
  apply firstn_skipn.
Qed.

(** ** The date and time of a timestamp *)

Lemma timestamp_date (ms : Z) :
  0 <= ms < 2 ^ 48 ->
  let '(y, m, d) := civil_from_days (ms / 1000 / 86400) in
  days_from_civil y m d = ms / 1000 / 86400
  /\ 1 <= m <= 12 /\ 1 <= d <= last_day_of_month y m /\ 1600 <= y <= 11200.
Proof.
  intro Hms.
  assert (0 <= ms / 1000 / 86400 <= 3257812) as Hz.
  { split.
    - apply Z.div_pos; [apply Z.div_pos|]; lia.
    - apply Z.lt_succ_r. apply Z.div_lt_upper_bound; [lia|].
      apply Z.div_lt_upper_bound; lia. }
  pose proof (@civil_from_days_spec (ms / 1000 / 86400) ltac:(lia)) as Hs.
  destruct (civil_from_days (ms / 1000 / 86400)) as [[y m] d].
  destruct Hs as (E & Hm & Hd & Hy).
  split; [exact E|]. split; [exact Hm|]. split; [exact Hd|].
  assert (4 <= (ms / 1000 / 86400 + 719468) / 146097 <= 27) as He.
  { split.
    - apply Z.div_le_lower_bound; lia.
    - apply Z.lt_succ_r. apply Z.div_lt_upper_bound; lia. }
  lia.
Qed.

Lemma last_day_le_31 (y m : Z) : last_day_of_month y m <= 31.
Proof.
  unfold last_day_of_month.
  destruct (m =? 2); [destruct (is_leap y); lia|].
  destruct ((m =? 4) || (m =? 6) || (m =? 9) || (m =? 11)); lia.
Qed.

Lemma time_of_day (ms : Z) :
  0 <= ms ->
  let sod := (ms / 1000) mod 86400 in
  0 <= sod / 3600 <= 23 /\ 0 <= sod mod 3600 / 60 <= 59
  /\ 0 <= sod mod 60 <= 59 /\ 0 <= ms mod 1000 <= 999
  /\ ms / 1000 / 86400 * 86400000 + sod / 3600 * 3600000
     + sod mod 3600 / 60 * 60000 + sod mod 60 * 1000 + ms mod 1000 = ms.
Proof.
  intros Hms sod.
  pose proof (Z.mod_pos_bound (ms / 1000) 86400 ltac:(lia)) as Bs. fold sod in Bs.
  pose proof (Z.div_mod (ms / 1000) 86400 ltac:(lia)) as E1. fold sod in E1.
  pose proof (Z.div_mod ms 1000 ltac:(lia)) as E2.
  pose proof (Z.mod_pos_bound ms 1000 ltac:(lia)) as B2.
  pose proof (Z.div_mod sod 3600 ltac:(lia)) as E3.
  pose proof (Z.mod_pos_bound sod 3600 ltac:(lia)) as B3.
  pose proof (Z.div_mod (sod mod 3600) 60 ltac:(lia)) as E4.
  pose proof (Z.mod_pos_bound (sod mod 3600) 60 ltac:(lia)) as B4.
  assert (sod mod 60 = (sod mod 3600) mod 60) as E5.
  { rewrite (Z.div_mod sod 3600) at 1 by lia.
    replace (3600 * (sod / 3600)) with ((60 * (sod / 3600)) * 60) by lia.
    rewrite Z.add_comm, Z.mod_add by lia. reflexivity. }
  rewrite E5.
  set (q1 := ms / 1000 / 86400) in *. set (q2 := ms / 1000) in *.
  set (h := sod / 3600) in *. set (r3 := sod mod 3600) in *.
  set (mi := r3 / 60) in *. set (se := r3 mod 60) in *.
  set (r := ms mod 1000) in *.
  lia.
Qed.

(** ** Reading a well-formed readable text *)

Lemma datetime_fixed_length (y m d sod msr : Z) :
  length (datetime_fixed y m d sod msr) = 19%nat.
Proof.
  unfold datetime_fixed. rewrite !length_app, !fixed_width_length. reflexivity.
Qed.

Lemma from_readable_fixed (y m d sod msr : Z) (tail : list ascii) :
  0 <= y <= 9999 -> 1 <= m <= 12 -> 1 <= d <= last_day_of_month y m ->
  0 <= sod < 86400 -> 0 <= msr <= 999 -> length tail = 16%nat ->
  from_readable_string (datetime_fixed y m d sod msr ++ tail) =
    let dur := days_from_civil y m d * 86400000 + sod / 3600 * 3600000
               + sod mod 3600 / 60 * 60000 + sod mod 60 * 1000 + msr in
    if dur <? 0 then None
    else from_string (firstn 10 (to_string (timestamp_only dur)) ++ tail).
Proof.
  intros Hy Hm Hd Hsod Hmsr Htail.
  pose proof (last_day_le_31 y m) as H31.
  assert (0 <= sod / 3600 <= 23) as Hh
      by (split; [apply Z.div_pos; lia|apply Z.lt_succ_r, Z.div_lt_upper_bound; lia]).
  pose proof (Z.mod_pos_bound sod 3600 ltac:(lia)) as B3.
  assert (0 <= sod mod 3600 / 60 <= 59) as Hmi
      by (split; [apply Z.div_pos; lia|apply Z.lt_succ_r, Z.div_lt_upper_bound; lia]).
  pose proof (Z.mod_pos_bound sod 60 ltac:(lia)) as Hse.
  set (s := datetime_fixed y m d sod msr ++ tail).
  assert (parse_u32 s 0 4 = Some y) as P1
      by (apply parse_u32_fixed; [reflexivity|lia|cbn; lia|lia]).
  assert (parse_u32 s 4 2 = Some m) as P2
      by (apply parse_u32_fixed; [reflexivity|lia|cbn; lia|lia]).
  assert (parse_u32 s 6 2 = Some d) as P3
      by (apply parse_u32_fixed; [reflexivity|lia|cbn; lia|lia]).
  assert (parse_u32 s 9 2 = Some (sod / 3600)) as P4
      by (apply parse_u32_fixed; [reflexivity|lia|cbn; lia|lia]).
  assert (parse_u32 s 11 2 = Some (sod mod 3600 / 60)) as P5
      by (apply parse_u32_fixed; [reflexivity|lia|cbn; lia|lia]).
  assert (parse_u32 s 13 2 = Some (sod mod 60)) as P6
      by (apply parse_u32_fixed; [reflexivity|lia|cbn; lia|lia]).
  assert (parse_u32 s 15 3 = Some msr) as P7
      by (apply parse_u32_fixed; [reflexivity|lia|cbn; lia|lia]).
  assert (length s = 35%nat) as Ls
      by (unfold s; rewrite length_app, datetime_fixed_length, Htail; reflexivity).
  assert (nth 8 s "000"%char = "T"%char) as N8 by reflexivity.
  assert (nth 18 s "000"%char = "Z"%char) as N18 by reflexivity.
  assert (skipn 19 s = tail) as Sk by reflexivity.
  unfold from_readable_string.
  rewrite Ls, N8, N18, P1, P2, P3, P4, P5, P6, P7, Sk.
  cbn [Nat.eqb negb orb char_eqb].
  replace (Ascii.eqb "T" "T") with true by reflexivity.
  replace (Ascii.eqb "Z" "Z") with true by reflexivity.
  cbn [negb orb].
  replace ((m =? 0) || (m >? 12) || (d =? 0) || (d >? 31) || (sod / 3600 >? 23)
           || (sod mod 3600 / 60 >? 59) || (sod mod 60 >? 59) || (msr >? 999))
    with false by (symmetry; repeat (apply orb_false_iff; split); lia).
  replace (ymd_ok y m d) with true by (symmetry; unfold ymd_ok; lia).
  cbn [negb]. cbv zeta.
  rewrite (firstn_all2 (n := 16) tail) by lia.
  rewrite (skipn_all2 (n := 10 + 16)) by (rewrite to_string_length; cbn; lia).
  rewrite app_nil_r. reflexivity.
Qed.

(** ** The readable text of a value *)

Lemma skipn10_length (u : ulid_t) : length (skipn 10 (to_string u)) = 16%nat.
Proof. rewrite length_skipn, to_string_length. reflexivity. Qed.

(** Up to the year 9999 every field has its full width. *)
Lemma to_readable_string_fixed (u : ulid_t) :
  ulid_ok u -> year_of_ms (timestamp_ms u) <= 9999 ->
  let ms := timestamp_ms u in
  let '(y, m, d) := civil_from_days (ms / 1000 / 86400) in
  to_readable_string u
  = datetime_fixed y m d ((ms / 1000) mod 86400) (ms mod 1000)
    ++ skipn 10 (to_string u).
Proof.
  intros Hu Hyear ms. pose proof (timestamp_ms_bounds Hu) as Bt. fold ms in Bt.
  unfold to_readable_string, year_of_ms in *. fold ms in Hyear |- *. cbv zeta.
  pose proof (@timestamp_date ms Bt) as Hd.
  destruct (civil_from_days (ms / 1000 / 86400)) as [[y m] d].
  destruct Hd as (_ & Hm & Hd & Hy).
  pose proof (last_day_le_31 y m) as H31.
  destruct (@time_of_day ms ltac:(lia)) as (Hh & Hmi & Hse & Hr & _).
  rewrite Z.rem_mod_nonneg by lia.
  rewrite fmt_year_four, !fmt2_fixed, fmt3_fixed by lia.
  unfold datetime_fixed. rewrite <- !app_assoc. reflexivity.
Qed.

(** From the year 10000 on the year takes five characters. *)
Lemma to_readable_string_long (u : ulid_t) :
  ulid_ok u -> 9999 < year_of_ms (timestamp_ms u) ->
  length (to_readable_string u) = 36%nat.
Proof.
  intros Hu Hyear. pose proof (timestamp_ms_bounds Hu) as Bt.
  unfold to_readable_string, year_of_ms in *. cbv zeta.
  set (ms := timestamp_ms u) in *.
  pose proof (@timestamp_date ms Bt) as Hd.
  destruct (civil_from_days (ms / 1000 / 86400)) as [[y m] d].
  destruct Hd as (_ & Hm & Hd & Hy).
  pose proof (last_day_le_31 y m) as H31.
  destruct (@time_of_day ms ltac:(lia)) as (Hh & Hmi & Hse & Hr & _).
  rewrite Z.rem_mod_nonneg by lia.
  rewrite fmt_year_five, !fmt2_fixed, fmt3_fixed by lia.
  rewrite !length_app, !fixed_width_length, skipn10_length. reflexivity.
Qed.

(** Reading the readable text of a value whose year has four digits gives
    the value back. *)
Lemma readable_roundtrip (u : ulid_t) :
  ulid_ok u -> year_of_ms (timestamp_ms u) <= 9999 ->
  from_readable_string (to_readable_string u) = Some u.
Proof.
  intros Hu Hyear. pose proof (timestamp_ms_bounds Hu) as Bt.
  pose proof (to_readable_string_fixed Hu Hyear) as Et. cbv zeta in Et.
  unfold year_of_ms in Hyear.
  set (ms := timestamp_ms u) in *.
  pose proof (@timestamp_date ms Bt) as Hd.
  destruct (civil_from_days (ms / 1000 / 86400)) as [[y m] d].
  destruct Hd as (Ez & Hm & Hd & Hy).
  destruct (@time_of_day ms ltac:(lia)) as (Hh & Hmi & Hse & Hr & Esum).
  rewrite Et.
  rewrite from_readable_fixed;
    [|lia|lia|lia|apply Z.mod_pos_bound; lia|lia|apply skipn10_length].
  cbv zeta. rewrite Ez, Esum.
  destruct (Z.ltb_spec ms 0) as [L|_]; [lia|].
  unfold ms. rewrite splice_canonical by assumption.
  apply from_string_to_string. assumption.
Qed.

Lemma readable_long_rejected (u : ulid_t) :
  ulid_ok u -> 9999 < year_of_ms (timestamp_ms u) ->
  from_readable_string (to_readable_string u) = None.
Proof.
  intros Hu Hyear. unfold from_readable_string.
  rewrite (to_readable_string_long Hu Hyear). reflexivity.
Qed.

(** ** What an accepted readable text looks like *)

Lemma from_readable_accepts (s : list ascii) (u : ulid_t) :
  from_readable_string s = Some u ->
  let year := number_at s 0 4 in
  let month := number_at s 4 2 in
  let day := number_at s 6 2 in
  let hour := number_at s 9 2 in
  let minute := number_at s 11 2 in
  let second := number_at s 13 2 in
  let millis := number_at s 15 3 in
  length s = 35%nat
  /\ nth 8 s "000"%char = "T"%char /\ nth 18 s "000"%char = "Z"%char
  /\ (forall i, In i field_positions -> is_digit (nth i s "000"%char) = true)
  /\ 1 <= month <= 12 /\ 1 <= day <= last_day_of_month year month
  /\ hour <= 23 /\ minute <= 59 /\ second <= 59 /\ millis <= 999
  /\ 0 <= days_from_civil year month day * 86400000 + hour * 3600000
          + minute * 60000 + second * 1000 + millis.
Proof.
  unfold from_readable_string.
  destruct (Nat.eqb_spec (length s) 35) as [Ls|]; [|discriminate].
  cbn [negb orb].
  destruct (char_eqb (nth 8 s "000"%char) "T") eqn:E8; [|discriminate].
  destruct (char_eqb (nth 18 s "000"%char) "Z") eqn:E18; [|discriminate].
  cbn [negb orb].
  destruct (parse_u32 s 0 4) as [y|] eqn:P1; [|discriminate].
  destruct (parse_u32 s 4 2) as [m|] eqn:P2; [|discriminate].
  destruct (parse_u32 s 6 2) as [d|] eqn:P3; [|discriminate].
  destruct (parse_u32 s 9 2) as [h|] eqn:P4; [|discriminate].
  destruct (parse_u32 s 11 2) as [mi|] eqn:P5; [|discriminate].
  destruct (parse_u32 s 13 2) as [se|] eqn:P6; [|discriminate].
  destruct (parse_u32 s 15 3) as [ms|] eqn:P7; [|discriminate].
  destruct ((m =? 0) || (m >? 12) || (d =? 0) || (d >? 31) || (h >? 23)
            || (mi >? 59) || (se >? 59) || (ms >? 999)) eqn:Er; [discriminate|].
  destruct (ymd_ok y m d) eqn:Eok; [|discriminate]. cbn [negb]. cbv zeta.
  destruct (Z.ltb_spec (days_from_civil y m d * 86400000 + h * 3600000
                        + mi * 60000 + se * 1000 + ms) 0) as [|Hdur]; [discriminate|].
  intros _.
  destruct (parse_u32_some _ _ _ P1) as [-> D1].
  destruct (parse_u32_some _ _ _ P2) as [-> D2].
  destruct (parse_u32_some _ _ _ P3) as [-> D3].
  destruct (parse_u32_some _ _ _ P4) as [-> D4].
  destruct (parse_u32_some _ _ _ P5) as [-> D5].
  destruct (parse_u32_some _ _ _ P6) as [-> D6].
  destruct (parse_u32_some _ _ _ P7) as [-> D7].
  unfold char_eqb in E8, E18. apply Ascii.eqb_eq in E8, E18.
  repeat (apply orb_false_iff in Er; destruct Er as [Er ?]).
  unfold ymd_ok in Eok.
  repeat (apply andb_true_iff in Eok; destruct Eok as [Eok ?]).
  split; [exact Ls|]. split; [exact E8|]. split; [exact E18|].
  split.
  - intros i Hi. unfold field_positions in Hi. cbn in Hi.
    repeat (destruct Hi as [<-|Hi];
            [first [apply (D1 0%nat); lia | apply (D1 1%nat); lia
                   | apply (D1 2%nat); lia | apply (D1 3%nat); lia
                   | apply (D2 0%nat); lia | apply (D2 1%nat); lia
                   | apply (D3 0%nat); lia | apply (D3 1%nat); lia
                   | apply (D4 0%nat); lia | apply (D4 1%nat); lia
                   | apply (D5 0%nat); lia | apply (D5 1%nat); lia
                   | apply (D6 0%nat); lia | apply (D6 1%nat); lia
                   | apply (D7 0%nat); lia | apply (D7 1%nat); lia
                   | apply (D7 2%nat); lia]|]).
    destruct Hi.
  - repeat split; try lia; assumption.
Qed.

(** ** Bits 128 and 129 *)

Lemma high_bits (V : Z) :
  0 <= V < 2 ^ 130 ->
  (V <? 2 ^ 128) = false
  <-> (Z.testbit V 128 = true \/ Z.testbit V 129 = true).
Proof.
  intro HV. rewrite Z.ltb_ge, !Z.testbit_true by lia.
  pose proof (Z.div_mod V (2 ^ 128) ltac:(lia)) as E1.
  pose proof (Z.mod_pos_bound V (2 ^ 128) ltac:(lia)) as B1.
  assert (V / 2 ^ 129 = V / 2 ^ 128 / 2) as E2
      by (rewrite Z.div_div by lia; reflexivity).
  rewrite E2.
  assert (0 <= V / 2 ^ 128 < 4) as Bq
      by (split; [apply Z.div_pos; lia|apply Z.div_lt_upper_bound; lia]).
  remember (V / 2 ^ 128) as q eqn:Eq. clear Eq E2.
  assert (q = 0 \/ q = 1 \/ q = 2 \/ q = 3) as Hq by lia.
  destruct Hq as [Hq|[Hq|[Hq|Hq]]]; subst q; cbn; lia.
Qed.

(** ** The two kinds of call of the monotonic generator *)

Section MonotonicSteps.
Context {E : Type} `{RandomBitEngine E}.
Variable salt : Z.

Lemma primed_parts (st : @mono_state E) :
  primed st ->
  have_last st = true /\ (exists g, rng st = Some g) /\ ulid_ok (last st).
Proof.
  unfold primed, primedb. intro Hp.
  apply andb_true_iff in Hp. destruct Hp as [Hp Hok].
  apply andb_true_iff in Hp. destruct Hp as [Hh Hr].
  split; [exact Hh|]. split; [|exact Hok].
  destruct (rng st) as [g|]; [eauto|discriminate].
Qed.

(** What a call does when the clock has not advanced. *)
Lemma generate_monotonic_bump (st : @mono_state E) (ts : Z) :
  primed st -> ts <= last_ts st ->
  generate_monotonic salt st ts =
    (set_random_bytes (last st) (increment_big_endian (random_bytes (last st))),
     mk_mono (rng st)
       (set_random_bytes (last st) (increment_big_endian (random_bytes (last st))))
       (last_ts st) true).
Proof.
  intros Hp Hts. destruct (primed_parts Hp) as (Hh & (g & Hg) & Hok).
  unfold generate_monotonic. cbv zeta. rewrite Hh. cbn [negb orb].
  destruct (Z.gtb_spec ts (last_ts st)) as [G|_]; [lia|].
  rewrite Hg. reflexivity.
Qed.

(** What a call does when the clock has advanced. *)
Lemma generate_monotonic_fresh (st : @mono_state E) (ts : Z) :
  last_ts st < ts ->
  timestamp_bytes (fst (generate_monotonic salt st ts)) = write_big_endian 6 ts
  /\ last_ts (snd (generate_monotonic salt st ts)) = ts.
Proof.
  intro Hts. unfold generate_monotonic. cbv zeta.
  destruct (Z.gtb_spec ts (last_ts st)) as [_|G]; [|lia].
  rewrite orb_true_r.
  destruct (fill_random 10 (the_rng salt (rng st) ts)) as [bs g'].
  cbn [fst snd last_ts]. split; [|reflexivity].
  unfold timestamp_bytes, set_random_bytes, set_timestamp_bytes. cbn [data].
  destruct (write_big_endian_ok 6 ts) as [WL _].
  assert (firstn 6 (write_big_endian 6 ts ++ skipn 6 (data (last st)))
          = write_big_endian 6 ts) as EA.
  { rewrite firstn_app, WL, Nat.sub_diag, firstn_0, app_nil_r.
    apply firstn_all2. lia. }
  rewrite EA, firstn_app, WL, Nat.sub_diag, firstn_0, app_nil_r.
  apply firstn_all2. lia.
Qed.
End MonotonicSteps.

(** ** The shape of the readable text up to the year 9999 *)

Lemma to_readable_string_shape (u : ulid_t) :
  ulid_ok u -> year_of_ms (timestamp_ms u) <= 9999 ->
  length (to_readable_string u) = 35%nat
  /\ nth 8 (to_readable_string u) "000"%char = "T"%char
  /\ nth 18 (to_readable_string u) "000"%char = "Z"%char
  /\ (forall i, In i field_positions ->
        is_digit (nth i (to_readable_string u) "000"%char) = true)
  /\ skipn 19 (to_readable_string u) = skipn 10 (to_string u).
Proof.
  intros Hu Hyear.
  pose proof (readable_roundtrip Hu Hyear) as Hrt.
  destruct (from_readable_accepts _ Hrt) as (L & E8 & E18 & Hd & _).
  split; [exact L|]. split; [exact E8|]. split; [exact E18|].
  split; [exact Hd|].
  pose proof (to_readable_string_fixed Hu Hyear) as Et. cbv zeta in Et.
  destruct (civil_from_days (timestamp_ms u / 1000 / 86400)) as [[y m] d].
  rewrite Et. reflexivity.
Qed.

(** ** Values out of the generators *)

Section GeneratedValues.
Context {E : Type} `{RandomBitEngine E}.
Variable salt : Z.

Lemma generate_timestamp (r : option E) (ts : Z) :
  timestamp_ms (fst (generate salt r ts)) = ts mod 2 ^ 48.
Proof.
  rewrite timestamp_ms_horner by apply generate_ok.
  unfold generate. cbv zeta.
  pose proof (fill_random_ok 10 (the_rng salt r ts)) as [FL _].
  destruct (fill_random 10 (the_rng salt r ts)) as [bs g']. cbn [fst] in *.
  destruct (write_big_endian_ok 6 ts) as [WL _].
  unfold timestamp_bytes, set_random_bytes, set_timestamp_bytes. cbn [data].
  assert (firstn 6 (write_big_endian 6 ts ++ skipn 6 (data ulid_zero))
          = write_big_endian 6 ts) as EA.
  { rewrite firstn_app, WL, Nat.sub_diag, firstn_0, app_nil_r.
    apply firstn_all2. lia. }
  rewrite EA, firstn_app, WL, Nat.sub_diag, firstn_0, app_nil_r.
  rewrite firstn_all2 by lia.
  rewrite write_big_endian_digits, horner_digits by lia. reflexivity.
Qed.

(** A value out of [generate] is read back from its canonical text, and
    from its readable text when the clock is not past the year 9999. *)
Lemma generate_roundtrips (r : option E) (ts : Z) :
  let v := fst (generate salt r ts) in
  from_string (to_string v) = Some v
  /\ (year_of_ms (ts mod 2 ^ 48) <= 9999 ->
      from_readable_string (to_readable_string v) = Some v).
Proof.
  intro v. pose proof (generate_ok salt r ts) as Hv. fold v in Hv.
  split; [apply from_string_to_string; assumption|].
  intro Hy. apply readable_roundtrip; [assumption|].
  unfold v. rewrite generate_timestamp. assumption.
Qed.

(** The same for [generate_monotonic], whose value carries the stored
    timestamp. *)
Lemma generate_monotonic_roundtrips (st : @mono_state E) (ts : Z) :
  (have_last st = true -> ulid_ok (last st)) ->
  let v := fst (generate_monotonic salt st ts) in
  from_string (to_string v) = Some v
  /\ (year_of_ms (timestamp_ms v) <= 9999 ->
      from_readable_string (to_readable_string v) = Some v).
Proof.
  intros Hst v.
  destruct (generate_monotonic_primed salt st ts Hst) as [Hp El].
  fold v in El. unfold primed, primedb in Hp. rewrite El in Hp.
  apply andb_true_iff in Hp. destruct Hp as [_ Hv].
  split; [apply from_string_to_string; assumption|].
  intro Hy. apply readable_roundtrip; assumption.
Qed.
End GeneratedValues.

(** ** Runs of the monotonic generator that stay increasing *)

Section MonotonicRuns.
Context {E : Type} `{RandomBitEngine E}.
Variable salt : Z.

Lemma fresh_timestamp (st : @mono_state E) (ts : Z) :
  (have_last st = true -> ulid_ok (last st)) ->
  last_ts st < ts ->
  timestamp_ms (fst (generate_monotonic salt st ts)) = ts mod 2 ^ 48.
Proof.
  intros Hst Hts.
  destruct (generate_monotonic_primed salt st ts Hst) as [Hp El].
  unfold primed, primedb in Hp. rewrite El in Hp.
  apply andb_true_iff in Hp. destruct Hp as [_ Hv].
  rewrite timestamp_ms_horner by exact Hv.
  destruct (generate_monotonic_fresh salt st Hts) as [Eb _].
  rewrite Eb, write_big_endian_digits, horner_digits by lia. reflexivity.
Qed.

(** One call: the value returned is above the value returned before. *)
Lemma generate_monotonic_step (st : @mono_state E) (ts : Z) :
  primed st -> stamped st -> 0 <= ts < 2 ^ 48 ->
  (ts <= last_ts st -> random_value (last st) < 2 ^ 80 - 1) ->
  ulid_lt (last st) (fst (generate_monotonic salt st ts))
  /\ primed (snd (generate_monotonic salt st ts))
  /\ stamped (snd (generate_monotonic salt st ts))
  /\ last (snd (generate_monotonic salt st ts)) = fst (generate_monotonic salt st ts).
Proof.
  intros Hp Hs Hts Hroom. destruct (primed_parts Hp) as (Hh & _ & Hok).
  destruct (generate_monotonic_primed salt st ts (fun _ => Hok)) as [Hp' El].
  split; [|split; [exact Hp'|split; [|exact El]]].
  - destruct (Z.le_gt_cases ts (last_ts st)) as [Le|Gt].
    + rewrite (generate_monotonic_bump salt Hp Le). cbn [fst].
      apply bumped_increases; [assumption|]. apply Hroom. assumption.
    + pose proof (fresh_timestamp st (fun _ => Hok) Gt) as Et.
      rewrite Z.mod_small in Et by assumption.
      destruct (primed_parts Hp') as (_ & _ & Hok'). rewrite El in Hok'.
      unfold ulid_lt. rewrite ulid_compare_value by assumption.
      rewrite (value128_split Hok), (value128_split Hok'), Et.
      unfold stamped in Hs. rewrite Hs.
      pose proof (random_value_bounds Hok). pose proof (random_value_bounds Hok').
      apply Z.compare_lt_iff. lia.
  - unfold stamped. rewrite El.
    destruct (Z.le_gt_cases ts (last_ts st)) as [Le|Gt].
    + rewrite (generate_monotonic_bump salt Hp Le). cbn [fst snd last_ts].
      rewrite timestamp_ms_bumped by assumption. exact Hs.
    + rewrite (fresh_timestamp st (fun _ => Hok) Gt), Z.mod_small by assumption.
      symmetry. apply (generate_monotonic_fresh salt st Gt).
Qed.

(** One call on a full counter: the value returned is below the value
    returned before, whatever the engine. *)
Lemma generate_monotonic_wraps (st : @mono_state E) (ts : Z) :
  primed st -> ts <= last_ts st -> random_value (last st) = 2 ^ 80 - 1 ->
  ulid_lt (fst (generate_monotonic salt st ts)) (last st).
Proof.
  intros Hp Hts Hfull. destruct (primed_parts Hp) as (_ & _ & Hok).
  rewrite (generate_monotonic_bump salt Hp Hts). cbn [fst].
  apply bumped_wraps; assumption.
Qed.

(** A run from a primed state: as long as the clock fits in 48 bits and
    no call finds the counter full, the values increase strictly. *)
Lemma run_monotonic_increasing (clock : list Z) :
  forall st : @mono_state E,
  primed st -> stamped st ->
  Forall (fun ts => 0 <= ts < 2 ^ 48) clock ->
  no_wrap salt st clock ->
  strictly_increasing (last st :: fst (run_monotonic salt st clock)).
Proof.
  induction clock as [|ts rest IH]; intros st Hp Hs Hc Hn.
  - exact I.
  - inversion Hc as [|? ? Hts Hrest]; subst. destruct Hn as [Hroom Hn].
    destruct (primed_parts Hp) as (Hh & _ & _).
    destruct (@generate_monotonic_step st ts Hp Hs Hts (Hroom Hh))
      as (Hlt & Hp' & Hs' & El).
    specialize (IH _ Hp' Hs' Hrest Hn).
    cbn [run_monotonic].
    destruct (generate_monotonic salt st ts) as [u st1]. cbn [fst snd] in *.
    destruct (run_monotonic salt st1 rest) as [us st2]. cbn [fst] in *.
    subst u. split; assumption.
Qed.

(** A run in a fresh context. *)
Lemma run_monotonic_from_start (clock : list Z) :
  Forall (fun ts => 0 <= ts < 2 ^ 48) clock ->
  no_wrap salt mono_init clock ->
  strictly_increasing (fst (run_monotonic salt (@mono_init E) clock)).
Proof.
  intros Hc Hn. destruct clock as [|ts rest]; [exact I|].
  inversion Hc as [|? ? Hts Hrest]; subst. destruct Hn as [_ Hn].
  assert (have_last (@mono_init E) = true -> ulid_ok (last (@mono_init E))) as H0
      by (intros _; reflexivity).
  destruct (generate_monotonic_primed salt mono_init ts H0) as [Hp El].
  assert (stamped (snd (generate_monotonic salt (@mono_init E) ts))) as Hs.
  { unfold stamped. rewrite El.
    unfold generate_monotonic, mono_init. cbn [have_last negb orb rng last last_ts].
    pose proof (fresh_ok ulid_zero ts (the_rng salt None ts)) as Hok.
    pose proof (fill_random_ok 10 (the_rng salt None ts)) as [FL _].
    cbv zeta.
    destruct (fill_random 10 (the_rng salt None ts)) as [bs g'].
    cbn [fst snd last_ts] in *.
    rewrite timestamp_ms_horner by exact Hok.
    destruct (write_big_endian_ok 6 ts) as [WL _].
    unfold timestamp_bytes, set_random_bytes, set_timestamp_bytes. cbn [data].
    assert (firstn 6 (write_big_endian 6 ts ++ skipn 6 (data ulid_zero))
            = write_big_endian 6 ts) as EA.
    { rewrite firstn_app, WL, Nat.sub_diag, firstn_0, app_nil_r.
      apply firstn_all2. lia. }
    rewrite EA, firstn_app, WL, Nat.sub_diag, firstn_0, app_nil_r.
    rewrite firstn_all2 by lia.
    rewrite write_big_endian_digits, horner_digits by lia.
    apply Z.mod_small. assumption. }
  pose proof (@run_monotonic_increasing rest _ Hp Hs Hrest Hn) as Hrun.
  cbn [run_monotonic].
  destruct (generate_monotonic salt mono_init ts) as [u st1]. cbn [fst snd] in *.
  destruct (run_monotonic salt st1 rest) as [us st2]. cbn [fst] in *.
  subst u. exact Hrun.
Qed.
End MonotonicRuns.

(** ** Dates follow the day count *)

Lemma day_key_era (z : Z) :
  -719468 <= z ->
  day_key z = era_key ((z + 719468) mod 146097)
              + 204800 * ((z + 719468) / 146097).
Proof.
  intro Hz. unfold day_key, civil_from_days, era_key. cbv zeta.
  assert (z + 719468 - (z + 719468) / 146097 * 146097
          = (z + 719468) mod 146097) as ->
      by (rewrite Z.mod_eq by lia; lia).
  destruct (civil_of_doe ((z + 719468) mod 146097)) as [[yoe m] d].
  unfold date_key. destruct (m <=? 2); lia.
Qed.

Lemma day_key_succ (z : Z) : -719468 <= z -> day_key z < day_key (z + 1).
Proof.
  intro Hz. rewrite !day_key_era by lia.
  replace (z + 1 + 719468) with (z + 719468 + 1) by lia.
  set (z' := z + 719468).
  pose proof (Z.div_mod z' 146097 ltac:(lia)) as E.
  pose proof (Z.mod_pos_bound z' 146097 ltac:(lia)) as B.
  destruct (Z.eq_dec (z' mod 146097) 146096) as [Elast|Nlast].
  - assert ((z' + 1) / 146097 = z' / 146097 + 1) as Eq
        by (symmetry; apply (Z.div_unique _ _ _ 0); lia).
    assert ((z' + 1) mod 146097 = 0) as Er
        by (symmetry; apply (Z.mod_unique _ _ (z' / 146097 + 1)); lia).
    rewrite Eq, Er, Elast.
    change (era_key 146096) with 204893. change (era_key 0) with 97. lia.
  - assert ((z' + 1) / 146097 = z' / 146097) as Eq
        by (symmetry; apply (Z.div_unique _ _ _ (z' mod 146097 + 1)); lia).
    assert ((z' + 1) mod 146097 = z' mod 146097 + 1) as Er
        by (symmetry; apply (Z.mod_unique _ _ (z' / 146097)); lia).
    rewrite Eq, Er.
    pose proof (@era_key_succ (z' mod 146097) ltac:(lia)). lia.
Qed.

Lemma day_key_monotone (z1 z2 : Z) :
  -719468 <= z1 -> z1 < z2 -> day_key z1 < day_key z2.
Proof.
  intros H1 H12.
  replace z2 with (z1 + 1 + Z.of_nat (Z.to_nat (z2 - z1 - 1))) by lia.
  induction (Z.to_nat (z2 - z1 - 1)) as [|k IH].
  - rewrite Z.add_0_r. apply day_key_succ. assumption.
  - rewrite Nat2Z.inj_succ.
    replace (z1 + 1 + Z.succ (Z.of_nat k)) with (z1 + 1 + Z.of_nat k + 1) by lia.
    pose proof (@day_key_succ (z1 + 1 + Z.of_nat k) ltac:(lia)). lia.
Qed.

Lemma day_key_compare (z1 z2 : Z) :
  -719468 <= z1 -> -719468 <= z2 ->
  (day_key z1 ?= day_key z2) = (z1 ?= z2).
Proof.
  intros H1 H2. destruct (Z.compare_spec z1 z2) as [->|L|G].
  - apply Z.compare_refl.
  - apply Z.compare_lt_iff. apply day_key_monotone; assumption.
  - apply Z.compare_gt_iff. apply day_key_monotone; assumption.
Qed.

(** ** Comparing field by field *)

Lemma compare_pair (B a b a' b' : Z) :
  0 <= b < B -> 0 <= b' < B ->
  (a * B + b ?= a' * B + b')
  = match a ?= a' with Eq => b ?= b' | c => c end.
Proof.
  intros Hb Hb'. destruct (Z.compare_spec a a') as [->|L|G].
  - destruct (Z.compare_spec b b');
      [apply Z.compare_eq_iff|apply Z.compare_lt_iff|apply Z.compare_gt_iff]; lia.
  - apply Z.compare_lt_iff. nia.
  - apply Z.compare_gt_iff. nia.
Qed.

Lemma lex_compare_app {A : Type} (cmp : A -> A -> comparison)
    (p1 p2 r1 r2 : list A) :
  length p1 = length p2 ->
  lex_compare cmp (p1 ++ r1) (p2 ++ r2)
  = match lex_compare cmp p1 p2 with
    | Eq => lex_compare cmp r1 r2
    | c => c
    end.
Proof.
  revert p2. induction p1 as [|x p1 IH]; intros [|y p2] Hlen;
    try discriminate Hlen.
  - reflexivity.
  - cbn [app lex_compare]. destruct (cmp x y); trivial.
    apply IH. injection Hlen as Hlen. exact Hlen.
Qed.

Lemma digit_char_monotone (x y : Z) :
  0 <= x < 10 -> 0 <= y < 10 ->
  char_compare (digit_char x) (digit_char y) = (x ?= y).
Proof.
  intros Hx Hy.
  assert (check_from 10 0 (fun i => check_from 10 0 (fun j =>
            match char_compare (digit_char i) (digit_char j), i ?= j with
            | Eq, Eq | Lt, Lt | Gt, Gt => true
            | _, _ => false
            end)) = true) as Hc by (vm_compute; reflexivity).
  pose proof (@check_from_spec 10 0 _ Hc x ltac:(lia)) as H1. cbv beta in H1.
  pose proof (@check_from_spec 10 0 _ H1 y ltac:(lia)) as H2. cbv beta in H2.
  destruct (char_compare (digit_char x) (digit_char y)), (x ?= y);
    try reflexivity; discriminate H2.
Qed.

(** Two numbers printed at one width compare as texts as they do as
    numbers. *)
Lemma fixed_width_compare (w : nat) (x y : Z) (r1 r2 : list ascii) :
  0 <= x < 10 ^ Z.of_nat w -> 0 <= y < 10 ^ Z.of_nat w ->
  str_compare (fixed_width w x ++ r1) (fixed_width w y ++ r2)
  = match x ?= y with Eq => str_compare r1 r2 | c => c end.
Proof.
  intros Hx Hy. unfold str_compare.
  rewrite lex_compare_app by (rewrite !fixed_width_length; reflexivity).
  unfold fixed_width.
  rewrite (@lex_compare_map Z ascii Z.compare char_compare digit_char
             (fun d => 0 <= d < 10) digit_char_monotone)
    by (apply digits_range; lia).
  rewrite (lex_compare_horner (B := 10)) by
    (try apply digits_range; try lia; rewrite !digits_length; reflexivity).
  rewrite !horner_digits, !Z.mod_small by lia. reflexivity.
Qed.

Lemma same_char_compare (c : ascii) (r1 r2 : list ascii) :
  str_compare (c :: r1) (c :: r2) = str_compare r1 r2.
Proof.
  unfold str_compare. cbn [lex_compare]. unfold char_compare.
  rewrite Z.compare_refl. reflexivity.
Qed.

(** ** The order of readable texts up to the year 9999 *)

(** The date and time packed into one number. *)
Lemma datetime_fixed_compare (y m d sod r y' m' d' sod' r' : Z)
    (t1 t2 : list ascii) :
  0 <= y <= 9999 -> 1 <= m <= 12 -> 1 <= d <= 31 ->
  0 <= sod < 86400 -> 0 <= r <= 999 ->
  0 <= y' <= 9999 -> 1 <= m' <= 12 -> 1 <= d' <= 31 ->
  0 <= sod' < 86400 -> 0 <= r' <= 999 ->
  str_compare (datetime_fixed y m d sod r ++ t1)
              (datetime_fixed y' m' d' sod' r' ++ t2)
  = match (date_key y m d * 86400 + sod) * 1000 + r
          ?= (date_key y' m' d' * 86400 + sod') * 1000 + r' with
    | Eq => str_compare t1 t2
    | c => c
    end.
Proof.
  intros Hy Hm Hd Hsod Hr Hy' Hm' Hd' Hsod' Hr'.
  pose proof (Z.div_mod sod 3600 ltac:(lia)) as E1.
  pose proof (Z.mod_pos_bound sod 3600 ltac:(lia)) as B1.
  pose proof (Z.div_mod (sod mod 3600) 60 ltac:(lia)) as E2.
  pose proof (Z.mod_pos_bound (sod mod 3600) 60 ltac:(lia)) as B2.
  pose proof (Z.div_mod sod' 3600 ltac:(lia)) as E1'.
  pose proof (Z.mod_pos_bound sod' 3600 ltac:(lia)) as B1'.
  pose proof (Z.div_mod (sod' mod 3600) 60 ltac:(lia)) as E2'.
  pose proof (Z.mod_pos_bound (sod' mod 3600) 60 ltac:(lia)) as B2'.
  assert (sod mod 60 = (sod mod 3600) mod 60) as E3.
  { rewrite (Z.div_mod sod 3600) at 1 by lia.
    replace (3600 * (sod / 3600)) with ((60 * (sod / 3600)) * 60) by lia.
    rewrite Z.add_comm, Z.mod_add by lia. reflexivity. }
  assert (sod' mod 60 = (sod' mod 3600) mod 60) as E3'.
  { rewrite (Z.div_mod sod' 3600) at 1 by lia.
    replace (3600 * (sod' / 3600)) with ((60 * (sod' / 3600)) * 60) by lia.
    rewrite Z.add_comm, Z.mod_add by lia. reflexivity. }
  unfold datetime_fixed, lit. cbn [list_ascii_of_string].
  rewrite E3, E3'.
  set (h := sod / 3600) in *. set (mi := sod mod 3600 / 60) in *.
  set (s := (sod mod 3600) mod 60) in *.
  set (h' := sod' / 3600) in *. set (mi' := sod' mod 3600 / 60) in *.
  set (s' := (sod' mod 3600) mod 60) in *.
  assert (0 <= h <= 23) as Hh by (unfold h; split;
    [apply Z.div_pos; lia|apply Z.lt_succ_r, Z.div_lt_upper_bound; lia]).
  assert (0 <= h' <= 23) as Hh' by (unfold h'; split;
    [apply Z.div_pos; lia|apply Z.lt_succ_r, Z.div_lt_upper_bound; lia]).
  assert (0 <= mi <= 59) as Hmi by (unfold mi; split;
    [apply Z.div_pos; lia|apply Z.lt_succ_r, Z.div_lt_upper_bound; lia]).
  assert (0 <= mi' <= 59) as Hmi' by (unfold mi'; split;
    [apply Z.div_pos; lia|apply Z.lt_succ_r, Z.div_lt_upper_bound; lia]).
  replace ((date_key y m d * 86400 + sod) * 1000 + r)
    with ((((((y * 16 + m) * 32 + d) * 24 + h) * 60 + mi) * 60 + s) * 1000 + r)
    by (unfold date_key; lia).
  replace ((date_key y' m' d' * 86400 + sod') * 1000 + r')
    with ((((((y' * 16 + m') * 32 + d') * 24 + h') * 60 + mi') * 60 + s') * 1000 + r')
    by (unfold date_key; lia).
  rewrite !compare_pair by lia.
  rewrite <- !app_assoc.
  rewrite (fixed_width_compare 4) by (cbn; lia).
  rewrite (fixed_width_compare 2) by (cbn; lia).
  rewrite (fixed_width_compare 2) by (cbn; lia).
  cbn [app]. rewrite same_char_compare.
  rewrite (fixed_width_compare 2) by (cbn; lia).
  rewrite (fixed_width_compare 2) by (cbn; lia).
  rewrite (fixed_width_compare 2) by (cbn; lia).
  rewrite (fixed_width_compare 3) by (cbn; lia).
  cbn [app]. rewrite same_char_compare.
  destruct (y ?= y'), (m ?= m'), (d ?= d'), (h ?= h'), (mi ?= mi'),
    (s ?= s'), (r ?= r'); reflexivity.
Qed.

Lemma tail_compare (a b : ulid_t) :
  ulid_ok a -> ulid_ok b ->
  str_compare (skipn 10 (to_string a)) (skipn 10 (to_string b))
  = (random_value a ?= random_value b).
Proof.
  intros Ha Hb.
  destruct (to_string_parts Ha) as [_ ->]. destruct (to_string_parts Hb) as [_ ->].
  unfold str_compare.
  rewrite (@lex_compare_map Z ascii Z.compare char_compare encoding_char
             (fun d => 0 <= d < 32) encoding_char_monotone)
    by (apply digits_range; lia).
  rewrite (lex_compare_horner (B := 32)) by
    (try apply digits_range; try lia; rewrite !digits_length; reflexivity).
  rewrite !horner_digits by lia.
  pose proof (random_value_bounds Ha). pose proof (random_value_bounds Hb).
  rewrite !Z.mod_small by (change (32 ^ Z.of_nat 16) with (2 ^ 80); lia).
  reflexivity.
Qed.

(** Up to the year 9999 the readable texts compare as the values do. *)
Lemma to_readable_string_compare (a b : ulid_t) :
  ulid_ok a -> ulid_ok b ->
  year_of_ms (timestamp_ms a) <= 9999 -> year_of_ms (timestamp_ms b) <= 9999 ->
  str_compare (to_readable_string a) (to_readable_string b) = ulid_compare a b.
Proof.
  intros Ha Hb Hya Hyb.
  pose proof (to_readable_string_fixed Ha Hya) as Ea. cbv zeta in Ea.
  pose proof (to_readable_string_fixed Hb Hyb) as Eb. cbv zeta in Eb.
  pose proof (timestamp_ms_bounds Ha) as Ba.
  pose proof (timestamp_ms_bounds Hb) as Bb.
  rewrite ulid_compare_value by assumption.
  rewrite (value128_split Ha), (value128_split Hb).
  rewrite compare_pair by (apply random_value_bounds; assumption).
  unfold year_of_ms in Hya, Hyb.
  set (ma := timestamp_ms a) in *. set (mb := timestamp_ms b) in *.
  pose proof (@timestamp_date ma Ba) as Da.
  pose proof (@timestamp_date mb Bb) as Db.
  assert (day_key (ma / 1000 / 86400)
          = let '(y, m, d) := civil_from_days (ma / 1000 / 86400) in date_key y m d)
    as Ka by reflexivity.
  assert (day_key (mb / 1000 / 86400)
          = let '(y, m, d) := civil_from_days (mb / 1000 / 86400) in date_key y m d)
    as Kb by reflexivity.
  destruct (civil_from_days (ma / 1000 / 86400)) as [[ya mo_a] da].
  destruct (civil_from_days (mb / 1000 / 86400)) as [[yb mo_b] db].
  destruct Da as (_ & Hma & Hda & Hyra). destruct Db as (_ & Hmb & Hdb & Hyrb).
  pose proof (last_day_le_31 ya mo_a). pose proof (last_day_le_31 yb mo_b).
  pose proof (Z.mod_pos_bound (ma / 1000) 86400 ltac:(lia)) as Sa.
  pose proof (Z.mod_pos_bound (mb / 1000) 86400 ltac:(lia)) as Sb.
  pose proof (Z.mod_pos_bound ma 1000 ltac:(lia)) as Ra.
  pose proof (Z.mod_pos_bound mb 1000 ltac:(lia)) as Rb.
  rewrite Ea, Eb, datetime_fixed_compare by lia.
  rewrite tail_compare by assumption.
  rewrite <- Ka, <- Kb.
  assert (0 <= ma / 1000 / 86400) as Za
      by (apply Z.div_pos; [apply Z.div_pos|]; lia).
  assert (0 <= mb / 1000 / 86400) as Zb
      by (apply Z.div_pos; [apply Z.div_pos|]; lia).
  assert (ma = (ma / 1000 / 86400 * 86400 + (ma / 1000) mod 86400) * 1000
               + ma mod 1000) as Ema.
  { pose proof (Z.div_mod (ma / 1000) 86400 ltac:(lia)).
    pose proof (Z.div_mod ma 1000 ltac:(lia)). lia. }
  assert (mb = (mb / 1000 / 86400 * 86400 + (mb / 1000) mod 86400) * 1000
               + mb mod 1000) as Emb.
  { pose proof (Z.div_mod (mb / 1000) 86400 ltac:(lia)).
    pose proof (Z.div_mod mb 1000 ltac:(lia)). lia. }
  replace (ma ?= mb)
    with ((ma / 1000 / 86400 * 86400 + (ma / 1000) mod 86400) * 1000 + ma mod 1000
          ?= (mb / 1000 / 86400 * 86400 + (mb / 1000) mod 86400) * 1000 + mb mod 1000)
    by (rewrite <- Ema, <- Emb; reflexivity).
  rewrite !compare_pair by lia.
  rewrite day_key_compare by lia. reflexivity.
Qed.

Lemma to_readable_string_order (a b : ulid_t) :
  ulid_ok a -> ulid_ok b ->
  year_of_ms (timestamp_ms a) <= 9999 -> year_of_ms (timestamp_ms b) <= 9999 ->
  (ulid_lt a b <-> str_lt (to_readable_string a) (to_readable_string b)).
Proof.
  intros Ha Hb Hya Hyb. unfold ulid_lt, str_lt.
  rewrite to_readable_string_compare by assumption. reflexivity.
Qed.

(** * The claims *)

(** ** Canonical text *)

(** C3: for every array [b] of sixteen bytes, decoding the canonical text
    of [from_bytes b] succeeds and returns a value whose bytes are [b]. *)
Theorem C3_canonical_roundtrip (b : list Z) :
  ulid_ok (mk_ulid b) ->
  exists v, from_string (to_string (from_bytes b)) = Some v /\ to_bytes v = b.
Proof.
  intro Hb. exists (mk_ulid b).
  pose proof (proj1 (ulid_ok_iff _) Hb) as [Hlen _]. cbn [data] in Hlen.
  rewrite from_bytes_id by assumption.
  split; [apply from_string_to_string; assumption|reflexivity].
Qed.

Lemma C3_canonical_roundtrip_witness :
  let b := [1; 86; 62; 58; 181; 211; 214; 118; 76; 97; 239; 185; 147; 2; 189; 91] in
  ulid_ok (mk_ulid b)
  /\ exists v, from_string (to_string (from_bytes b)) = Some v /\ to_bytes v = b.
Proof.
  intro b. split; [reflexivity|].
  apply (@C3_canonical_roundtrip b). reflexivity.
Defined.


(** C4: [from_string s] is absent exactly when [s] does not have 26
    characters, or some character of [s] is not accepted (the Crockford
    symbols, case-insensitively, with [O o] for 0 and [I i L l] for 1), or
    the value accumulated from the 26 digits has bit 128 or bit 129 set;
    the text made of ['8'] and twenty-five ['0'] is refused. *)
Theorem C4_from_string_absent :
  (forall s : list ascii,
     from_string s = None <->
     (length s <> 26%nat
      \/ (exists c, In c s /\ accepted c = false)
      \/ (exists ds, decode_all s = Some ds
                     /\ (Z.testbit (horner 32 ds 0) 128 = true
                         \/ Z.testbit (horner 32 ds 0) 129 = true))))
  /\ from_string ("8"%char :: repeat "0"%char 25) = None.
Proof.
  split; [|vm_compute; reflexivity].
  intro s. rewrite from_string_spec.
  destruct (Nat.eqb_spec (length s) 26) as [L|L]; cbn [negb].
  - destruct (decode_all s) as [ds|] eqn:Ed.
    + destruct (decode_all_range _ Ed) as [Ll Hr].
      pose proof (horner_bounds (B := 32) ltac:(lia) Hr) as Hb.
      rewrite Ll, L in Hb. change (32 ^ Z.of_nat 26) with (2 ^ 130) in Hb.
      pose proof (high_bits Hb) as Hh. cbv zeta.
      destruct (horner 32 ds 0 <? 2 ^ 128) eqn:Elt.
      * split; [discriminate|]. intros [C|[C|C]].
        -- contradiction.
        -- apply decode_all_none_iff in C. congruence.
        -- destruct C as (ds' & E' & Hbits).
           assert (ds' = ds) as -> by congruence.
           apply Hh in Hbits. discriminate Hbits.
      * split; [|reflexivity]. intros _. right. right.
        exists ds. split; [reflexivity|]. apply Hh. reflexivity.
    + split; [|reflexivity]. intros _. right. left.
      apply decode_all_none_iff. assumption.
  - split; [|reflexivity]. intros _. left. assumption.
Qed.

(** C10: when [from_string] accepts [s], the canonical text of the value
    it returns is [s] with each character replaced by its canonical
    form, so every one of the 26 positions keeps its digit value. *)
Theorem C10_from_string_canonicalizes (s : list ascii) (v : ulid_t) :
  from_string s = Some v ->
  to_string v = map canonical_char s
  /\ decode_all (to_string v) = decode_all s.
Proof.
  intro H. destruct (to_string_from_string _ H) as (L & Hv & ds & Ed & Es & _).
  rewrite Es. split.
  - apply decode_all_canonical. assumption.
  - rewrite Ed. apply decode_all_encoding.
    apply (decode_all_range _ Ed).
Qed.

Lemma C10_from_string_canonicalizes_witness :
  let s := lit "o1arz3ndeKtSv4rrffq69g5fav" in
  let v := mk_ulid [1; 86; 62; 58; 181; 211; 214; 118; 76; 97; 239; 185; 147; 2; 189; 91] in
  from_string s = Some v
  /\ to_string v = map canonical_char s
  /\ decode_all (to_string v) = decode_all s.
Proof.
  intros s v. split; [vm_compute; reflexivity|].
  apply (@C10_from_string_canonicalizes s v). vm_compute. reflexivity.
Defined.

(** ** The monotonic generator *)

(** C5: in the primed state, a call whose clock reading [t] is not above
    [last_ts] keeps the stored timestamp and adds exactly one to the
    80-bit randomness field read as a big-endian counter, all-ones
    wrapping to all-zeros; a reading below [last_ts] is handled as a
    reading equal to it. *)
Theorem C5_same_millisecond_bump {E : Type} `{RandomBitEngine E}
    (salt : Z) (st : @mono_state E) (t : Z) :
  primed st -> t <= last_ts st ->
  let u := fst (generate_monotonic salt st t) in
  let st' := snd (generate_monotonic salt st t) in
  timestamp_bytes u = timestamp_bytes (last st)
  /\ timestamp_ms u = timestamp_ms (last st)
  /\ random_value u = (random_value (last st) + 1) mod 2 ^ 80
  /\ (random_bytes (last st) = repeat 255 10 -> random_bytes u = repeat 0 10)
  /\ last st' = u /\ last_ts st' = last_ts st /\ primed st'
  /\ generate_monotonic salt st t = generate_monotonic salt st (last_ts st).
Proof.
  intros Hp Ht u st'.
  destruct (primed_parts Hp) as (Hh & (g & Hg) & Hok).
  pose proof (generate_monotonic_bump salt Hp Ht) as Eb.
  pose proof (generate_monotonic_bump salt Hp (Z.le_refl _)) as Eb'.
  unfold u, st'. rewrite Eb, Eb'. cbn [fst snd last last_ts].
  destruct (bumped_parts Hok) as (Et & Er & Ev).
  split; [exact Et|]. split; [apply timestamp_ms_bumped; assumption|].
  split; [exact Ev|]. split.
  - intro Hfull. rewrite Er, Hfull. apply increment_big_endian_wrap.
  - split; [reflexivity|]. split; [reflexivity|]. split; [|reflexivity].
    unfold primed, primedb. cbn [have_last rng last]. rewrite Hg. cbn [andb].
    apply bumped_ok. assumption.
Qed.

Lemma C5_same_millisecond_bump_witness :
  let st := snd (generate_monotonic (E := RomuDuoJr) 0 mono_init 1700000000000) in
  let t := 1699999999000 in
  primed st /\ t <= last_ts st
  /\ (let u := fst (generate_monotonic 0 st t) in
      let st' := snd (generate_monotonic 0 st t) in
      timestamp_bytes u = timestamp_bytes (last st)
      /\ timestamp_ms u = timestamp_ms (last st)
      /\ random_value u = (random_value (last st) + 1) mod 2 ^ 80
      /\ (random_bytes (last st) = repeat 255 10 -> random_bytes u = repeat 0 10)
      /\ last st' = u /\ last_ts st' = last_ts st /\ primed st'
      /\ generate_monotonic 0 st t = generate_monotonic 0 st (last_ts st)).
Proof.
  intros st t.
  assert (primed st) as Hp by (vm_compute; reflexivity).
  assert (t <= last_ts st) as Ht by (vm_compute; discriminate).
  split; [exact Hp|]. split; [exact Ht|].
  exact (@C5_same_millisecond_bump RomuDuoJr _ 0 st t Hp Ht).
Defined.

(** C2, at a failing input. First: the engine draws ten bytes 0xFF at a
    clock reading, and the next call in the same millisecond wraps the
    counter, so that the second value is below the first. Second: the
    clock steps from [2^48 - 1] to [2^48]; the six timestamp bytes keep
    the low 48 bits only, and the second value is again below the
    first. *)
Theorem C2_monotonic_sequence_breaks :
  (let ids := fst (run_monotonic (E := AllOnes) 0 mono_init
                     [1700000000000; 1700000000000]) in
   ids = [ mk_ulid [1; 139; 207; 229; 104; 0; 255; 255; 255; 255; 255; 255; 255; 255; 255; 255];
           mk_ulid [1; 139; 207; 229; 104; 0; 0; 0; 0; 0; 0; 0; 0; 0; 0; 0] ]
   /\ ~ strictly_increasing ids)
  /\ (let ids := fst (run_monotonic (E := RomuDuoJr) 0 mono_init
                        [2 ^ 48 - 1; 2 ^ 48]) in
      map timestamp_ms ids = [2 ^ 48 - 1; 0]
      /\ ~ strictly_increasing ids).
Proof.
  split.
  - cbv zeta. split; [vm_compute; reflexivity|].
    vm_compute. intros [Hlt _]. discriminate Hlt.
  - cbv zeta. split; [vm_compute; reflexivity|].
    vm_compute. intros [Hlt _]. discriminate Hlt.
Qed.

(** ** The readable text *)

(** C7: [from_readable_string s] is absent when [s] does not have 35
    characters, or [s[8]] is not ['T'], or [s[18]] is not ['Z'], or a
    character of one of the seven numeric fields is not a digit, or the
    month is outside 1..12, or the day does not exist in that month of
    that year, or the hour is above 23, the minute or the second above
    59, the millisecond above 999, or the date is before the Unix
    epoch. *)
Theorem C7_readable_rejections (s : list ascii) :
  readable_rejected s -> from_readable_string s = None.
Proof.
  intro Hrej. destruct (from_readable_string s) as [u|] eqn:E; [|reflexivity].
  exfalso. pose proof (from_readable_accepts _ E) as Ha. cbv zeta in Ha.
  destruct Ha as (Ls & E8 & E18 & Hdig & Hm & Hd & Hh & Hmi & Hse & Hms & Hdur).
  unfold readable_rejected in Hrej. cbv zeta in Hrej.
  destruct Hrej as [C|[C|[C|[C|[C|[C|[C|[C|[C|[C|[C|[C|C]]]]]]]]]]]]; try lia;
    try contradiction.
  destruct C as (i & Hi & Hnd). rewrite (Hdig i Hi) in Hnd. discriminate Hnd.
Qed.

Lemma C7_readable_rejections_witness :
  let s := lit "20250229T000000000Z0123456789ABCDEF" in
  readable_rejected s /\ from_readable_string s = None.
Proof.
  intro s.
  assert (readable_rejected s) as Hrej.
  { unfold readable_rejected. cbv zeta. do 7 right. left.
    vm_compute. reflexivity. }
  split; [exact Hrej|]. exact (@C7_readable_rejections s Hrej).
Defined.

Example readable_rejects_length_20 :
  from_readable_string (lit "20250101T000000000Z") = None.
Proof. vm_compute. reflexivity. Qed.

Example readable_rejects_month_13 :
  from_readable_string (lit "20251301T000000000Z0123456789ABCDEF") = None.
Proof. vm_compute. reflexivity. Qed.

Example readable_accepts_leap_day :
  option_map to_readable_string
    (from_readable_string (lit "20240229T000000000Z0123456789ABCDEF"))
  = Some (lit "20240229T000000000Z0123456789ABCDEF").
Proof. vm_compute. reflexivity. Qed.

(** C9: the readable round trip holds exactly up to the year 9999. For a
    value whose timestamp lies in a later year (the 48 bits reach the year
    10889) the readable text has more than 35 characters and
    [from_readable_string] refuses it; for a value whose year is at most
    9999, reading its readable text gives the value back. *)
Theorem C9_readable_roundtrip_up_to_9999 (u : ulid_t) :
  ulid_ok u ->
  (year_of_ms (timestamp_ms u) <= 9999 ->
   from_readable_string (to_readable_string u) = Some u)
  /\ (9999 < year_of_ms (timestamp_ms u) ->
      (35 < length (to_readable_string u))%nat
      /\ from_readable_string (to_readable_string u) = None)
  /\ year_of_ms (2 ^ 48 - 1) = 10889.
Proof.
  intro Hu. split; [|split].
  - apply readable_roundtrip. assumption.
  - intro Hy. rewrite (to_readable_string_long Hu Hy).
    split; [lia|]. apply readable_long_rejected; assumption.
  - vm_compute. reflexivity.
Qed.

Lemma C9_readable_roundtrip_up_to_9999_witness :
  let u := mk_ulid [1; 86; 62; 58; 181; 211; 214; 118; 76; 97; 239; 185; 147; 2; 189; 91] in
  ulid_ok u
  /\ (year_of_ms (timestamp_ms u) <= 9999 ->
      from_readable_string (to_readable_string u) = Some u)
  /\ (9999 < year_of_ms (timestamp_ms u) ->
      (35 < length (to_readable_string u))%nat
      /\ from_readable_string (to_readable_string u) = None)
  /\ year_of_ms (2 ^ 48 - 1) = 10889.
Proof.
  intro u.
  assert (ulid_ok u) as Hu by reflexivity.
  split; [exact Hu|]. exact (@C9_readable_roundtrip_up_to_9999 u Hu).
Defined.

(** C6, at a failing input: the value whose timestamp is the first
    millisecond of the year 10000 has a readable text of 36 characters,
    with a digit and not ['T'] at index 8, and ['T'] at index 9. *)
Theorem C6_readable_text_of_year_10000 :
  let u := timestamp_only first_ms_of_10000 in
  ulid_ok u
  /\ to_readable_string u = lit "100000101T000000000Z0000000000000000"
  /\ length (to_readable_string u) = 36%nat
  /\ nth 8 (to_readable_string u) "000"%char = "1"%char
  /\ nth 18 (to_readable_string u) "000"%char = "0"%char.
Proof. vm_compute. repeat split. Qed.

(** C1, at a failing input: of the two values whose timestamps are the
    last millisecond of 9999 and the first millisecond of 10000, the
    first is the smaller one, and so is its canonical text, but its
    readable text is the larger one. *)
Theorem C1_readable_order_breaks_at_year_10000 :
  let a := timestamp_only last_ms_of_9999 in
  let b := timestamp_only first_ms_of_10000 in
  ulid_ok a /\ ulid_ok b
  /\ ulid_lt a b
  /\ str_lt (to_string a) (to_string b)
  /\ to_readable_string a = lit "99991231T235959999Z0000000000000000"
  /\ to_readable_string b = lit "100000101T000000000Z0000000000000000"
  /\ str_lt (to_readable_string b) (to_readable_string a)
  /\ ~ str_lt (to_readable_string a) (to_readable_string b).
Proof.
  vm_compute. repeat split. intro H. discriminate H.
Qed.

(** C8, at a failing input: with the clock at the first millisecond of
    the year 10000, the value that [generate] returns (and the value that
    [generate_monotonic] returns) is read back from its canonical text,
    but its readable text is refused. *)
Theorem C8_generated_value_not_read_back :
  (let v := fst (generate (E := RomuDuoJr) 0 None first_ms_of_10000) in
   from_string (to_string v) = Some v
   /\ to_readable_string v = lit "100000101T000000000ZETVTPMBY73BT5YCA"
   /\ from_readable_string (to_readable_string v) = None)
  /\ (let v := fst (generate_monotonic (E := RomuDuoJr) 0 mono_init
                      first_ms_of_10000) in
      from_string (to_string v) = Some v
      /\ from_readable_string (to_readable_string v) = None).
Proof. vm_compute. repeat split. Qed.


(** * Further properties of the code *)

(** ** The canonical text *)

Lemma nth_map_seq {A : Type} (f : nat -> A) (d : A) (n i : nat) :
  (i < n)%nat -> nth i (map f (seq 0 n)) d = f i.
Proof.
  intro Hi. rewrite (nth_indep _ d (f 0%nat)) by (rewrite length_map, length_seq; exact Hi).
  rewrite (map_nth f (seq 0 n) 0%nat i), seq_nth by exact Hi. reflexivity.
Qed.

Lemma encoding_char_symbol (d : Z) :
  0 <= d < 32 -> mem_char (encoding_char d) crockford_symbols = true.
Proof.
  intro Hd.
  assert (check_from 32 0 (fun d => mem_char (encoding_char d) crockford_symbols)
          = true) as Hc by (vm_compute; reflexivity).
  apply (@check_from_spec 32 0 _ Hc d). lia.
Qed.

Lemma encoding_char_octal (d : Z) :
  0 <= d < 8 -> mem_char (encoding_char d) (lit "01234567") = true.
Proof.
  intro Hd.
  assert (check_from 8 0 (fun d => mem_char (encoding_char d) (lit "01234567"))
          = true) as Hc by (vm_compute; reflexivity).
  apply (@check_from_spec 8 0 _ Hc d). lia.
Qed.

(** X1: the canonical text of a value is the 26-digit numeral in base
    32 of the 128-bit big-endian number of its sixteen bytes, written
    with the symbols of [ENCODING]: it has 26 characters, the character
    at index [i] is the symbol of [(V / 32^(25-i)) mod 32], every
    character is a symbol of the Crockford alphabet (so no lower case
    letter and none of [I L O U]), and the first character is one of [0]
    to [7]. *)
Theorem X1_to_string_alphabet (u : ulid_t) :
  ulid_ok u ->
  length (to_string u) = 26%nat
  /\ (forall i, (i < 26)%nat ->
        nth i (to_string u) "000"%char
        = encoding_char ((value128 u / 32 ^ Z.of_nat (25 - i)) mod 32))
  /\ Forall (fun c => mem_char c crockford_symbols = true) (to_string u)
  /\ mem_char (nth 0 (to_string u) "000"%char) (lit "01234567") = true.
Proof.
  intro Hu. split; [apply to_string_length|].
  rewrite to_string_digits by assumption. split.
  { intros i Hi. rewrite <- (digits_by_index (B := 32)) by lia.
    rewrite map_map.
    apply (nth_map_seq
             (fun j => encoding_char ((value128 u / 32 ^ Z.of_nat (26 - 1 - j)) mod 32))
             "000"%char Hi). }
  split.
  - apply Forall_map.
    eapply Forall_impl; [|apply (digits_range (B := 32)); lia].
    intros d Hd. apply encoding_char_symbol. exact Hd.
  - change 26%nat with (1 + 25)%nat. rewrite digits_split by lia.
    cbn [digits app map nth].
    pose proof (value128_bounds Hu) as HV.
    apply encoding_char_octal.
    change (32 ^ Z.of_nat 25) with (2 ^ 125).
    assert (0 <= value128 u / 2 ^ 125 < 8) as Hq
        by (split; [apply Z.div_pos; lia|apply Z.div_lt_upper_bound; lia]).
    rewrite Z.mod_small; lia.
Qed.

Lemma X1_to_string_alphabet_witness :
  ulid_ok spec_example
  /\ length (to_string spec_example) = 26%nat
  /\ (forall i, (i < 26)%nat ->
        nth i (to_string spec_example) "000"%char
        = encoding_char ((value128 spec_example / 32 ^ Z.of_nat (25 - i)) mod 32))
  /\ Forall (fun c => mem_char c crockford_symbols = true) (to_string spec_example)
  /\ mem_char (nth 0 (to_string spec_example) "000"%char) (lit "01234567") = true.
Proof.
  assert (ulid_ok spec_example) as Hu by reflexivity.
  split; [exact Hu|]. exact (@X1_to_string_alphabet spec_example Hu).
Defined.

(** X2: two values compare under [operator<=>] as their canonical texts
    compare under [std::string]'s comparison: less, equal and greater
    all agree. *)
Theorem X2_canonical_text_order (a b : ulid_t) :
  ulid_ok a -> ulid_ok b ->
  str_compare (to_string a) (to_string b) = ulid_compare a b
  /\ (ulid_lt a b <-> str_lt (to_string a) (to_string b))
  /\ (to_string a = to_string b -> a = b).
Proof.
  intros Ha Hb. split; [apply to_string_compare; assumption|].
  split; [apply to_string_order; assumption|].
  intro E. pose proof (from_string_to_string Ha) as Ra.
  pose proof (from_string_to_string Hb) as Rb. congruence.
Qed.

Lemma X2_canonical_text_order_witness :
  ulid_ok spec_example /\ ulid_ok spec_example_next
  /\ str_compare (to_string spec_example) (to_string spec_example_next)
     = ulid_compare spec_example spec_example_next
  /\ (ulid_lt spec_example spec_example_next
      <-> str_lt (to_string spec_example) (to_string spec_example_next))
  /\ (to_string spec_example = to_string spec_example_next
      -> spec_example = spec_example_next).
Proof.
  assert (ulid_ok spec_example) as Ha by reflexivity.
  assert (ulid_ok spec_example_next) as Hb by reflexivity.
  split; [exact Ha|]. split; [exact Hb|].
  exact (@X2_canonical_text_order spec_example spec_example_next Ha Hb).
Defined.

(** X3: [operator<=>] orders values by timestamp first and by the
    80-bit randomness second, and two values that compare equal have the
    same bytes. *)
Theorem X3_order_by_timestamp_then_randomness (a b : ulid_t) :
  ulid_ok a -> ulid_ok b ->
  ulid_compare a b
  = match timestamp_ms a ?= timestamp_ms b with
    | Eq => random_value a ?= random_value b
    | c => c
    end
  /\ (timestamp_ms a < timestamp_ms b -> ulid_lt a b)
  /\ (ulid_compare a b = Eq -> a = b).
Proof.
  intros Ha Hb.
  assert (ulid_compare a b
          = match timestamp_ms a ?= timestamp_ms b with
            | Eq => random_value a ?= random_value b
            | c => c
            end) as Hcmp.
  { rewrite ulid_compare_value by assumption.
    rewrite (value128_split Ha), (value128_split Hb).
    apply compare_pair; apply random_value_bounds; assumption. }
  split; [exact Hcmp|]. split.
  - intro Hlt. unfold ulid_lt. rewrite Hcmp.
    apply Z.compare_lt_iff in Hlt. rewrite Hlt. reflexivity.
  - intro E. rewrite ulid_compare_value in E by assumption.
    apply Z.compare_eq_iff in E.
    rewrite <- (digits16_value128 Ha), <- (digits16_value128 Hb), E.
    reflexivity.
Qed.

Lemma X3_order_by_timestamp_then_randomness_witness :
  ulid_ok spec_example /\ ulid_ok spec_example_next
  /\ ulid_compare spec_example spec_example_next
     = match timestamp_ms spec_example ?= timestamp_ms spec_example_next with
       | Eq => random_value spec_example ?= random_value spec_example_next
       | c => c
       end
  /\ (timestamp_ms spec_example < timestamp_ms spec_example_next
      -> ulid_lt spec_example spec_example_next)
  /\ (ulid_compare spec_example spec_example_next = Eq
      -> spec_example = spec_example_next).
Proof.
  assert (ulid_ok spec_example) as Ha by reflexivity.
  assert (ulid_ok spec_example_next) as Hb by reflexivity.
  split; [exact Ha|]. split; [exact Hb|].
  exact (@X3_order_by_timestamp_then_randomness spec_example spec_example_next Ha Hb).
Defined.

Lemma decode_canonical_char (c : ascii) :
  decode_crockford (canonical_char c) = decode_crockford c.
Proof.
  pose proof (ascii_forall
    (fun c => match decode_crockford (canonical_char c), decode_crockford c with
              | Some v, Some w => v =? w
              | None, None => true
              | _, _ => false
              end) ltac:(vm_compute; reflexivity) c) as H.
  cbv beta in H.
  destruct (decode_crockford (canonical_char c)), (decode_crockford c);
    try discriminate H; trivial.
  f_equal. lia.
Qed.

Lemma decode_all_canonical_char (s : list ascii) :
  decode_all (map canonical_char s) = decode_all s.
Proof.
  induction s as [|c s IH]; cbn [map decode_all]; [reflexivity|].
  rewrite decode_canonical_char, IH. reflexivity.
Qed.

(** X4: [from_string] does not see case or the aliases: a text and its
    canonical form (lower case letters in upper case, [O o] as [0],
    [I i L l] as [1]) decode alike, and two accepted texts decode to the
    same value exactly when their canonical forms are one text. *)
Theorem X4_from_string_ignores_case_and_aliases
    (s1 s2 : list ascii) (v1 v2 : ulid_t) :
  from_string s1 = Some v1 -> from_string s2 = Some v2 ->
  (forall s : list ascii, from_string (map canonical_char s) = from_string s)
  /\ (v1 = v2 <-> map canonical_char s1 = map canonical_char s2).
Proof.
  intros H1 H2.
  assert (forall s : list ascii, from_string (map canonical_char s) = from_string s)
    as Hcanon.
  { intro s. rewrite !from_string_spec, length_map, decode_all_canonical_char.
    reflexivity. }
  split; [exact Hcanon|].
  destruct (to_string_from_string _ H1) as (_ & _ & d1 & E1 & T1 & _).
  destruct (to_string_from_string _ H2) as (_ & _ & d2 & E2 & T2 & _).
  rewrite (decode_all_canonical _ E1) in T1.
  rewrite (decode_all_canonical _ E2) in T2.
  split.
  - intros ->. congruence.
  - intro E. rewrite <- (Hcanon s1), <- (Hcanon s2), E in *. congruence.
Qed.

Lemma X4_from_string_ignores_case_and_aliases_witness :
  let s1 := lit "01arz3ndektsv4rrffq69g5fav" in
  let s2 := lit "O1ARZ3NDEKTSV4RRFFQ69G5FAV" in
  from_string s1 = Some spec_example /\ from_string s2 = Some spec_example
  /\ (forall s : list ascii, from_string (map canonical_char s) = from_string s)
  /\ (spec_example = spec_example
      <-> map canonical_char s1 = map canonical_char s2).
Proof.
  intros s1 s2.
  assert (from_string s1 = Some spec_example) as H1 by (vm_compute; reflexivity).
  assert (from_string s2 = Some spec_example) as H2 by (vm_compute; reflexivity).
  split; [exact H1|]. split; [exact H2|].
  exact (@X4_from_string_ignores_case_and_aliases s1 s2 spec_example spec_example H1 H2).
Defined.

(** X5: the value that [from_string] returns is the number that the 26
    characters write in base 32: its first ten characters give the
    timestamp and its last sixteen the randomness. *)
Theorem X5_from_string_number (s : list ascii) (v : ulid_t) :
  from_string s = Some v ->
  exists ds, decode_all s = Some ds
    /\ ulid_ok v
    /\ value128 v = horner 32 ds 0
    /\ timestamp_ms v = horner 32 (firstn 10 ds) 0
    /\ random_value v = horner 32 (skipn 10 ds) 0.
Proof.
  intro H. destruct (to_string_from_string _ H) as (L & Hv & ds & Ed & _ & Ev).
  exists ds. split; [exact Ed|]. split; [exact Hv|]. split; [exact Ev|].
  destruct (decode_all_range _ Ed) as [Ll Hr].
  pose proof (horner_bounds (B := 32) ltac:(lia) (Forall_skipn 10 Hr)) as B2.
  rewrite length_skipn, Ll, L in B2.
  change (32 ^ Z.of_nat (26 - 10)) with (2 ^ 80) in B2.
  pose proof (random_value_bounds Hv) as B1.
  assert (horner 32 ds 0
          = horner 32 (firstn 10 ds) 0 * 2 ^ 80 + horner 32 (skipn 10 ds) 0) as Es.
  { rewrite <- (firstn_skipn 10 ds) at 1.
    rewrite horner_app, horner_shift, length_skipn, Ll, L. reflexivity. }
  rewrite (value128_split Hv), Es in Ev.
  assert (timestamp_ms v = horner 32 (firstn 10 ds) 0) by nia.
  split; [assumption|]. lia.
Qed.

Lemma X5_from_string_number_witness :
  let s := lit "01ARZ3NDEKTSV4RRFFQ69G5FAV" in
  from_string s = Some spec_example
  /\ exists ds, decode_all s = Some ds
       /\ ulid_ok spec_example
       /\ value128 spec_example = horner 32 ds 0
       /\ timestamp_ms spec_example = horner 32 (firstn 10 ds) 0
       /\ random_value spec_example = horner 32 (skipn 10 ds) 0.
Proof.
  intro s.
  assert (from_string s = Some spec_example) as H by (vm_compute; reflexivity).
  split; [exact H|]. exact (@X5_from_string_number s spec_example H).
Defined.

(** ** Bytes and timestamp *)

(** X6: for sixteen bytes [b], [to_bytes (from_bytes b)] is [b], and
    [timestamp_ms] of [from_bytes b] is the big-endian number of the first
    six bytes, a number below [2^48]. *)
Theorem X6_bytes_and_timestamp (b : list Z) :
  ulid_ok (mk_ulid b) ->
  to_bytes (from_bytes b) = b
  /\ from_bytes (to_bytes (from_bytes b)) = from_bytes b
  /\ timestamp_ms (from_bytes b) = horner 256 (firstn 6 b) 0
  /\ 0 <= timestamp_ms (from_bytes b) < 2 ^ 48.
Proof.
  intro Hb. pose proof (proj1 (ulid_ok_iff _) Hb) as [Hlen _]. cbn [data] in Hlen.
  rewrite from_bytes_id by assumption. cbn [to_bytes data].
  rewrite from_bytes_id by assumption.
  split; [reflexivity|]. split; [reflexivity|].
  split; [apply (timestamp_ms_horner Hb)|apply timestamp_ms_bounds; assumption].
Qed.

Lemma X6_bytes_and_timestamp_witness :
  let b := [0; 1; 2; 3; 4; 5; 0; 7; 14; 21; 28; 35; 42; 49; 56; 63] in
  ulid_ok (mk_ulid b)
  /\ to_bytes (from_bytes b) = b
  /\ from_bytes (to_bytes (from_bytes b)) = from_bytes b
  /\ timestamp_ms (from_bytes b) = horner 256 (firstn 6 b) 0
  /\ 0 <= timestamp_ms (from_bytes b) < 2 ^ 48.
Proof.
  intro b. assert (ulid_ok (mk_ulid b)) as Hb by reflexivity.
  split; [exact Hb|]. exact (@X6_bytes_and_timestamp b Hb).
Defined.

(** X7: [write_big_endian<N>] writes [N] bytes, most significant first:
    the byte at index [i] is [(value / 256^(N-1-i)) mod 256], and read as
    a big-endian number they give [value mod 256^N], so that the bits of
    [value] above [8 N] are dropped. *)
Theorem X7_write_big_endian_low_bits (N : nat) (value : Z) :
  length (write_big_endian N value) = N
  /\ Forall is_byte (write_big_endian N value)
  /\ (forall i, (i < N)%nat ->
        nth i (write_big_endian N value) 0
        = (value / 256 ^ Z.of_nat (N - 1 - i)) mod 256)
  /\ horner 256 (write_big_endian N value) 0 = value mod 256 ^ Z.of_nat N.
Proof.
  destruct (write_big_endian_ok N value) as [WL WF].
  split; [exact WL|]. split; [exact WF|]. split.
  - intros i Hi. rewrite write_big_endian_digits.
    rewrite <- (digits_by_index (B := 256)) by lia.
    apply (nth_map_seq (fun j => (value / 256 ^ Z.of_nat (N - 1 - j)) mod 256) 0 Hi).
  - rewrite write_big_endian_digits. apply horner_digits. lia.
Qed.

(** ** The generators *)

Lemma last_cons {A : Type} (x d : A) (l : list A) :
  List.last (x :: l) d = List.last l x.
Proof.
  revert x d. induction l as [|y l IH]; intros x d; [reflexivity|].
  change (List.last (y :: l) d = List.last (y :: l) x).
  rewrite (IH y d), (IH y x). reflexivity.
Qed.

Lemma ulid_lt_trans (a b c : ulid_t) :
  ulid_ok a -> ulid_ok b -> ulid_ok c ->
  ulid_lt a b -> ulid_lt b c -> ulid_lt a c.
Proof.
  unfold ulid_lt. intros Ha Hb Hc.
  rewrite !ulid_compare_value by assumption.
  rewrite !Z.compare_lt_iff. lia.
Qed.

Lemma strictly_increasing_head (rest : list ulid_t) :
  forall u, Forall ulid_ok (u :: rest) -> strictly_increasing (u :: rest) ->
  Forall (fun v => ulid_lt u v) rest.
Proof.
  induction rest as [|v rest IH]; intros u Hok Hs; [constructor|].
  destruct Hs as [Huv Hs].
  inversion Hok as [|? ? Hu Hok']; subst.
  inversion Hok' as [|? ? Hv Hok'']; subst.
  constructor; [exact Huv|].
  pose proof (IH v Hok' Hs) as Hrest.
  rewrite Forall_forall in *. intros w Hw.
  apply (@ulid_lt_trans u v w); auto.
Qed.

Lemma strictly_increasing_pairwise (us : list ulid_t) :
  Forall ulid_ok us -> strictly_increasing us ->
  forall (d : ulid_t) (i j : nat), (i < j < length us)%nat ->
  ulid_lt (nth i us d) (nth j us d).
Proof.
  induction us as [|u rest IH]; intros Hok Hs d i j Hij; [cbn in Hij; lia|].
  pose proof (strictly_increasing_head Hok Hs) as Hh.
  destruct j as [|j]; [lia|]. cbn [length] in Hij.
  destruct i as [|i].
  - cbn [nth]. apply (proj1 (Forall_forall _ _) Hh), nth_In. lia.
  - cbn [nth]. inversion Hok as [|? ? _ Hok']; subst.
    apply IH; [exact Hok'| |lia].
    destruct rest as [|v rest']; [exact I|]. destruct Hs as [_ Hs]. exact Hs.
Qed.

Section GeneratorProperties.
Context {E : Type} `{RandomBitEngine E}.
Variable salt : Z.

Lemma fresh_parts (u : ulid_t) (ts : Z) (bs : list Z) :
  length bs = 10%nat ->
  let v := set_random_bytes (set_timestamp_bytes u (write_big_endian 6 ts)) bs in
  timestamp_bytes v = write_big_endian 6 ts /\ random_bytes v = bs.
Proof.
  intros Lb v. destruct (write_big_endian_ok 6 ts) as [WL _].
  assert (firstn 6 (write_big_endian 6 ts ++ skipn 6 (data u))
          = write_big_endian 6 ts) as EA.
  { rewrite firstn_app, WL, Nat.sub_diag, firstn_0, app_nil_r.
    apply firstn_all2. lia. }
  unfold v, timestamp_bytes, random_bytes, set_random_bytes, set_timestamp_bytes.
  cbn [data]. rewrite EA. split.
  - rewrite firstn_app, WL, Nat.sub_diag, firstn_0, app_nil_r.
    apply firstn_all2. lia.
  - rewrite skipn_app, WL, Nat.sub_diag, skipn_0.
    rewrite skipn_all2 by lia. reflexivity.
Qed.


(** The stored timestamp agrees with the stored millisecond. *)
Lemma generate_monotonic_stamp (st : @mono_state E) (ts : Z) :
  (have_last st = true ->
   primed st /\ timestamp_ms (last st) = last_ts st mod 2 ^ 48) ->
  let st' := snd (generate_monotonic salt st ts) in
  primed st'
  /\ last st' = fst (generate_monotonic salt st ts)
  /\ timestamp_ms (last st') = last_ts st' mod 2 ^ 48
  /\ last_ts st' = (if have_last st then Z.max (last_ts st) ts else ts).
Proof.
  intros Hst st'.
  assert (have_last st = true -> ulid_ok (last st)) as Hok0.
  { intro h. destruct (Hst h) as [Hp _].
    destruct (primed_parts Hp) as (_ & _ & Hok). exact Hok. }
  destruct (generate_monotonic_primed salt st ts Hok0) as [Hp El].
  fold st' in Hp, El. split; [exact Hp|]. split; [exact El|].
  destruct (have_last st) eqn:Eh.
  - destruct (Hst eq_refl) as [Hpst Hs]. pose proof (Hok0 eq_refl) as Hok.
    destruct (Z.le_gt_cases ts (last_ts st)) as [Le|Gt].
    + unfold st'. rewrite (generate_monotonic_bump salt Hpst Le).
      cbn [snd last last_ts]. rewrite timestamp_ms_bumped by assumption.
      split; [exact Hs|lia].
    + unfold st' in *. rewrite El.
      rewrite (fresh_timestamp salt st (fun _ => Hok) Gt).
      destruct (generate_monotonic_fresh salt st Gt) as [_ Elt].
      rewrite Elt. split; [reflexivity|lia].
  - unfold st'. unfold generate_monotonic. cbv zeta. rewrite Eh. cbn [negb orb].
    pose proof (fresh_ok (last st) ts (the_rng salt (rng st) ts)) as Hok.
    pose proof (fill_random_ok 10 (the_rng salt (rng st) ts)) as [FL _].
    destruct (fill_random 10 (the_rng salt (rng st) ts)) as [bs g'].
    cbn [fst snd last last_ts] in *. split; [|reflexivity].
    rewrite timestamp_ms_horner by exact Hok.
    destruct (@fresh_parts (last st) ts bs FL) as [Et _]. rewrite Et.
    rewrite write_big_endian_digits, horner_digits by lia. reflexivity.
Qed.

(** X10: after any run of [generate_monotonic] in a fresh context (at
    least one call), the state is primed, it holds the value returned
    last, [last_ts] is the largest clock reading of the run, and the
    timestamp of the stored value is [last_ts] reduced to 48 bits; every
    value returned is well formed. *)
Theorem X10_monotonic_run_state (t0 : Z) (rest : list Z) :
  let us := fst (run_monotonic salt (@mono_init E) (t0 :: rest)) in
  let st := snd (run_monotonic salt (@mono_init E) (t0 :: rest)) in
  length us = S (length rest)
  /\ Forall ulid_ok us
  /\ primed st
  /\ last st = List.last us ulid_zero
  /\ last_ts st = latest t0 rest
  /\ timestamp_ms (last st) = last_ts st mod 2 ^ 48.
Proof.
  assert (forall (clock : list Z) (st0 : @mono_state E) (u0 : ulid_t),
            primed st0 -> last st0 = u0 ->
            timestamp_ms (last st0) = last_ts st0 mod 2 ^ 48 ->
            let us := fst (run_monotonic salt st0 clock) in
            let st := snd (run_monotonic salt st0 clock) in
            length us = length clock
            /\ Forall ulid_ok us
            /\ primed st
            /\ last st = List.last us u0
            /\ last_ts st = latest (last_ts st0) clock
            /\ timestamp_ms (last st) = last_ts st mod 2 ^ 48) as Hrun.
  { induction clock as [|ts clock IH]; intros st0 u0 Hp El Hs.
    - cbn. repeat split; trivial.
    - destruct (primed_parts Hp) as (Hh & _ & Hok).
      destruct (@generate_monotonic_stamp st0 ts (fun _ => conj Hp Hs))
        as (Hp' & El' & Hs' & Et').
      rewrite Hh in Et'.
      specialize (IH _ _ Hp' El' Hs'). cbv zeta in IH.
      cbn [run_monotonic].
      destruct (generate_monotonic salt st0 ts) as [u st1]. cbn [fst snd] in *.
      destruct (run_monotonic salt st1 clock) as [us st2]. cbn [fst snd] in *.
      destruct IH as (I1 & I2 & I3 & I4 & I5 & I6).
      split; [cbn; congruence|]. split.
      + constructor; [|exact I2].
        destruct (primed_parts Hp') as (_ & _ & Hok'). rewrite El' in Hok'.
        exact Hok'.
      + split; [exact I3|]. split.
        * rewrite I4, last_cons. reflexivity.
        * split; [|exact I6]. rewrite I5, Et'. reflexivity. }
  intros us st.
  assert (have_last (@mono_init E) = true ->
          primed (@mono_init E)
          /\ timestamp_ms (last (@mono_init E)) = last_ts (@mono_init E) mod 2 ^ 48)
    as H0 by (intros Hf; discriminate Hf).
  destruct (@generate_monotonic_stamp mono_init t0 H0) as (Hp & El & Hs & Et).
  cbn [have_last mono_init] in Et.
  specialize (Hrun rest _ _ Hp El Hs). cbv zeta in Hrun.
  unfold us, st. cbn [run_monotonic].
  destruct (generate_monotonic salt mono_init t0) as [u st1]. cbn [fst snd] in *.
  destruct (run_monotonic salt st1 rest) as [us' st2]. cbn [fst snd] in *.
  destruct Hrun as (I1 & I2 & I3 & I4 & I5 & I6).
  split; [cbn; congruence|]. split.
  - constructor; [|exact I2].
    destruct (primed_parts Hp) as (_ & _ & Hok). rewrite El in Hok. exact Hok.
  - split; [exact I3|]. split.
    + rewrite I4, last_cons. reflexivity.
    + split; [|exact I6]. rewrite I5, Et. reflexivity.
Qed.

(** Along a run, every value returned is well formed and carries the
    low 48 bits of one of the clock readings seen so far. *)
Lemma run_monotonic_timestamps (Q : Z -> Prop) (clock : list Z) :
  forall st0 : @mono_state E,
  (have_last st0 = true ->
   primed st0 /\ timestamp_ms (last st0) = last_ts st0 mod 2 ^ 48
   /\ Q (last_ts st0)) ->
  Forall Q clock ->
  Forall (fun u => ulid_ok u /\ exists t, Q t /\ timestamp_ms u = t mod 2 ^ 48)
         (fst (run_monotonic salt st0 clock)).
Proof.
  induction clock as [|ts clock IH]; intros st0 Hst Hc.
  - constructor.
  - inversion Hc as [|? ? Hts Hrest]; subst.
    destruct (@generate_monotonic_stamp st0 ts
                (fun h => conj (proj1 (Hst h)) (proj1 (proj2 (Hst h)))))
      as (Hp' & El' & Hs' & Et').
    assert (Q (last_ts (snd (generate_monotonic salt st0 ts)))) as HQ.
    { rewrite Et'. destruct (have_last st0) eqn:Eh; [|exact Hts].
      destruct (Hst eq_refl) as (_ & _ & Q0).
      destruct (Z.max_spec (last_ts st0) ts) as [[_ ->]|[_ ->]]; assumption. }
    specialize (IH _ (fun _ => conj Hp' (conj Hs' HQ)) Hrest).
    cbn [run_monotonic].
    destruct (generate_monotonic salt st0 ts) as [u st1]. cbn [fst snd] in *.
    destruct (run_monotonic salt st1 clock) as [us st2]. cbn [fst snd] in *.
    constructor; [|exact IH]. subst u.
    destruct (primed_parts Hp') as (_ & _ & Hok').
    split; [exact Hok'|]. exists (last_ts st1). split; assumption.
Qed.

(** X9: when every clock reading, reduced to 48 bits, lies in a year up
    to 9999, the value out of [generate] and every value out of a run of
    [generate_monotonic] in a fresh context is read back from its
    canonical text and from its readable text. *)
Theorem X9_generated_values_read_back (r : option E) (ts : Z) (clock : list Z) :
  Forall (fun t => year_of_ms (t mod 2 ^ 48) <= 9999) (ts :: clock) ->
  (let v := fst (generate salt r ts) in
   from_string (to_string v) = Some v
   /\ from_readable_string (to_readable_string v) = Some v)
  /\ Forall (fun v => from_string (to_string v) = Some v
                      /\ from_readable_string (to_readable_string v) = Some v)
            (fst (run_monotonic salt (@mono_init E) (ts :: clock))).
Proof.
  intro Hc. split.
  - inversion Hc as [|? ? Hts _]; subst.
    destruct (generate_roundtrips salt r ts) as [R1 R2]. cbv zeta in *.
    split; [exact R1|apply R2; exact Hts].
  - assert (have_last (@mono_init E) = true ->
            primed (@mono_init E)
            /\ timestamp_ms (last (@mono_init E)) = last_ts (@mono_init E) mod 2 ^ 48
            /\ year_of_ms (last_ts (@mono_init E) mod 2 ^ 48) <= 9999)
      as H0 by (intros Hf; discriminate Hf).
    pose proof (@run_monotonic_timestamps
                  (fun t => year_of_ms (t mod 2 ^ 48) <= 9999)
                  (ts :: clock) mono_init H0 Hc) as Hall.
    eapply Forall_impl; [|exact Hall]. cbv beta.
    intros v (Hok & t & Ht & Ev). split.
    + apply from_string_to_string. exact Hok.
    + apply readable_roundtrip; [exact Hok|]. rewrite Ev. exact Ht.
Qed.

(** X11: a run of [generate_monotonic] in a fresh context returns
    strictly increasing values, provided every clock reading is below
    [2^48] and no call in a repeated or earlier millisecond finds the
    80-bit counter full: each value is below its successor, hence below
    every later one, and so are their canonical texts. *)
Theorem X11_monotonic_run_increasing (clock : list Z) :
  Forall (fun ts => 0 <= ts < 2 ^ 48) clock ->
  no_wrap salt mono_init clock ->
  let us := fst (run_monotonic salt (@mono_init E) clock) in
  strictly_increasing us
  /\ (forall i j, (i < j < length us)%nat ->
        ulid_lt (nth i us ulid_zero) (nth j us ulid_zero)
        /\ str_lt (to_string (nth i us ulid_zero)) (to_string (nth j us ulid_zero))).
Proof.
  intros Hc Hn us.
  pose proof (run_monotonic_from_start salt Hc Hn) as Hs. fold us in Hs.
  split; [exact Hs|].
  assert (Forall ulid_ok us) as Hok.
  { assert (have_last (@mono_init E) = true ->
            primed (@mono_init E)
            /\ timestamp_ms (last (@mono_init E)) = last_ts (@mono_init E) mod 2 ^ 48
            /\ True) as H0 by (intros Hf; discriminate Hf).
    pose proof (@run_monotonic_timestamps (fun _ => True) clock mono_init H0
                  (proj2 (Forall_forall _ _) (fun _ _ => I))) as Hall.
    eapply Forall_impl; [|exact Hall]. cbv beta. intros v [Hv _]. exact Hv. }
  intros i j Hij.
  pose proof (strictly_increasing_pairwise Hok Hs ulid_zero Hij) as Hlt.
  split; [exact Hlt|].
  apply to_string_order; [| |exact Hlt];
    apply (proj1 (Forall_forall _ _) Hok), nth_In; lia.
Qed.

(** X12: when a call in a repeated or earlier millisecond finds the
    counter full (all eighty bits set), the value it returns has the same
    timestamp and randomness zero, and it is below the value returned
    before. *)
Theorem X12_full_counter_wraps (st : @mono_state E) (ts : Z) :
  primed st -> ts <= last_ts st -> random_value (last st) = 2 ^ 80 - 1 ->
  let u := fst (generate_monotonic salt st ts) in
  timestamp_ms u = timestamp_ms (last st)
  /\ random_value u = 0
  /\ ulid_lt u (last st).
Proof.
  intros Hp Hts Hfull u. destruct (primed_parts Hp) as (_ & _ & Hok).
  split; [|split].
  - unfold u. rewrite (generate_monotonic_bump salt Hp Hts). cbn [fst].
    apply timestamp_ms_bumped. assumption.
  - unfold u. rewrite (generate_monotonic_bump salt Hp Hts). cbn [fst].
    destruct (bumped_parts Hok) as (_ & _ & Ev). cbv zeta in Ev.
    rewrite Ev, Hfull. reflexivity.
  - apply generate_monotonic_wraps; assumption.
Qed.
End GeneratorProperties.

Lemma X9_generated_values_read_back_witness :
  let clock := [1699999999000; 1700000000001] in
  let ts := 1700000000000 in
  Forall (fun t => year_of_ms (t mod 2 ^ 48) <= 9999) (ts :: clock)
  /\ (let v := fst (generate (E := RomuDuoJr) 7 None ts) in
      from_string (to_string v) = Some v
      /\ from_readable_string (to_readable_string v) = Some v)
  /\ Forall (fun v => from_string (to_string v) = Some v
                      /\ from_readable_string (to_readable_string v) = Some v)
            (fst (run_monotonic (E := RomuDuoJr) 7 mono_init (ts :: clock))).
Proof.
  intros clock ts.
  assert (Forall (fun t => year_of_ms (t mod 2 ^ 48) <= 9999) (ts :: clock)) as Hc.
  { apply Forall_cons; [vm_compute; discriminate|].
    apply Forall_cons; [vm_compute; discriminate|].
    apply Forall_cons; [vm_compute; discriminate|]. apply Forall_nil. }
  split; [exact Hc|].
  exact (@X9_generated_values_read_back RomuDuoJr _ 7 None ts clock Hc).
Defined.

Lemma X11_monotonic_run_increasing_witness :
  let clock := [1700000000000; 1700000000000; 1699999999000; 1700000000001] in
  Forall (fun ts => 0 <= ts < 2 ^ 48) clock
  /\ no_wrap (E := RomuDuoJr) 7 mono_init clock
  /\ (let us := fst (run_monotonic (E := RomuDuoJr) 7 mono_init clock) in
      strictly_increasing us
      /\ (forall i j, (i < j < length us)%nat ->
            ulid_lt (nth i us ulid_zero) (nth j us ulid_zero)
            /\ str_lt (to_string (nth i us ulid_zero))
                      (to_string (nth j us ulid_zero)))).
Proof.
  intro clock.
  assert (Forall (fun ts => 0 <= ts < 2 ^ 48) clock) as Hc.
  { apply Forall_cons; [vm_compute; split; [discriminate|reflexivity]|].
    apply Forall_cons; [vm_compute; split; [discriminate|reflexivity]|].
    apply Forall_cons; [vm_compute; split; [discriminate|reflexivity]|].
    apply Forall_cons; [vm_compute; split; [discriminate|reflexivity]|]. apply Forall_nil. }
  assert (no_wrap (E := RomuDuoJr) 7 mono_init clock) as Hn.
  { unfold clock. cbn [no_wrap]. split; [intro Hf; cbv in Hf; discriminate Hf|].
    split; [intros _ _; vm_compute; reflexivity|].
    split; [intros _ _; vm_compute; reflexivity|].
    split; [intros _ _; vm_compute; reflexivity|]. exact I. }
  split; [exact Hc|]. split; [exact Hn|].
  exact (@X11_monotonic_run_increasing RomuDuoJr _ 7 clock Hc Hn).
Defined.

Lemma X12_full_counter_wraps_witness :
  let st := snd (generate_monotonic (E := AllOnes) 0 mono_init 1700000000000) in
  let ts := 1700000000000 in
  primed st /\ ts <= last_ts st /\ random_value (last st) = 2 ^ 80 - 1
  /\ (let u := fst (generate_monotonic 0 st ts) in
      timestamp_ms u = timestamp_ms (last st)
      /\ random_value u = 0
      /\ ulid_lt u (last st)).
Proof.
  intros st ts.
  assert (primed st) as Hp by (vm_compute; reflexivity).
  assert (ts <= last_ts st) as Ht by (vm_compute; discriminate).
  assert (random_value (last st) = 2 ^ 80 - 1) as Hf by (vm_compute; reflexivity).
  split; [exact Hp|]. split; [exact Ht|]. split; [exact Hf|].
  exact (@X12_full_counter_wraps AllOnes _ 0 st ts Hp Ht Hf).
Defined.

(** ** The readable text *)

(** X13: for a well-formed value whose timestamp lies in a year up to
    9999 the readable text has 35 characters: digits at the fourteen
    date and time positions and the three millisecond positions, [T] at
    index 8, [Z] at index 18, and after them the last sixteen characters
    of the canonical text. *)
Theorem X13_readable_text_shape (u : ulid_t) :
  ulid_ok u -> year_of_ms (timestamp_ms u) <= 9999 ->
  length (to_readable_string u) = 35%nat
  /\ nth 8 (to_readable_string u) "000"%char = "T"%char
  /\ nth 18 (to_readable_string u) "000"%char = "Z"%char
  /\ (forall i, In i field_positions ->
        is_digit (nth i (to_readable_string u) "000"%char) = true)
  /\ skipn 19 (to_readable_string u) = skipn 10 (to_string u)
  /\ Forall (fun c => mem_char c crockford_symbols = true)
            (skipn 19 (to_readable_string u)).
Proof.
  intros Hu Hy.
  destruct (to_readable_string_shape Hu Hy) as (S1 & S2 & S3 & S4 & S5).
  split; [exact S1|]. split; [exact S2|]. split; [exact S3|].
  split; [exact S4|]. split; [exact S5|].
  rewrite S5. apply Forall_skipn.
  rewrite to_string_digits by exact Hu.
  apply Forall_forall. intros c Hc. apply in_map_iff in Hc.
  destruct Hc as (d & <- & Hd).
  apply encoding_char_symbol.
  pose proof (@digits_range 32 ltac:(lia) 26 (value128 u)) as Hr.
  apply (proj1 (Forall_forall _ _) Hr). exact Hd.
Qed.

Lemma X13_readable_text_shape_witness :
  ulid_ok spec_example /\ year_of_ms (timestamp_ms spec_example) <= 9999
  /\ length (to_readable_string spec_example) = 35%nat
  /\ nth 8 (to_readable_string spec_example) "000"%char = "T"%char
  /\ nth 18 (to_readable_string spec_example) "000"%char = "Z"%char
  /\ (forall i, In i field_positions ->
        is_digit (nth i (to_readable_string spec_example) "000"%char) = true)
  /\ skipn 19 (to_readable_string spec_example) = skipn 10 (to_string spec_example)
  /\ Forall (fun c => mem_char c crockford_symbols = true)
            (skipn 19 (to_readable_string spec_example)).
Proof.
  assert (ulid_ok spec_example) as Hu by reflexivity.
  assert (year_of_ms (timestamp_ms spec_example) <= 9999) as Hy
    by (vm_compute; discriminate).
  split; [exact Hu|]. split; [exact Hy|].
  exact (@X13_readable_text_shape spec_example Hu Hy).
Defined.

(** X14: for well-formed values with timestamps in years up to 9999,
    comparing the readable texts as strings gives the same result as
    comparing the values; so the texts sort like the values, and two
    values with the same readable text are equal. *)
Theorem X14_readable_text_order (a b : ulid_t) :
  ulid_ok a -> ulid_ok b ->
  year_of_ms (timestamp_ms a) <= 9999 -> year_of_ms (timestamp_ms b) <= 9999 ->
  str_compare (to_readable_string a) (to_readable_string b) = ulid_compare a b
  /\ (ulid_lt a b <-> str_lt (to_readable_string a) (to_readable_string b))
  /\ (to_readable_string a = to_readable_string b -> a = b).
Proof.
  intros Ha Hb Hya Hyb.
  split; [apply to_readable_string_compare; assumption|].
  split; [apply to_readable_string_order; assumption|].
  intro Eq.
  pose proof (readable_roundtrip Ha Hya) as Ra.
  pose proof (readable_roundtrip Hb Hyb) as Rb.
  rewrite Eq in Ra. congruence.
Qed.

Lemma X14_readable_text_order_witness :
  ulid_ok spec_example /\ ulid_ok spec_example_next
  /\ year_of_ms (timestamp_ms spec_example) <= 9999
  /\ year_of_ms (timestamp_ms spec_example_next) <= 9999
  /\ str_compare (to_readable_string spec_example)
                 (to_readable_string spec_example_next)
     = ulid_compare spec_example spec_example_next
  /\ (ulid_lt spec_example spec_example_next
      <-> str_lt (to_readable_string spec_example)
                 (to_readable_string spec_example_next))
  /\ (to_readable_string spec_example = to_readable_string spec_example_next
      -> spec_example = spec_example_next).
Proof.
  assert (ulid_ok spec_example) as Ha by reflexivity.
  assert (ulid_ok spec_example_next) as Hb by reflexivity.
  assert (year_of_ms (timestamp_ms spec_example) <= 9999) as Hya
    by (vm_compute; discriminate).
  assert (year_of_ms (timestamp_ms spec_example_next) <= 9999) as Hyb
    by (vm_compute; discriminate).
  split; [exact Ha|]. split; [exact Hb|]. split; [exact Hya|]. split; [exact Hyb|].
  exact (@X14_readable_text_order spec_example spec_example_next Ha Hb Hya Hyb).
Defined.

(** ** From a date to its day number and back *)

Lemma dates_back_all : check_from 400 0 year_back = true.
Proof. vm_cast_no_check (eq_refl true). Qed.

Lemma date_back_ok (yoe m d : Z) :
  0 <= yoe < 400 -> 1 <= m <= 12 ->
  1 <= d <= last_day_of_month (if m <=? 2 then yoe + 1 else yoe) m ->
  0 <= doe_of yoe m d < 146097 /\ civil_of_doe (doe_of yoe m d) = (yoe, m, d).
Proof.
  intros Hy Hm Hd.
  pose proof (last_day_le_31 (if m <=? 2 then yoe + 1 else yoe) m) as H31.
  pose proof (@check_from_spec 400 0 year_back dates_back_all yoe ltac:(lia)) as C1.
  pose proof (@check_from_spec 12 1 (month_back yoe) C1 m ltac:(lia)) as C2.
  pose proof (@check_from_spec 31 1 _ C2 d ltac:(lia)) as C3. cbv beta in C3.
  destruct (Z.leb_spec d (last_day_of_month (if m <=? 2 then yoe + 1 else yoe) m))
    as [_|]; [|lia].
  cbn [implb] in C3. unfold date_back in C3. cbv zeta in C3.
  destruct (civil_of_doe (doe_of yoe m d)) as [[yoe' m'] d'].
  repeat (apply andb_true_iff in C3; destruct C3 as [C3 ?]).
  split; [lia|]. f_equal; [f_equal|]; lia.
Qed.
(** The day number of a date that exists: where it lies in its era. *)
Lemma days_from_civil_era (y m d : Z) :
  1 <= m <= 12 -> 1 <= d <= last_day_of_month y m ->
  let y' := if m <=? 2 then y - 1 else y in
  let yoe := y' - y' / 400 * 400 in
  days_from_civil y m d = y' / 400 * 146097 + doe_of yoe m d - 719468
  /\ 0 <= doe_of yoe m d < 146097
  /\ civil_of_doe (doe_of yoe m d) = (yoe, m, d).
Proof.
  intros Hm Hd y' yoe. split; [reflexivity|].
  assert (0 <= yoe < 400) as Hyoe.
  { unfold yoe. pose proof (Z.div_mod y' 400 ltac:(lia)).
    pose proof (Z.mod_pos_bound y' 400 ltac:(lia)). lia. }
  assert (last_day_of_month (if m <=? 2 then yoe + 1 else yoe) m
          = last_day_of_month y m) as El.
  { replace y with ((if m <=? 2 then yoe + 1 else yoe) + 400 * (y' / 400)).
    - apply eq_sym, last_day_period.
    - unfold yoe, y'. destruct (m <=? 2); lia. }
  apply date_back_ok; [exact Hyoe|exact Hm|rewrite El; exact Hd].
Qed.

(** The day number of a date that exists gives the date back. *)
Lemma civil_from_days_from_civil (y m d : Z) :
  1 <= m <= 12 -> 1 <= d <= last_day_of_month y m ->
  civil_from_days (days_from_civil y m d) = (y, m, d).
Proof.
  intros Hm Hd. destruct (days_from_civil_era y Hm Hd) as (Ez & Hdoe & Ec).
  cbv zeta in Ez, Hdoe, Ec. rewrite Ez. unfold civil_from_days. cbv zeta.
  set (y' := if m <=? 2 then y - 1 else y) in *.
  set (era := y' / 400) in *. set (yoe := y' - era * 400) in *.
  replace (era * 146097 + doe_of yoe m d - 719468 + 719468)
    with (doe_of yoe m d + era * 146097) by lia.
  rewrite Z.div_add by lia. rewrite (Z.div_small _ _ Hdoe). cbn [Z.add].
  replace (doe_of yoe m d + era * 146097 - era * 146097) with (doe_of yoe m d) by lia.
  rewrite Ec. f_equal. f_equal. unfold yoe, y'. destruct (m <=? 2); lia.
Qed.

(** The day number of a date that exists is negative exactly before
    1970, and at most that of the last day of 9999 up to that year. *)
Lemma days_from_civil_bounds (y m d : Z) :
  0 <= y -> 1 <= m <= 12 -> 1 <= d <= last_day_of_month y m ->
  (0 <= days_from_civil y m d <-> 1970 <= y)
  /\ (y <= 9999 -> days_from_civil y m d <= 2932896).
Proof.
  intros Hy Hm Hd. pose proof (last_day_le_31 y m) as H31.
  pose proof (civil_from_days_from_civil y Hm Hd) as Eb.
  assert (day_key (days_from_civil y m d) = date_key y m d) as Ek
      by (unfold day_key; rewrite Eb; reflexivity).
  assert (day_key 0 = date_key 1970 1 1) as E0 by (vm_compute; reflexivity).
  assert (day_key 2932896 = date_key 9999 12 31) as E9 by (vm_compute; reflexivity).
  unfold date_key in *.
  assert (1 <= y -> -719468 <= days_from_civil y m d) as Hlow.
  { intro H1. destruct (days_from_civil_era y Hm Hd) as (Ez & Hdoe & _).
    cbv zeta in Ez, Hdoe. rewrite Ez.
    assert (0 <= (if m <=? 2 then y - 1 else y) / 400)
      by (apply Z.div_pos; [destruct (m <=? 2); lia|lia]).
    lia. }
  split; [split|].
  - intro Hz.
    pose proof (@day_key_compare (days_from_civil y m d) 0 ltac:(lia) ltac:(lia)) as Hc.
    rewrite Ek, E0 in Hc.
    destruct (Z.compare_spec (days_from_civil y m d) 0) as [C|C|C]; [|lia|].
    + rewrite Z.compare_eq_iff in Hc. lia.
    + rewrite Z.compare_gt_iff in Hc. lia.
  - intro H70.
    pose proof (@day_key_compare (days_from_civil y m d) 0 ltac:(lia) ltac:(lia)) as Hc.
    rewrite Ek, E0 in Hc.
    destruct (Z.compare_spec (days_from_civil y m d) 0) as [C|C|C]; [lia| |lia].
    rewrite Z.compare_lt_iff in Hc. lia.
  - intro H99. destruct (Z.le_gt_cases 1 y) as [H1|H1].
    + pose proof (@day_key_compare (days_from_civil y m d) 2932896
                    ltac:(lia) ltac:(lia)) as Hc.
      rewrite Ek, E9 in Hc.
      destruct (Z.compare_spec (days_from_civil y m d) 2932896) as [C|C|C]; [lia|lia|].
      rewrite Z.compare_gt_iff in Hc. lia.
    + destruct (days_from_civil_era y Hm Hd) as (Ez & Hdoe & _).
      cbv zeta in Ez, Hdoe. rewrite Ez.
      assert ((if m <=? 2 then y - 1 else y) / 400 <= 0)
        by (apply Z.div_le_upper_bound; [lia|destruct (m <=? 2); lia]).
      lia.
Qed.

(** ** Reading a readable text *)

Lemma digit_char_code (c : ascii) :
  is_digit c = true -> digit_char (char_code c - 48) = c /\ 0 <= char_code c - 48 < 10.
Proof.
  intro Hc.
  pose proof (ascii_forall
    (fun c => implb (is_digit c)
                (char_eqb (digit_char (char_code c - 48)) c
                 && (0 <=? char_code c - 48) && (char_code c - 48 <? 10)))
    ltac:(vm_compute; reflexivity) c) as H.
  cbv beta in H. rewrite Hc in H. cbn [implb] in H.
  apply andb_true_iff in H. destruct H as [H H3].
  apply andb_true_iff in H. destruct H as [H1 H2].
  unfold char_eqb in H1. apply Ascii.eqb_eq in H1. split; [exact H1|lia].
Qed.

(** A field of digits is its number at full width. *)
Lemma field_fixed (s : list ascii) (pos len : nat) :
  (pos + len <= length s)%nat ->
  (forall i, (i < len)%nat -> is_digit (nth (pos + i) s "000"%char) = true) ->
  firstn len (skipn pos s) = fixed_width len (number_at s pos len)
  /\ 0 <= number_at s pos len < 10 ^ Z.of_nat len.
Proof.
  intros Hlen Hdig. unfold number_at, fixed_width.
  set (f := firstn len (skipn pos s)).
  assert (length f = len) as Lf
      by (unfold f; rewrite length_firstn, length_skipn; lia).
  assert (Forall (fun c => is_digit c = true) f) as Hf.
  { apply Forall_forall. intros c Hc.
    destruct (In_nth f c "000"%char Hc) as (i & Hi & <-).
    replace (nth i f "000"%char) with (nth (pos + i) s "000"%char).
    - apply Hdig. lia.
    - unfold f. rewrite nth_firstn.
      destruct (Nat.ltb_spec i len); [|lia]. symmetry. apply nth_skipn. }
  assert (Forall (fun d => 0 <= d < 10) (map (fun c => char_code c - 48) f)) as Hd.
  { apply Forall_forall. intros d Hin. apply in_map_iff in Hin.
    destruct Hin as (c & <- & Hc).
    apply digit_char_code. apply (proj1 (Forall_forall _ _) Hf). exact Hc. }
  split.
  - rewrite <- Lf at 1. rewrite <- (length_map (fun c => char_code c - 48) f).
    rewrite (@digits_horner 10 ltac:(lia) _ 0 Hd).
    rewrite map_map. rewrite <- (map_id f) at 1. apply map_ext_in.
    intros c Hc. symmetry. apply digit_char_code.
    apply (proj1 (Forall_forall _ _) Hf). exact Hc.
  - rewrite <- Lf, <- (length_map (fun c => char_code c - 48) f).
    apply horner_bounds; [lia|exact Hd].
Qed.

Lemma readable_split (s : list ascii) :
  length s = 35%nat ->
  s = firstn 4 (skipn 0 s) ++ firstn 2 (skipn 4 s) ++ firstn 2 (skipn 6 s)
      ++ [nth 8 s "000"%char]
      ++ firstn 2 (skipn 9 s) ++ firstn 2 (skipn 11 s) ++ firstn 2 (skipn 13 s)
      ++ firstn 3 (skipn 15 s) ++ [nth 18 s "000"%char] ++ skipn 19 s.
Proof.
  intro Ls. do 19 (destruct s as [|? s]; [discriminate Ls|]). reflexivity.
Qed.

Lemma readable_fields_fixed (s : list ascii) :
  readable_fields s ->
  let sod := number_at s 9 2 * 3600 + number_at s 11 2 * 60 + number_at s 13 2 in
  s = datetime_fixed (number_at s 0 4) (number_at s 4 2) (number_at s 6 2)
        sod (number_at s 15 3) ++ skipn 19 s
  /\ 0 <= number_at s 0 4 <= 9999
  /\ 0 <= sod < 86400 /\ 0 <= number_at s 15 3 <= 999
  /\ sod / 3600 = number_at s 9 2
  /\ sod mod 3600 / 60 = number_at s 11 2
  /\ sod mod 60 = number_at s 13 2
  /\ length (skipn 19 s) = 16%nat.
Proof.
  intros (Ls & E8 & E18 & Hdig & Hm & Hd & Hh & Hmi & Hse) sod.
  assert (forall pos len, In (pos, len) [(0, 4); (4, 2); (6, 2); (9, 2); (11, 2);
                                         (13, 2); (15, 3)]%nat ->
          firstn len (skipn pos s) = fixed_width len (number_at s pos len)
          /\ 0 <= number_at s pos len < 10 ^ Z.of_nat len) as Hf.
  { intros pos len Hin. apply field_fixed.
    - cbn in Hin. rewrite Ls.
      repeat (destruct Hin as [Hin|Hin]; [injection Hin as <- <-; lia|]).
      destruct Hin.
    - intros i Hi. apply Hdig. unfold field_positions. cbn in Hin.
      repeat (destruct Hin as [Hin|Hin];
              [injection Hin as <- <-;
               destruct i as [|[|[|[|i]]]]; cbn; try lia; tauto|]).
      destruct Hin. }
  destruct (Hf 0 4 ltac:(cbn; tauto))%nat as [F1 B1].
  destruct (Hf 4 2 ltac:(cbn; tauto))%nat as [F2 B2].
  destruct (Hf 6 2 ltac:(cbn; tauto))%nat as [F3 B3].
  destruct (Hf 9 2 ltac:(cbn; tauto))%nat as [F4 B4].
  destruct (Hf 11 2 ltac:(cbn; tauto))%nat as [F5 B5].
  destruct (Hf 13 2 ltac:(cbn; tauto))%nat as [F6 B6].
  destruct (Hf 15 3 ltac:(cbn; tauto))%nat as [F7 B7].
  clear Hf.
  change (10 ^ Z.of_nat 4) with 10000 in B1.
  change (10 ^ Z.of_nat 2) with 100 in B2, B3, B4, B5, B6.
  change (10 ^ Z.of_nat 3) with 1000 in B7.
  assert (sod / 3600 = number_at s 9 2) as S1.
  { unfold sod. symmetry. apply (Z.div_unique _ _ _ (number_at s 11 2 * 60 + number_at s 13 2)); lia. }
  assert (sod mod 3600 = number_at s 11 2 * 60 + number_at s 13 2) as S2.
  { unfold sod. symmetry. apply (Z.mod_unique _ _ (number_at s 9 2)); lia. }
  assert (sod mod 3600 / 60 = number_at s 11 2) as S3.
  { rewrite S2. symmetry. apply (Z.div_unique _ _ _ (number_at s 13 2)); lia. }
  assert (sod mod 60 = number_at s 13 2) as S4.
  { unfold sod. symmetry.
    apply (Z.mod_unique _ _ (number_at s 9 2 * 60 + number_at s 11 2)); lia. }
  split.
  - unfold datetime_fixed. rewrite S1, S3, S4.
    rewrite <- F1, <- F2, <- F3, <- F4, <- F5, <- F6, <- F7.
    rewrite <- !app_assoc.
    rewrite (readable_split s Ls) at 1.
    rewrite E8, E18. reflexivity.
  - split; [lia|]. split; [unfold sod; lia|]. split; [lia|].
    split; [exact S1|]. split; [exact S3|]. split; [exact S4|].
    rewrite length_skipn, Ls. reflexivity.
Qed.

(** What [from_readable_string] computes once the date and time are
    well formed. *)
Lemma from_readable_string_fields (s : list ascii) :
  readable_fields s ->
  from_readable_string s =
    if readable_time s <? 0 then None
    else from_string (firstn 10 (to_string (timestamp_only (readable_time s)))
                      ++ skipn 19 s).
Proof.
  intro Hf. pose proof Hf as (_ & _ & _ & _ & Hm & Hd & _).
  destruct (readable_fields_fixed Hf) as (Es & By & Bs & Bm & S1 & S3 & S4 & Lt).
  cbv zeta in *.
  set (sod := number_at s 9 2 * 3600 + number_at s 11 2 * 60 + number_at s 13 2) in *.
  rewrite Es at 1.
  rewrite (@from_readable_fixed (number_at s 0 4) (number_at s 4 2) (number_at s 6 2)
             sod (number_at s 15 3) (skipn 19 s) By Hm Hd Bs Bm Lt).
  cbv zeta. rewrite S1, S3, S4. reflexivity.
Qed.

(** Decoding a text decodes its parts. *)
Lemma decode_all_app (a b : list ascii) :
  decode_all (a ++ b) =
    match decode_all a, decode_all b with
    | Some x, Some y => Some (x ++ y)
    | _, _ => None
    end.
Proof.
  induction a as [|c a IH]; cbn [app decode_all].
  - destruct (decode_all b); reflexivity.
  - rewrite IH. destruct (decode_crockford c); [|reflexivity].
    destruct (decode_all a); [|reflexivity].
    destruct (decode_all b); reflexivity.
Qed.

Lemma decode_all_accepted (s : list ascii) :
  Forall (fun c => accepted c = true) s <-> decode_all s <> None.
Proof.
  split.
  - intros Hall Hn. apply decode_all_none_iff in Hn. destruct Hn as (c & Hc & Hf).
    rewrite (proj1 (Forall_forall _ _) Hall c Hc) in Hf. discriminate Hf.
  - intro Hn. apply Forall_forall. intros c Hc.
    destruct (accepted c) eqn:Ea; [reflexivity|].
    exfalso. apply Hn. apply decode_all_none_iff. exists c. split; assumption.
Qed.

(** The time of a well-formed date and time: below zero exactly before
    1970, and below [2^48]; its day number is that of the date. *)
Lemma readable_time_bounds (s : list ascii) :
  readable_fields s ->
  (0 <= readable_time s <-> 1970 <= number_at s 0 4)
  /\ readable_time s <= last_ms_of_9999
  /\ (0 <= readable_time s ->
      readable_time s / 1000 / 86400
      = days_from_civil (number_at s 0 4) (number_at s 4 2) (number_at s 6 2)
      /\ (readable_time s / 1000) mod 86400
         = number_at s 9 2 * 3600 + number_at s 11 2 * 60 + number_at s 13 2
      /\ readable_time s mod 1000 = number_at s 15 3).
Proof.
  intro Hf. pose proof Hf as (_ & _ & _ & _ & Hm & Hd & Hh & Hmi & Hse).
  destruct (readable_fields_fixed Hf) as (_ & By & Bs & Bm & _).
  cbv zeta in Bs.
  destruct (@days_from_civil_bounds (number_at s 0 4) (number_at s 4 2)
              (number_at s 6 2) ltac:(lia) Hm Hd) as [D0 D9].
  specialize (D9 ltac:(lia)). unfold readable_time, last_ms_of_9999.
  set (days := days_from_civil (number_at s 0 4) (number_at s 4 2) (number_at s 6 2)) in *.
  set (sod := number_at s 9 2 * 3600 + number_at s 11 2 * 60 + number_at s 13 2) in *.
  set (ms := number_at s 15 3) in *.
  assert (days * 86400000 + number_at s 9 2 * 3600000 + number_at s 11 2 * 60000
          + number_at s 13 2 * 1000 + ms = (days * 86400 + sod) * 1000 + ms) as Et
      by (unfold sod; lia).
  rewrite Et. split; [|split].
  - rewrite <- D0. lia.
  - lia.
  - intro H0.
    assert (((days * 86400 + sod) * 1000 + ms) / 1000 = days * 86400 + sod) as E1
        by (symmetry; apply (Z.div_unique _ _ _ ms); lia).
    rewrite E1. split; [|split].
    + symmetry. apply (Z.div_unique _ _ _ sod); lia.
    + symmetry. apply (Z.mod_unique _ _ days); lia.
    + symmetry. apply (Z.mod_unique _ _ (days * 86400 + sod)); lia.
Qed.

(** The value read from a well-formed readable text. *)
Lemma from_readable_string_value (s : list ascii) (ds : list Z) :
  readable_fields s -> 0 <= readable_time s ->
  decode_all (skipn 19 s) = Some ds ->
  exists u, from_readable_string s = Some u
    /\ ulid_ok u
    /\ timestamp_ms u = readable_time s
    /\ random_value u = horner 32 ds 0
    /\ to_string u
       = firstn 10 (to_string (timestamp_only (readable_time s)))
         ++ map canonical_char (skipn 19 s).
Proof.
  intros Hf H0 Hds.
  destruct (readable_time_bounds Hf) as (_ & H9 & _). unfold last_ms_of_9999 in H9.
  set (t := readable_time s) in *.
  assert (0 <= t < 2 ^ 48) as Bt by lia.
  destruct (decode_all_range _ Hds) as [Lds Rds].
  destruct (readable_fields_fixed Hf) as (_ & _ & _ & _ & _ & _ & _ & Lt).
  rewrite Lt in Lds.
  pose proof (timestamp_only_ok t) as Hok.
  destruct (to_string_parts Hok) as [Ep _].
  rewrite (timestamp_only_ms Bt) in Ep.
  pose proof (@horner_bounds 32 ltac:(lia) ds Rds) as Bh. rewrite Lds in Bh.
  change (32 ^ Z.of_nat 16) with (2 ^ 80) in Bh.
  set (V := t * 2 ^ 80 + horner 32 ds 0).
  assert (0 <= V < 2 ^ 128) as BV by (unfold V; nia).
  exists (mk_ulid (digits 256 16 V)).
  assert (from_readable_string s = Some (mk_ulid (digits 256 16 V))) as Er.
  { rewrite (from_readable_string_fields Hf). fold t.
    destruct (Z.ltb_spec t 0) as [|_]; [lia|].
    rewrite from_string_spec.
    rewrite length_app, length_firstn, to_string_length, Lt.
    cbn [Nat.min Nat.add Nat.eqb negb].
    rewrite decode_all_app, Ep, Hds.
    rewrite decode_all_encoding by (apply digits_range; lia).
    cbv zeta. rewrite horner_app, horner_shift, Lds.
    rewrite horner_digits by lia.
    change (32 ^ Z.of_nat 16) with (2 ^ 80).
    change (32 ^ Z.of_nat 10) with (2 ^ 50).
    rewrite (Z.mod_small t) by lia. fold V.
    destruct (Z.ltb_spec V (2 ^ 128)) as [_|]; [reflexivity|lia]. }
  split; [exact Er|].
  pose proof (digits16_ok V) as HokV.
  pose proof (value128_digits16 BV) as EV.
  pose proof (value128_split HokV) as Esp.
  pose proof (random_value_bounds HokV) as Br.
  pose proof (timestamp_ms_bounds HokV) as Bts.
  rewrite EV in Esp. unfold V in Esp.
  assert (timestamp_ms (mk_ulid (digits 256 16 V)) = t
          /\ random_value (mk_ulid (digits 256 16 V)) = horner 32 ds 0) as [Ets Ern].
  { fold V in Esp |- *.
    set (a := timestamp_ms (mk_ulid (digits 256 16 V))) in *.
    set (b := random_value (mk_ulid (digits 256 16 V))) in *.
    assert (a = t) by nia. subst a. split; [assumption|]. unfold V in Esp. nia. }
  split; [exact HokV|]. split; [exact Ets|]. split; [exact Ern|].
  destruct (to_string_parts HokV) as [P1 P2].
  rewrite <- (firstn_skipn 10 (to_string (mk_ulid (digits 256 16 V)))).
  rewrite P1, P2, Ets, Ern, Ep. f_equal.
  pose proof (@digits_horner 32 ltac:(lia) ds 0 Rds) as Edh.
  rewrite Lds in Edh. rewrite Edh.
  apply decode_all_canonical. exact Hds.
Qed.

(** A text that is read is well formed. *)
Lemma from_readable_string_well_formed (s : list ascii) (u : ulid_t) :
  from_readable_string s = Some u -> readable_well_formed s.
Proof.
  intro Hs. pose proof (from_readable_accepts _ Hs) as Ha. cbv zeta in Ha.
  destruct Ha as (Ls & E8 & E18 & Hdig & Hm & Hd & Hh & Hmi & Hse & Hms & Hdur).
  assert (readable_fields s) as Hf.
  { split; [exact Ls|]. split; [exact E8|]. split; [exact E18|].
    split; [exact Hdig|]. split; [exact Hm|]. split; [exact Hd|].
    split; [exact Hh|]. split; [exact Hmi|exact Hse]. }
  fold (readable_time s) in Hdur.
  destruct (readable_time_bounds Hf) as (Hy & _ & _).
  split; [exact Hf|]. split; [apply Hy; exact Hdur|].
  rewrite (from_readable_string_fields Hf) in Hs.
  destruct (Z.ltb_spec (readable_time s) 0) as [|_]; [lia|].
  destruct (to_string_from_string _ Hs) as (_ & _ & ds & Hds & _).
  rewrite decode_all_app in Hds. apply decode_all_accepted.
  destruct (decode_all (firstn 10 (to_string (timestamp_only (readable_time s)))));
    [|discriminate Hds].
  destruct (decode_all (skipn 19 s)); [discriminate|discriminate Hds].
Qed.

(** X15: [from_readable_string] returns a value exactly for the
    well-formed texts: 35 characters, [T] at index 8 and [Z] at index
    18, digits in the seven numeric fields, a month from 1 to 12, a day
    that exists in that month of that year, an hour up to 23, a minute
    and a second up to 59, a year from 1970 on, and sixteen accepted
    characters after the [Z]. *)
Theorem X15_readable_text_accepted (s : list ascii) :
  from_readable_string s <> None <-> readable_well_formed s.
Proof.
  split.
  - destruct (from_readable_string s) as [u|] eqn:Hs; [|intro Hn; contradiction].
    intros _. apply (from_readable_string_well_formed _ Hs).
  - intros (Hf & Hy & Ht).
    destruct (readable_time_bounds Hf) as (H0 & _ & _).
    apply decode_all_accepted in Ht.
    destruct (decode_all (skipn 19 s)) as [ds|] eqn:Hds; [|contradiction].
    destruct (@from_readable_string_value s ds Hf (proj2 H0 Hy) Hds) as (u & Hu & _).
    rewrite Hu. discriminate.
Qed.

(** X16: the value read from a readable text has the millisecond count
    of the seven numeric fields as its timestamp (a count up to the last
    millisecond of 9999) and the number that the sixteen characters
    after the [Z] spell in base 32 as its randomness; its readable text
    is the text that was read, with those sixteen characters made
    canonical, and reading that text gives the value again. *)
Theorem X16_readable_text_value (s : list ascii) (u : ulid_t) :
  from_readable_string s = Some u ->
  ulid_ok u
  /\ timestamp_ms u = readable_time s
  /\ 0 <= readable_time s <= last_ms_of_9999
  /\ (exists ds, decode_all (skipn 19 s) = Some ds
                 /\ random_value u = horner 32 ds 0)
  /\ to_readable_string u = firstn 19 s ++ map canonical_char (skipn 19 s)
  /\ from_readable_string (to_readable_string u) = Some u.
Proof.
  intro Hs.
  destruct (from_readable_string_well_formed _ Hs) as (Hf & Hy & Ht).
  destruct (readable_time_bounds Hf) as (H0 & H9 & Hparts).
  apply H0 in Hy. destruct (Hparts Hy) as (Edays & Esod & Ems).
  apply decode_all_accepted in Ht.
  destruct (decode_all (skipn 19 s)) as [ds|] eqn:Hds; [|contradiction].
  destruct (@from_readable_string_value s ds Hf Hy Hds)
    as (u' & Hu' & Hok & Ets & Ern & Estr).
  assert (u' = u) by congruence. subst u'.
  pose proof Hf as (_ & _ & _ & _ & Hm & Hd & _).
  destruct (readable_fields_fixed Hf) as (Es & By & _ & _ & _ & _ & _ & Lt).
  cbv zeta in Es.
  pose proof (civil_from_days_from_civil (number_at s 0 4) Hm Hd) as Eciv.
  assert (year_of_ms (timestamp_ms u) <= 9999) as Hyear.
  { unfold year_of_ms. rewrite Ets, Edays, Eciv. lia. }
  split; [exact Hok|]. split; [exact Ets|]. split; [lia|].
  split; [exists ds; split; [reflexivity|exact Ern]|].
  split; [|apply readable_roundtrip; assumption].
  pose proof (to_readable_string_fixed Hok Hyear) as Er. cbv zeta in Er.
  rewrite Ets, Edays, Eciv, Esod, Ems in Er. rewrite Er.
  assert (skipn 10 (to_string u) = map canonical_char (skipn 19 s)) as Etail.
  { rewrite Estr, skipn_app.
    rewrite skipn_all2 by (rewrite length_firstn, to_string_length; cbn; lia).
    rewrite length_firstn, to_string_length. reflexivity. }
  rewrite Etail. f_equal.
  apply (f_equal (firstn 19)) in Es.
  rewrite firstn_app, datetime_fixed_length in Es.
  rewrite (@firstn_all2 _ 19 (datetime_fixed _ _ _ _ _)) in Es
    by (rewrite datetime_fixed_length; lia).
  cbn [Nat.sub firstn] in Es. rewrite app_nil_r in Es.
  symmetry. exact Es.
Qed.

Lemma X16_readable_text_value_witness :
  let s := lit "20240229T123456789Z0123456789abcdeO" in
  let u := mk_ulid [1; 141; 244; 220; 84; 149; 0; 68; 50; 20; 199; 66; 84; 182; 53; 192] in
  from_readable_string s = Some u
  /\ ulid_ok u
  /\ timestamp_ms u = readable_time s
  /\ 0 <= readable_time s <= last_ms_of_9999
  /\ (exists ds, decode_all (skipn 19 s) = Some ds
                 /\ random_value u = horner 32 ds 0)
  /\ to_readable_string u = firstn 19 s ++ map canonical_char (skipn 19 s)
  /\ from_readable_string (to_readable_string u) = Some u.
Proof.
  intros s u.
  assert (from_readable_string s = Some u) as Hs by (vm_compute; reflexivity).
  split; [exact Hs|]. exact (@X16_readable_text_value s u Hs).
Defined.

(** ** The engine [RomuDuoJr] *)

Lemma mul64_cancel (k kinv a b : Z) :
  mul64 k kinv = 1 -> mul64 a k = mul64 b k -> a mod two64 = b mod two64.
Proof.
  unfold mul64. intros Hk Hab.
  assert (forall c, c mod two64 = ((c * k) mod two64 * kinv) mod two64) as Hc.
  { intro c. rewrite Z.mul_mod_idemp_l by (unfold two64; lia).
    rewrite <- Z.mul_assoc, <- Z.mul_mod_idemp_r by (unfold two64; lia).
    rewrite Hk, Z.mul_1_r. reflexivity. }
  rewrite (Hc a), (Hc b), Hab. reflexivity.
Qed.

Lemma mul64_range (a b : Z) : is_u64 (mul64 a b).
Proof. unfold mul64, is_u64. apply Z.mod_pos_bound. unfold two64. lia. Qed.

Lemma sub64_range (a b : Z) : is_u64 (sub64 a b).
Proof. unfold sub64, is_u64. apply Z.mod_pos_bound. unfold two64. lia. Qed.

(** A rotation takes the low [64 - r] bits to the top and the high [r]
    bits to the bottom. *)
Lemma rotl_value (x r : Z) :
  0 < r < 64 -> is_u64 x ->
  rotl x r = (x mod 2 ^ (64 - r)) * 2 ^ r + x / 2 ^ (64 - r)
  /\ 0 <= x / 2 ^ (64 - r) < 2 ^ r
  /\ 0 <= x mod 2 ^ (64 - r) < 2 ^ (64 - r).
Proof.
  intros Hr Hx. unfold is_u64, two64 in Hx.
  assert (0 < 2 ^ (64 - r)) as Hp by (apply Z.pow_pos_nonneg; lia).
  assert (0 < 2 ^ r) as Hq by (apply Z.pow_pos_nonneg; lia).
  assert (2 ^ 64 = 2 ^ (64 - r) * 2 ^ r) as Es
      by (rewrite <- Z.pow_add_r by lia; f_equal; lia).
  assert (0 <= x / 2 ^ (64 - r) < 2 ^ r) as Hd.
  { split; [apply Z.div_pos; lia|]. apply Z.div_lt_upper_bound; lia. }
  split; [|split; [exact Hd|apply Z.mod_pos_bound; exact Hp]].
  unfold rotl. rewrite (shr64_div x) by lia.
  apply lor_shl64; [lia|exact Hd].
Qed.

Lemma rotl_range (x r : Z) : 0 < r < 64 -> is_u64 x -> is_u64 (rotl x r).
Proof.
  intros Hr Hx. destruct (rotl_value Hr Hx) as (E & Hd & Hm). rewrite E.
  unfold is_u64, two64.
  replace (2 ^ 64) with (2 ^ (64 - r) * 2 ^ r)
    by (rewrite <- Z.pow_add_r by lia; f_equal; lia).
  nia.
Qed.

Lemma radix_split_unique (Q a1 d1 a2 d2 : Z) :
  0 <= d1 < Q -> 0 <= d2 < Q -> a1 * Q + d1 = a2 * Q + d2 ->
  a1 = a2 /\ d1 = d2.
Proof.
  intros H1 H2 E.
  assert (a1 = a2) as Ea by (destruct (Z.lt_trichotomy a1 a2) as [L|[L|L]]; nia).
  split; [exact Ea|]. subst a2. lia.
Qed.

Lemma rotl_inj (x1 x2 r : Z) :
  0 < r < 64 -> is_u64 x1 -> is_u64 x2 -> rotl x1 r = rotl x2 r -> x1 = x2.
Proof.
  intros Hr H1 H2 E.
  destruct (rotl_value Hr H1) as (E1 & D1 & M1).
  destruct (rotl_value Hr H2) as (E2 & D2 & M2).
  rewrite E1, E2 in E.
  assert (0 < 2 ^ (64 - r)) as Hp by (apply Z.pow_pos_nonneg; lia).
  assert (0 < 2 ^ r) as Hq by (apply Z.pow_pos_nonneg; lia).
  destruct (@radix_split_unique _ _ _ _ _ D1 D2 E) as [Em Ed].
  rewrite (Z.div_mod x1 (2 ^ (64 - r))), (Z.div_mod x2 (2 ^ (64 - r))) by lia.
  rewrite Em, Ed. reflexivity.
Qed.

(** Every 64-bit word is a rotation of a 64-bit word. *)
Lemma rotl_surj (v r : Z) :
  0 < r < 64 -> is_u64 v -> exists x, is_u64 x /\ rotl x r = v.
Proof.
  intros Hr Hv. unfold is_u64, two64 in Hv.
  assert (0 < 2 ^ (64 - r)) as Hp by (apply Z.pow_pos_nonneg; lia).
  assert (0 < 2 ^ r) as Hq by (apply Z.pow_pos_nonneg; lia).
  assert (2 ^ 64 = 2 ^ (64 - r) * 2 ^ r) as Es
      by (rewrite <- Z.pow_add_r by lia; f_equal; lia).
  pose proof (Z.mod_pos_bound v (2 ^ r) Hq) as Bm.
  assert (0 <= v / 2 ^ r < 2 ^ (64 - r)) as Bd.
  { split; [apply Z.div_pos; lia|]. apply Z.div_lt_upper_bound; lia. }
  set (x := (v mod 2 ^ r) * 2 ^ (64 - r) + v / 2 ^ r).
  assert (is_u64 x) as Hx by (unfold is_u64, two64, x; nia).
  exists x. split; [exact Hx|].
  destruct (rotl_value Hr Hx) as (E & _ & _). rewrite E.
  assert (x mod 2 ^ (64 - r) = v / 2 ^ r) as Em
      by (symmetry; apply (Z.mod_unique _ _ (v mod 2 ^ r)); unfold x; lia).
  assert (x / 2 ^ (64 - r) = v mod 2 ^ r) as Ed
      by (symmetry; apply (Z.div_unique _ _ _ (v / 2 ^ r)); unfold x; lia).
  rewrite Em, Ed. pose proof (Z.div_mod v (2 ^ r) ltac:(lia)). lia.
Qed.

Lemma lxor_range (a b : Z) : is_u64 a -> is_u64 b -> is_u64 (Z.lxor a b).
Proof.
  unfold is_u64, two64. intros Ha Hb.
  assert (0 <= Z.lxor a b) as H0 by (apply Z.lxor_nonneg; lia).
  split; [exact H0|].
  destruct (Z.eq_dec (Z.lxor a b) 0) as [->|Ne]; [lia|].
  apply Z.log2_lt_pow2; [lia|].
  pose proof (Z.log2_lxor a b ltac:(lia) ltac:(lia)) as Hl.
  assert (Z.log2 a < 64) by
    (destruct (Z.eq_dec a 0) as [->|]; [cbn; lia|apply Z.log2_lt_pow2; lia]).
  assert (Z.log2 b < 64) by
    (destruct (Z.eq_dec b 0) as [->|]; [cbn; lia|apply Z.log2_lt_pow2; lia]).
  lia.
Qed.

Lemma shr64_range (a k : Z) : 0 <= k -> is_u64 a -> is_u64 (shr64 a k).
Proof.
  unfold is_u64, two64. intros Hk Ha. rewrite shr64_div by assumption.
  assert (0 < 2 ^ k) by (apply Z.pow_pos_nonneg; lia).
  split; [apply Z.div_pos; lia|].
  apply Z.div_lt_upper_bound; [lia|]. nia.
Qed.

Lemma mix_range (y : Z) : is_u64 y -> is_u64 (mix y).
Proof.
  intro Hy. unfold mix.
  apply lxor_range; [apply lxor_range; [exact Hy|]|]; apply shr64_range; (lia || exact Hy).
Qed.

(** [mix] keeps the highest set bit, so it takes no word but zero to
    zero. *)
Lemma mix_nonzero (y : Z) : is_u64 y -> y <> 0 -> mix y <> 0.
Proof.
  unfold is_u64. intros Hy Hn E.
  assert (0 < y) as Hpos by lia.
  pose proof (Z.bit_log2 y Hpos) as Hb.
  pose proof (Z.log2_nonneg y) as Hl.
  assert (Z.testbit (mix y) (Z.log2 y) = true) as Ht.
  { unfold mix, shr64. rewrite !Z.lxor_spec, !Z.shiftr_spec by lia.
    rewrite Hb.
    rewrite (Z.bits_above_log2 y (Z.log2 y + 23)) by lia.
    rewrite (Z.bits_above_log2 y (Z.log2 y + 51)) by lia. reflexivity. }
  rewrite E, Z.bits_0 in Ht. discriminate Ht.
Qed.

Lemma romu_next_ok (e : RomuDuoJr) :
  romu_ok e -> is_u64 (fst (romu_next e)) /\ romu_ok (snd (romu_next e)).
Proof.
  intros [Hx Hy]. unfold romu_next. cbn [fst snd]. split; [exact Hx|].
  split; cbn [romu_x romu_y]; [apply mul64_range|].
  apply rotl_range; [lia|apply sub64_range].
Qed.

Lemma romu_seed_ok (seed : Z) : romu_ok (romu_seed seed).
Proof.
  unfold romu_seed. cbv zeta. split; cbn [romu_x romu_y].
  - apply mul64_range.
  - apply mix_range, mul64_range.
Qed.

Lemma romu_next_inj (e1 e2 : RomuDuoJr) :
  romu_ok e1 -> romu_ok e2 ->
  snd (romu_next e1) = snd (romu_next e2) -> e1 = e2.
Proof.
  destruct e1 as [x1 y1], e2 as [x2 y2]. intros [Hx1 Hy1] [Hx2 Hy2].
  cbn [romu_x romu_y] in *. unfold romu_next. cbn [snd romu_x romu_y].
  intro E. injection E as Ex Ey.
  assert (mul64 0xD3833E804F4C574B 0x43d68ed20cd1fa63 = 1) as Hinv by reflexivity.
  pose proof (@mul64_cancel _ _ _ _ Hinv Ex) as Ey12.
  unfold is_u64 in *. rewrite !Z.mod_small in Ey12 by assumption. subst y2.
  apply rotl_inj in Ey; [|lia|apply sub64_range|apply sub64_range].
  unfold sub64 in Ey.
  assert (x1 = x2).
  { assert ((y1 - x1) mod two64 = (y1 - x2) mod two64) as Em by exact Ey.
    unfold two64 in *.
    pose proof (Z.div_mod (y1 - x1) (2 ^ 64) ltac:(lia)).
    pose proof (Z.div_mod (y1 - x2) (2 ^ 64) ltac:(lia)).
    pose proof (Z.mod_pos_bound (y1 - x1) (2 ^ 64) ltac:(lia)).
    nia. }
  subst x2. reflexivity.
Qed.

Lemma romu_next_surj (e' : RomuDuoJr) :
  romu_ok e' -> exists e, romu_ok e /\ snd (romu_next e) = e'.
Proof.
  destruct e' as [x' y']. intros [Hx' Hy']. cbn [romu_x romu_y] in *.
  destruct (@rotl_surj y' 27 ltac:(lia) Hy') as (d & Hd & Ed).
  set (y := mul64 x' 0x43d68ed20cd1fa63).
  set (x := sub64 y d).
  exists (mk_romu x y). split.
  - split; cbn [romu_x romu_y]; [apply sub64_range|apply mul64_range].
  - unfold romu_next. cbn [snd romu_x romu_y]. f_equal.
    + unfold y, mul64. rewrite Z.mul_mod_idemp_l by (unfold two64; lia).
      rewrite <- Z.mul_assoc.
      rewrite <- Z.mul_mod_idemp_r by (unfold two64; lia).
      change ((0x43d68ed20cd1fa63 * 0xD3833E804F4C574B) mod two64) with 1.
      rewrite Z.mul_1_r. apply Z.mod_small. exact Hx'.
    + rewrite <- Ed. f_equal. unfold x, sub64.
      pose proof (mul64_range x' 0x43d68ed20cd1fa63) as Hy. fold y in Hy.
      unfold is_u64 in *.
      rewrite Zminus_mod_idemp_r.
      replace (y - (y - d)) with d by lia. apply Z.mod_small. exact Hd.
Qed.

(** The seeding routine never leaves a state word at zero. *)
Lemma romu_seed_nonzero (seed : Z) :
  is_u64 seed -> romu_x (romu_seed seed) <> 0 /\ romu_y (romu_seed seed) <> 0.
Proof.
  intro Hs. unfold romu_seed. cbv zeta. cbn [romu_x romu_y].
  set (X := 0x9E6C63D0676A9A99).
  assert (mul64 X 0xb23d0fa7011f19a9 = 1) as Hinv by reflexivity.
  assert (forall a, is_u64 a -> a <> 0 -> mul64 a X <> 0) as Hmul.
  { intros a Ha Hn E.
    assert (mul64 a X = mul64 0 X) as E0 by (rewrite E; reflexivity).
    pose proof (@mul64_cancel _ _ _ _ Hinv E0) as Em.
    unfold is_u64 in Ha. rewrite Z.mod_small in Em by assumption.
    rewrite Em in Hn. apply Hn. reflexivity. }
  set (y0 := sub64 (if seed =? 0 then 1 else 0) seed).
  assert (is_u64 y0) as R0 by apply sub64_range.
  assert (y0 <> 0) as N0.
  { unfold y0, sub64. unfold is_u64, two64 in Hs.
    destruct (Z.eqb_spec seed 0) as [->|Ne]; [discriminate|].
    intro E. apply Z.mod_divide in E; [|unfold two64; lia].
    destruct E as [q Eq]. unfold two64 in Eq. nia. }
  set (y1 := mul64 y0 X). pose proof (mul64_range y0 X) as R1. fold y1 in R1.
  pose proof (Hmul y0 R0 N0) as N1. fold y1 in N1.
  set (y2 := mix y1). pose proof (mix_range R1) as R2. fold y2 in R2.
  pose proof (mix_nonzero R1 N1) as N2. fold y2 in N2.
  set (y3 := mul64 y2 X). pose proof (mul64_range y2 X) as R3. fold y3 in R3.
  pose proof (Hmul y2 R2 N2) as N3. fold y3 in N3.
  split; [|apply mix_nonzero; assumption].
  assert (rotl y3 27 <> 0) as Nr.
  { intro E. apply N3.
    apply (@rotl_inj y3 0 27); [lia|exact R3|unfold is_u64, two64; lia|].
    rewrite E. reflexivity. }
  assert (mul64 X (rotl y3 27) = mul64 (rotl y3 27) X) as Ec
      by (unfold mul64; f_equal; lia).
  rewrite Ec. apply Hmul; [apply rotl_range; [lia|exact R3]|exact Nr].
Qed.

Lemma romu_discard_ok (n : nat) :
  forall e, romu_ok e -> e <> romu_from_state 0 0 ->
  romu_ok (romu_discard n e) /\ romu_discard n e <> romu_from_state 0 0.
Proof.
  induction n as [|n IH]; intros e Hok Hne; cbn [romu_discard]; [split; assumption|].
  apply IH; [apply romu_next_ok; exact Hok|].
  intro E. apply Hne.
  apply romu_next_inj; [exact Hok|split; unfold is_u64, two64; cbn; lia|].
  rewrite E. reflexivity.
Qed.

(** X17: a seeded [RomuDuoJr] never degenerates. Both state words are
    non-zero after seeding with any 64-bit seed, after any number of
    calls of [next] the state is not the all-zero state, and the engine
    that [split] forks off then has both state words non-zero again; the
    all-zero state itself, reachable only through [from_state], stays
    where it is and returns zero for ever. *)
Theorem X17_seeded_engine_never_zero (seed : Z) (n : nat) :
  is_u64 seed ->
  (romu_x (romu_seed seed) <> 0 /\ romu_y (romu_seed seed) <> 0)
  /\ romu_ok (romu_discard n (romu_seed seed))
  /\ romu_discard n (romu_seed seed) <> romu_from_state 0 0
  /\ (let child := fst (romu_split (romu_discard n (romu_seed seed))) in
      romu_x child <> 0 /\ romu_y child <> 0)
  /\ romu_discard n (romu_from_state 0 0) = romu_from_state 0 0
  /\ romu_outputs n (romu_from_state 0 0) = repeat 0 n.
Proof.
  intro Hs. pose proof (romu_seed_nonzero Hs) as [Nx Ny].
  split; [split; assumption|].
  assert (romu_seed seed <> romu_from_state 0 0) as Hne.
  { intro E. apply Nx. rewrite E. reflexivity. }
  destruct (romu_discard_ok n (romu_seed_ok seed) Hne) as [Hok Hnz].
  split; [exact Hok|]. split; [exact Hnz|].
  split; [unfold romu_split, romu_next; cbn [fst];
          apply romu_seed_nonzero; apply Hok|].
  clear.
  split; induction n as [|k IH]; try reflexivity.
  - cbn [romu_discard]. exact IH.
  - cbn [romu_outputs repeat]. change (romu_next (romu_from_state 0 0)) with (0, romu_from_state 0 0).
    cbv iota beta. f_equal. exact IH.
Qed.

Lemma X17_seeded_engine_never_zero_witness :
  is_u64 0
  /\ (romu_x (romu_seed 0) <> 0 /\ romu_y (romu_seed 0) <> 0)
  /\ romu_ok (romu_discard 5 (romu_seed 0))
  /\ romu_discard 5 (romu_seed 0) <> romu_from_state 0 0
  /\ (let child := fst (romu_split (romu_discard 5 (romu_seed 0))) in
      romu_x child <> 0 /\ romu_y child <> 0)
  /\ romu_discard 5 (romu_from_state 0 0) = romu_from_state 0 0
  /\ romu_outputs 5 (romu_from_state 0 0) = repeat 0 5%nat.
Proof.
  assert (is_u64 0) as Hs by (unfold is_u64, two64; lia).
  split; [exact Hs|]. exact (@X17_seeded_engine_never_zero 0 5 Hs).
Defined.

(** X18: [next] permutes the states of [RomuDuoJr]: it keeps both
    state words 64-bit words, two different states never step to the
    same state, and every state is the successor of a state. The value
    returned is the [x] word before the step. *)
Theorem X18_next_permutes_states (e1 e2 : RomuDuoJr) :
  romu_ok e1 -> romu_ok e2 ->
  romu_ok (snd (romu_next e1))
  /\ fst (romu_next e1) = romu_x e1
  /\ (snd (romu_next e1) = snd (romu_next e2) -> e1 = e2)
  /\ exists e0, romu_ok e0 /\ snd (romu_next e0) = e1.
Proof.
  intros H1 H2. split; [apply romu_next_ok; exact H1|]. split; [reflexivity|].
  split; [apply romu_next_inj; assumption|apply romu_next_surj; exact H1].
Qed.

Lemma X18_next_permutes_states_witness :
  let e1 := romu_seed 1 in
  let e2 := romu_seed 2 in
  romu_ok e1 /\ romu_ok e2
  /\ romu_ok (snd (romu_next e1))
  /\ fst (romu_next e1) = romu_x e1
  /\ (snd (romu_next e1) = snd (romu_next e2) -> e1 = e2)
  /\ exists e0, romu_ok e0 /\ snd (romu_next e0) = e1.
Proof.
  intros e1 e2.
  assert (romu_ok e1) as H1 by (unfold romu_ok, is_u64; vm_compute; intuition discriminate).
  assert (romu_ok e2) as H2 by (unfold romu_ok, is_u64; vm_compute; intuition discriminate).
  split; [exact H1|]. split; [exact H2|].
  exact (@X18_next_permutes_states e1 e2 H1 H2).
Defined.

(** [mix] is one-to-one: the bits of its argument can be read off its
    result from the top down. *)
Lemma mix_inj (a b : Z) : is_u64 a -> is_u64 b -> mix a = mix b -> a = b.
Proof.
  unfold is_u64, two64. intros Ha Hb E.
  assert (forall x, 0 <= x < 2 ^ 64 -> forall j, 64 <= j -> Z.testbit x j = false)
    as Hhigh.
  { intros x Hx j Hj. destruct (Z.eq_dec x 0) as [->|Ne]; [apply Z.bits_0|].
    apply Z.bits_above_log2; [lia|].
    assert (Z.log2 x < 64) by (apply Z.log2_lt_pow2; lia). lia. }
  assert (forall x k, 0 <= k ->
            Z.testbit (mix x) k
            = xorb (xorb (Z.testbit x k) (Z.testbit x (k + 23))) (Z.testbit x (k + 51)))
    as Hbit.
  { intros x k Hk. unfold mix, shr64.
    rewrite !Z.lxor_spec, !Z.shiftr_spec by lia. reflexivity. }
  assert (forall n : nat, forall j, 64 - Z.of_nat n <= j -> 0 <= j ->
            Z.testbit a j = Z.testbit b j) as Hall.
  { induction n as [|n IH]; intros j Hj H0.
    - rewrite (Hhigh a Ha j), (Hhigh b Hb j) by lia. reflexivity.
    - pose proof (Hbit a j H0) as Ba. pose proof (Hbit b j H0) as Bb.
      rewrite E in Ba. rewrite Ba in Bb.
      rewrite (IH (j + 23)), (IH (j + 51)) in Bb by lia.
      destruct (Z.testbit a j), (Z.testbit b j), (Z.testbit b (j + 23)),
               (Z.testbit b (j + 51)); cbn in Bb; congruence. }
  apply Z.bits_inj'. intros j Hj. apply (Hall 64%nat); lia.
Qed.

(** The seeding routine is one-to-one in the word it starts from. *)
Lemma romu_seed_start (s1 s2 : Z) :
  romu_seed s1 = romu_seed s2 ->
  sub64 (if s1 =? 0 then 1 else 0) s1 = sub64 (if s2 =? 0 then 1 else 0) s2.
Proof.
  unfold romu_seed. cbv zeta.
  set (X := 0x9E6C63D0676A9A99).
  set (a := sub64 (if s1 =? 0 then 1 else 0) s1).
  set (b := sub64 (if s2 =? 0 then 1 else 0) s2).
  intro E. injection E as _ Ey.
  assert (mul64 X 0xb23d0fa7011f19a9 = 1) as Hinv by reflexivity.
  apply mix_inj in Ey; [|apply mul64_range|apply mul64_range].
  pose proof (@mul64_cancel _ _ _ _ Hinv Ey) as E2.
  pose proof (mix_range (mul64_range a X)) as Ra.
  pose proof (mix_range (mul64_range b X)) as Rb.
  unfold is_u64 in Ra, Rb. rewrite !Z.mod_small in E2 by assumption.
  apply mix_inj in E2; [|apply mul64_range|apply mul64_range].
  pose proof (@mul64_cancel _ _ _ _ Hinv E2) as E3.
  pose proof (sub64_range (if s1 =? 0 then 1 else 0) s1) as Sa.
  pose proof (sub64_range (if s2 =? 0 then 1 else 0) s2) as Sb.
  fold a in Sa. fold b in Sb. unfold is_u64 in Sa, Sb.
  rewrite !Z.mod_small in E3 by assumption. exact E3.
Qed.

(** X19: the seeding routine of [RomuDuoJr] starts from [!seed - seed],
    which is [1] for the seeds [0] and [2^64 - 1] alike: these two seeds
    give the same engine, and any other two different 64-bit seeds give
    different engines. *)
Theorem X19_seeds_give_different_engines (s1 s2 : Z) :
  is_u64 s1 -> is_u64 s2 ->
  (romu_seed s1 = romu_seed s2
   <-> s1 = s2 \/ (s1 = 0 /\ s2 = two64 - 1) \/ (s1 = two64 - 1 /\ s2 = 0)).
Proof.
  intros H1 H2. split.
  - intro E. apply romu_seed_start in E. unfold sub64 in E.
    unfold is_u64, two64 in *.
    assert (forall s, 0 <= s < 2 ^ 64 ->
              ((if s =? 0 then 1 else 0) - s) mod 2 ^ 64
              = if s =? 0 then 1 else 2 ^ 64 - s) as Hv.
    { intros s Hs. destruct (Z.eqb_spec s 0) as [->|Ne]; [reflexivity|].
      symmetry. apply (Z.mod_unique _ _ (-1)); lia. }
    rewrite (Hv s1 H1), (Hv s2 H2) in E.
    destruct (Z.eqb_spec s1 0), (Z.eqb_spec s2 0); lia.
  - intros [->|[[-> ->]|[-> ->]]]; reflexivity.
Qed.

Lemma X19_seeds_give_different_engines_witness :
  is_u64 0 /\ is_u64 (two64 - 1)
  /\ (romu_seed 0 = romu_seed (two64 - 1)
      <-> 0 = two64 - 1 \/ (0 = 0 /\ two64 - 1 = two64 - 1)
          \/ (0 = two64 - 1 /\ two64 - 1 = 0)).
Proof.
  assert (is_u64 0) as H1 by (unfold is_u64, two64; lia).
  assert (is_u64 (two64 - 1)) as H2 by (unfold is_u64, two64; lia).
  split; [exact H1|]. split; [exact H2|].
  exact (@X19_seeds_give_different_engines 0 (two64 - 1) H1 H2).
Defined.

(** ** The wrapper [rnd::Random] *)

Lemma mask_ones (N : Z) : 0 <= N < 64 -> sub64 (shl64 1 N) 1 = Z.ones N.
Proof.
  intro HN. rewrite shl64_mul by lia. unfold sub64, two64. rewrite Z.mul_1_l.
  assert (0 < 2 ^ N < 2 ^ 64) as Hp
      by (split; [apply Z.pow_pos_nonneg; lia|apply Z.pow_lt_mono_r; lia]).
  rewrite (Z.mod_small (2 ^ N)) by lia.
  rewrite Z.mod_small by lia. rewrite Z.ones_equiv. lia.
Qed.

Lemma top_bits_range (x N : Z) :
  0 < N <= 64 -> is_u64 x -> 0 <= x / 2 ^ (64 - N) < 2 ^ N.
Proof.
  unfold is_u64, two64. intros HN Hx.
  assert (0 < 2 ^ (64 - N)) by (apply Z.pow_pos_nonneg; lia).
  split; [apply Z.div_pos; lia|].
  apply Z.div_lt_upper_bound; [lia|].
  rewrite <- Z.pow_add_r by lia. replace (64 - N + N) with 64 by lia. lia.
Qed.

Section RandomFacts.
Context {E : Type} `{RandomBitEngine E}.

Lemma bits_value (N : Z) (e : E) :
  0 < N <= 64 -> is_u64 (fst (engine_next e)) ->
  bits N e = (fst (engine_next e) / 2 ^ (64 - N), snd (engine_next e)).
Proof.
  intros HN Hx. unfold bits, BITS.
  destruct (engine_next e) as [x e']. cbn [fst snd] in *.
  destruct (Z.eqb_spec N 64) as [->|Ne].
  - change (2 ^ (64 - 64)) with 1. rewrite Z.div_1_r. reflexivity.
  - cbv zeta. rewrite mask_ones by lia. rewrite Z.land_ones by lia.
    rewrite shr64_div by lia.
    rewrite Z.mod_small by (apply top_bits_range; [lia|exact Hx]). reflexivity.
Qed.

Lemma bits_as_byte_value (e : E) :
  is_u64 (fst (engine_next e)) ->
  bits_as_byte e = (fst (engine_next e) / 2 ^ 56, snd (engine_next e)).
Proof.
  intro Hx.
  pose proof (@top_bits_range (fst (engine_next e)) 8 ltac:(lia) Hx) as B.
  change (64 - 8) with 56 in B. unfold bits_as_byte.
  destruct (engine_next e) as [y e']. cbn [fst snd] in *.
  change (Z.shiftl 1 8 - 1) with (Z.ones 8).
  rewrite Z.land_ones by lia. rewrite shr64_div by lia.
  change (64 - 8) with 56. rewrite Z.mod_small by exact B. reflexivity.
Qed.

(** X20: [bits<N>()] returns the top [N] bits of the engine's next
    64-bit word, a number below [2^N], and advances the engine once;
    [bits_as<byte>()] is the top byte, [rgb8()] the top 24 bits and
    [rgba8()] the top 32 bits. *)
Theorem X20_bits_are_top_bits (N : Z) (e : E) :
  0 < N <= 64 -> is_u64 (fst (engine_next e)) ->
  let x := fst (engine_next e) in
  bits N e = (x / 2 ^ (64 - N), snd (engine_next e))
  /\ 0 <= fst (bits N e) < 2 ^ N
  /\ bits_as_byte e = (x / 2 ^ 56, snd (engine_next e))
  /\ rgb8 e = (x / 2 ^ 40, snd (engine_next e))
  /\ rgba8 e = (x / 2 ^ 32, snd (engine_next e)).
Proof.
  intros HN Hx x.
  split; [apply bits_value; assumption|].
  split; [rewrite bits_value by assumption; apply top_bits_range; assumption|].
  split; [|split].
  - apply bits_as_byte_value. exact Hx.
  - unfold rgb8. rewrite (@bits_value 24 e) by (lia || exact Hx).
    pose proof (@top_bits_range (fst (engine_next e)) 24 ltac:(lia) Hx) as B.
    change (64 - 24) with 40 in *. fold x in B |- *.
    rewrite Z.mod_small by lia. reflexivity.
  - unfold rgba8. rewrite (@bits_value 32 e) by (lia || exact Hx).
    pose proof (@top_bits_range (fst (engine_next e)) 32 ltac:(lia) Hx) as B.
    change (64 - 32) with 32 in *. fold x in B |- *.
    rewrite Z.mod_small by lia. reflexivity.
Qed.

Lemma next_bound_value (bound : Z) (e : E) :
  0 < bound -> is_u64 bound -> is_u64 (fst (engine_next e)) ->
  next_bound bound e
  = (fst (engine_next e) * bound / 2 ^ 64, snd (engine_next e))
  /\ 0 <= fst (engine_next e) * bound / 2 ^ 64 < bound.
Proof.
  unfold is_u64, two64. intros Hb Hb' Hx. unfold next_bound, mul_shift_high64, BITS.
  destruct (engine_next e) as [x e']. cbn [fst snd] in *.
  assert (0 <= x * bound < 2 ^ 64 * bound) as Hp by nia.
  assert (0 <= x * bound / 2 ^ 64 < bound) as Hq.
  { split; [apply Z.div_pos; lia|]. apply Z.div_lt_upper_bound; lia. }
  split; [|exact Hq].
  rewrite (Z.mod_small (x * bound)) by (change (2 ^ 128) with (2 ^ 64 * 2 ^ 64); nia).
  rewrite Z.shiftr_div_pow2 by lia. unfold two64.
  rewrite Z.mod_small by lia. reflexivity.
Qed.

(** X21: [next(bound)], for a bound from 1 to [2^64 - 1], returns
    [floor(x * bound / 2^64)] for the engine's next word [x]: a number
    from 0 up to [bound - 1], which does not go down when [x] goes up. *)
Theorem X21_next_below_bound (bound : Z) (e e2 : E) :
  0 < bound -> is_u64 bound ->
  is_u64 (fst (engine_next e)) -> is_u64 (fst (engine_next e2)) ->
  next_bound bound e
  = (fst (engine_next e) * bound / 2 ^ 64, snd (engine_next e))
  /\ 0 <= fst (next_bound bound e) < bound
  /\ (fst (engine_next e) <= fst (engine_next e2) ->
      fst (next_bound bound e) <= fst (next_bound bound e2)).
Proof.
  intros Hb Hb' Hx Hx2.
  destruct (next_bound_value e Hb Hb' Hx) as [E1 B1].
  destruct (next_bound_value e2 Hb Hb' Hx2) as [E2 _].
  rewrite E1, E2. cbn [fst]. split; [reflexivity|]. split; [exact B1|].
  intro Hle. apply Z.div_le_mono; [lia|]. nia.
Qed.



Lemma bits_fill_once (n : Z) (k : nat) (e : E) :
  0 < n < 64 -> is_u64 (fst (engine_next e)) ->
  bits_fill (S k) n 0 0 e = (fst (engine_next e) mod 2 ^ n, snd (engine_next e)).
Proof.
  intros Hn Hx. cbn [bits_fill].
  destruct (Z.ltb_spec 0 n) as [_|]; [|lia].
  destruct (engine_next e) as [r e']. cbn [fst snd] in *. cbv zeta.
  unfold BITS. rewrite Z.sub_0_r, Z.min_r by lia.
  rewrite mask_ones by lia. rewrite Z.land_ones by lia.
  assert (0 < 2 ^ n < 2 ^ 64) as Hp
      by (split; [apply Z.pow_pos_nonneg; lia|apply Z.pow_lt_mono_r; lia]).
  pose proof (Z.mod_pos_bound r (2 ^ n) ltac:(lia)) as Hm.
  rewrite shl64_mul by lia. rewrite Z.pow_0_r, Z.mul_1_r.
  unfold two64. rewrite (Z.mod_small (r mod 2 ^ n)) by lia.
  rewrite Z.lor_0_l.
  assert (bits_fill k n (0 + n) (r mod 2 ^ n) e' = (r mod 2 ^ n, e')) as Ek.
  { destruct k as [|k]; [reflexivity|]. cbn [bits_fill].
    destruct (Z.ltb_spec (0 + n) n) as [|_]; [lia|]. reflexivity. }
  exact Ek.
Qed.

(** X23: [bits(n)], for [n] from 1 to 64, draws one word [x] from the
    engine and returns a number below [2^n]: the top [n] bits of [x]
    when [n] is 8, 16, 24, 32 or 64, and the low [n] bits of [x] for
    every other [n]. *)
Theorem X23_bits_of_runtime_width (n : Z) (e : E) :
  1 <= n <= 64 -> is_u64 (fst (engine_next e)) ->
  let x := fst (engine_next e) in
  fst (bits_n n e)
  = (if (n =? 8) || (n =? 16) || (n =? 24) || (n =? 32) || (n =? 64)
     then x / 2 ^ (64 - n) else x mod 2 ^ n)
  /\ 0 <= fst (bits_n n e) < 2 ^ n
  /\ snd (bits_n n e) = snd (engine_next e).
Proof.
  intros Hn Hx x. unfold bits_n.
  pose proof (@top_bits_range (fst (engine_next e)) n ltac:(lia) Hx) as Bt.
  fold x in Bt.
  destruct (Z.eqb_spec n 8) as [->|N8];
    [rewrite bits_value by (lia || exact Hx); cbn [fst snd orb]; fold x; auto|].
  destruct (Z.eqb_spec n 16) as [->|N16];
    [rewrite bits_value by (lia || exact Hx); cbn [fst snd orb]; fold x; auto|].
  destruct (Z.eqb_spec n 24) as [->|N24];
    [rewrite bits_value by (lia || exact Hx); cbn [fst snd orb]; fold x; auto|].
  destruct (Z.eqb_spec n 32) as [->|N32];
    [rewrite bits_value by (lia || exact Hx); cbn [fst snd orb]; fold x; auto|].
  destruct (Z.eqb_spec n 64) as [->|N64];
    [rewrite bits_value by (lia || exact Hx); cbn [fst snd orb]; fold x; auto|].
  cbn [orb].
  destruct (Z.to_nat n) as [|k] eqn:Ek; [lia|].
  rewrite bits_fill_once by (lia || exact Hx). cbn [fst snd]. fold x.
  split; [reflexivity|]. split; [|reflexivity].
  apply Z.mod_pos_bound. apply Z.pow_pos_nonneg; lia.
Qed.
End RandomFacts.

Lemma X20_bits_are_top_bits_witness :
  let e := romu_seed 42 in
  0 < 24 <= 64 /\ is_u64 (fst (engine_next e))
  /\ (let x := fst (engine_next e) in
      bits 24 e = (x / 2 ^ (64 - 24), snd (engine_next e))
      /\ 0 <= fst (bits 24 e) < 2 ^ 24
      /\ bits_as_byte e = (x / 2 ^ 56, snd (engine_next e))
      /\ rgb8 e = (x / 2 ^ 40, snd (engine_next e))
      /\ rgba8 e = (x / 2 ^ 32, snd (engine_next e))).
Proof.
  intro e.
  assert (0 < 24 <= 64) as HN by lia.
  assert (is_u64 (fst (engine_next e))) as Hx
      by (unfold is_u64; vm_compute; split; [discriminate|reflexivity]).
  split; [exact HN|]. split; [exact Hx|].
  exact (@X20_bits_are_top_bits RomuDuoJr _ 24 e HN Hx).
Defined.

Lemma X21_next_below_bound_witness :
  let e := romu_seed 42 in
  let e2 := romu_seed 43 in
  0 < 6 /\ is_u64 6
  /\ is_u64 (fst (engine_next e)) /\ is_u64 (fst (engine_next e2))
  /\ next_bound 6 e = (fst (engine_next e) * 6 / 2 ^ 64, snd (engine_next e))
  /\ 0 <= fst (next_bound 6 e) < 6
  /\ (fst (engine_next e) <= fst (engine_next e2) ->
      fst (next_bound 6 e) <= fst (next_bound 6 e2)).
Proof.
  intros e e2.
  assert (0 < 6) as Hb by lia.
  assert (is_u64 6) as Hb' by (unfold is_u64, two64; lia).
  assert (is_u64 (fst (engine_next e))) as Hx
      by (unfold is_u64; vm_compute; split; [discriminate|reflexivity]).
  assert (is_u64 (fst (engine_next e2))) as Hx2
      by (unfold is_u64; vm_compute; split; [discriminate|reflexivity]).
  split; [exact Hb|]. split; [exact Hb'|]. split; [exact Hx|]. split; [exact Hx2|].
  exact (@X21_next_below_bound RomuDuoJr _ 6 e e2 Hb Hb' Hx Hx2).
Defined.


Lemma X23_bits_of_runtime_width_witness :
  let e := romu_seed 42 in
  1 <= 23 <= 64 /\ is_u64 (fst (engine_next e))
  /\ (let x := fst (engine_next e) in
      fst (bits_n 23 e)
      = (if (23 =? 8) || (23 =? 16) || (23 =? 24) || (23 =? 32) || (23 =? 64)
         then x / 2 ^ (64 - 23) else x mod 2 ^ 23)
      /\ 0 <= fst (bits_n 23 e) < 2 ^ 23
      /\ snd (bits_n 23 e) = snd (engine_next e)).
Proof.
  intro e.
  assert (1 <= 23 <= 64) as Hn by lia.
  assert (is_u64 (fst (engine_next e))) as Hx
      by (unfold is_u64; vm_compute; split; [discriminate|reflexivity]).
  split; [exact Hn|]. split; [exact Hx|].
  exact (@X23_bits_of_runtime_width RomuDuoJr _ 23 e Hn Hx).
Defined.

(** ** [generate] with the default engine *)

Lemma fill_random_romu (n : nat) :
  forall e : RomuDuoJr, romu_ok e ->
  fill_random n e
  = (map (fun x => x / 2 ^ 56) (romu_outputs n e), romu_discard n e).
Proof.
  induction n as [|n IH]; intros e He; [reflexivity|].
  destruct (romu_next_ok He) as [Hx Hok'].
  cbn [fill_random romu_outputs romu_discard].
  rewrite (@bits_as_byte_value RomuDuoJr RomuDuoJr_engine e Hx).
  change (engine_next e) with (romu_next e).
  rewrite (IH _ Hok').
  destruct (romu_next e) as [x e']. reflexivity.
Qed.

Lemma romu_discard_add (a b : nat) (e : RomuDuoJr) :
  romu_discard (a + b) e = romu_discard b (romu_discard a e).
Proof.
  revert e. induction a as [|a IH]; intro e; [reflexivity|].
  cbn [Nat.add romu_discard]. apply IH.
Qed.

Lemma romu_discard_keeps_ok (n : nat) :
  forall e, romu_ok e -> romu_ok (romu_discard n e).
Proof.
  induction n as [|n IH]; intros e He; [exact He|].
  cbn [romu_discard]. apply IH. apply romu_next_ok. exact He.
Qed.

Lemma generate_romu (salt ts : Z) (r : option RomuDuoJr) :
  romu_ok (the_rng salt r ts) ->
  data (fst (generate salt r ts))
  = write_big_endian 6 ts
    ++ map (fun x => x / 2 ^ 56) (romu_outputs 10 (the_rng salt r ts))
  /\ snd (generate salt r ts) = Some (romu_discard 10 (the_rng salt r ts)).
Proof.
  intro Hg. unfold generate. cbv zeta.
  rewrite (fill_random_romu 10 Hg). cbn [fst snd]. split; [|reflexivity].
  set (bs := map (fun x => x / 2 ^ 56) (romu_outputs 10 (the_rng salt r ts))).
  assert (length bs = 10%nat) as Lb.
  { pose proof (fill_random_ok 10 (the_rng salt r ts)) as [FL _].
    rewrite (fill_random_romu 10 Hg) in FL. exact FL. }
  destruct (@fresh_parts ulid_zero ts bs Lb) as [Et Er]. cbv zeta in Et, Er.
  rewrite <- (firstn_skipn 6 (data _)).
  unfold timestamp_bytes in Et. unfold random_bytes in Er.
  rewrite Et, Er. reflexivity.
Qed.

(** X24: with the default engine, the first call of [generate] in a
    thread seeds [RomuDuoJr] with the clock reading xor the salt; the
    sixteen bytes of the value are the six low bytes of the clock
    reading followed by the top bytes of the engine's first ten output
    words, and a second call uses the next ten output words. *)
Theorem X24_generate_with_default_engine (salt ts ts' : Z) :
  let g := romu_seed (Z.lxor ts salt) in
  let first := generate salt None ts in
  let second := generate salt (snd first) ts' in
  data (fst first)
  = write_big_endian 6 ts ++ map (fun x => x / 2 ^ 56) (romu_outputs 10 g)
  /\ data (fst second)
     = write_big_endian 6 ts'
       ++ map (fun x => x / 2 ^ 56) (romu_outputs 10 (romu_discard 10 g))
  /\ snd second = Some (romu_discard 20 g).
Proof.
  intros g first second.
  assert (romu_ok g) as Hg by apply romu_seed_ok.
  destruct (@generate_romu salt ts None Hg) as [D1 S1].
  change (the_rng salt None ts) with g in D1, S1.
  fold first in D1, S1. split; [exact D1|].
  assert (romu_ok (romu_discard 10 g)) as Hg' by (apply romu_discard_keeps_ok; exact Hg).
  unfold second. rewrite S1.
  destruct (@generate_romu salt ts' (Some (romu_discard 10 g)) Hg') as [D2 S2].
  change (the_rng salt (Some (romu_discard 10 g)) ts') with (romu_discard 10 g) in D2, S2.
  split; [exact D2|]. rewrite S2.
  change 20%nat with (10 + 10)%nat. rewrite romu_discard_add. reflexivity.
Qed.
